(** * Woodster jigsaw solver: board model, piece canonicalisation and
      backtracking search, embedded from the Python sources.

    - [src/models/board.py]  : [GameBoard]
    - [src/logic/solver.py]  : [solve_backtracking]
    - [src/models/piece.py]  : the file is missing; [PuzzlePiece] is modelled
      from the specification (sections 4.1 and 4.2).
    - [src/polyomino_jigsaw_solver/models/puzzle_board.py] : [PuzzleBoard]

    Python values are modelled as follows: [int] is [Z]; a [set] or
    [frozenset] of cells is a [gset Cell]; a [list] is a [list]; a [dict]
    is an association list in insertion order; an exception is the [Raise]
    alternative of [result]. *)

From stdpp Require Import gmap list sorting.
From Stdlib Require Import ZArith Lia.

Open Scope Z_scope.

(** ** Python exceptions *)

Inductive ValueErrorMsg : Type :=
  | WidthOutOfRange            (* "Width must be between 1 and 50" *)
  | HeightOutOfRange           (* "Height must be between 1 and 50" *)
  | BlockedOutOfBounds (cell : Z * Z)  (* "Blocked cell ... is out of board bounds" *)
  | CannotPlace (position : Z * Z)     (* "Cannot place shape at position ..." *)
  | ShapeNotFound (position : Z * Z)   (* "Shape not found at position ..." *)
  | MinEmptySequence           (* min() of an empty iterable *)
  | EmptyShape.                (* a piece built from no cell at all *)

(** [RecursionError] is what the interpreter raises when the nesting of
    calls goes beyond its recursion limit; in the solver this happens when
    one more frame of [backtrack] is nested than the limit leaves room
    for. *)
Inductive exn : Type :=
  | ValueError (msg : ValueErrorMsg)
  | IndexError
  | KeyError
  | RecursionError.

Inductive result (A : Type) : Type :=
  | Ok (a : A)
  | Raise (e : exn).
Arguments Ok {A} a.
Arguments Raise {A} e.

Definition rbind {A B} (m : result A) (k : A → result B) : result B :=
  match m with
  | Ok a => k a
  | Raise e => Raise e
  end.

Notation "x ←! m ; k" := (rbind m (λ x, k))
  (at level 20, m at level 100, k at level 200, only parsing, right associativity).
Notation "' x ←! m ; k" := (rbind m (λ x, k))
  (at level 20, x pattern, m at level 100, k at level 200, only parsing,
   right associativity).

(** ** Cells, shapes and the occupancy grid *)

Abbreviation Cell := (Z * Z)%type.
Abbreviation Shape := (gset Cell).

(** Content of one grid slot: [None] (empty), [Some (-1)] (blocked marker)
    or [Some h] for a placed shape with hash [h]. *)
Abbreviation Slot := (option Z).
Abbreviation Grid := (list (list Slot)).

(** Python subscript on a list: indices in [[0, len)] are taken as they are,
    indices in [[-len, 0)] count from the end, anything else is an
    [IndexError]. *)
Definition py_norm_index (len : nat) (i : Z) : option nat :=
  if decide (0 ≤ i < Z.of_nat len) then Some (Z.to_nat i)
  else if decide (- Z.of_nat len ≤ i < 0) then Some (Z.to_nat (Z.of_nat len + i))
  else None.

(** [g[row][col]] *)
Definition grid_get (g : Grid) (row col : Z) : result Slot :=
  match py_norm_index (length g) row with
  | None => Raise IndexError
  | Some i =>
      match g !! i with
      | None => Raise IndexError
      | Some r =>
          match py_norm_index (length r) col with
          | None => Raise IndexError
          | Some j =>
              match r !! j with
              | None => Raise IndexError
              | Some v => Ok v
              end
          end
      end
  end.

(** [g[row][col] = v] *)
Definition grid_set (g : Grid) (row col : Z) (v : Slot) : result Grid :=
  match py_norm_index (length g) row with
  | None => Raise IndexError
  | Some i =>
      match g !! i with
      | None => Raise IndexError
      | Some r =>
          match py_norm_index (length r) col with
          | None => Raise IndexError
          | Some j => Ok (<[i := <[j := v]> r]> g)
          end
      end
  end.

(** ** [GameBoard] (src/models/board.py) *)

Record GameBoard : Type := mkBoard {
  width : Z;
  height : Z;
  cells : Grid;
  blocked_cells : gset Cell;
}.

Definition set_cells (b : GameBoard) (g : Grid) : GameBoard :=
  mkBoard (width b) (height b) g (blocked_cells b).

Definition in_bounds (b : GameBoard) (row col : Z) : bool :=
  bool_decide (0 ≤ row < height b ∧ 0 ≤ col < width b).

(** The loop of [__init__] over the blocked cells: the state is the grid
    and the set [_blocked_cells] built so far. *)
Fixpoint init_blocked (w h : Z) (todo : list Cell) (g : Grid) (bl : gset Cell)
  : result (Grid * gset Cell) :=
  match todo with
  | [] => Ok (g, bl)
  | cell :: todo' =>
      let '(row, col) := cell in
      if negb (bool_decide (0 ≤ row < h ∧ 0 ≤ col < w)) then
        Raise (ValueError (BlockedOutOfBounds cell))
      else
        g' ←! grid_set g row col (Some (-1));
        init_blocked w h todo' g' ({[cell]} ∪ bl)
  end.

(** [GameBoard.__init__(width, height, blocked_cells=None)] *)
Definition GameBoard_init (w h : Z) (blocked : option (gset Cell)) : result GameBoard :=
  if negb (bool_decide (1 ≤ w ≤ 50)) then Raise (ValueError WidthOutOfRange)
  else if negb (bool_decide (1 ≤ h ≤ 50)) then Raise (ValueError HeightOutOfRange)
  else
    let g0 : Grid := replicate (Z.to_nat h) (replicate (Z.to_nat w) None) in
    let todo := match blocked with
                | None => []
                | Some s => elements s   (* an empty set is falsy: no iteration *)
                end in
    '(g, bl) ←! init_blocked w h todo g0 ∅;
    Ok (mkBoard w h g bl).

Definition total_area (b : GameBoard) : Z := width b * height b.

Definition available_area (b : GameBoard) : Z :=
  width b * height b - Z.of_nat (size (blocked_cells b)).

Section Board.

(** Python's built-in [hash] on a [frozenset] of cells.  It is a function of
    the set alone. *)
Variable hash : Shape → Z.

(** The loop of [can_place_shape], over the shape's cells in iteration
    order. *)
Fixpoint can_place_cells (b : GameBoard) (position : Cell) (todo : list Cell)
  : result bool :=
  match todo with
  | [] => Ok true
  | (row_offset, col_offset) :: todo' =>
      let row := position.1 + row_offset in
      let col := position.2 + col_offset in
      if negb (in_bounds b row col) then Ok false
      else if bool_decide ((row, col) ∈ blocked_cells b) then Ok false
      else
        cell_content ←! grid_get (cells b) row col;
        match cell_content with
        | Some t => if bool_decide (t ≠ -1) then Ok false
                    else can_place_cells b position todo'
        | None => can_place_cells b position todo'
        end
  end.

Definition can_place_shape (b : GameBoard) (shape : Shape) (position : Cell)
  : result bool :=
  can_place_cells b position (elements shape).

(** [for (ro, co) in shape: g[pos.r + ro][pos.c + co] = v] *)
Fixpoint write_cells (g : Grid) (position : Cell) (v : Slot) (todo : list Cell)
  : result Grid :=
  match todo with
  | [] => Ok g
  | (row_offset, col_offset) :: todo' =>
      g' ←! grid_set g (position.1 + row_offset) (position.2 + col_offset) v;
      write_cells g' position v todo'
  end.

Definition place_shape (b : GameBoard) (shape : Shape) (position : Cell)
  : result GameBoard :=
  ok ←! can_place_shape b shape position;
  if negb ok then Raise (ValueError (CannotPlace position))
  else
    let shape_hash := hash shape in
    g ←! write_cells (cells b) position (Some shape_hash) (elements shape);
    Ok (set_cells b g).

(** The first loop of [remove_shape]: every cell must hold the shape's
    hash. *)
Fixpoint check_cells (g : Grid) (position : Cell) (shape_hash : Z) (todo : list Cell)
  : result unit :=
  match todo with
  | [] => Ok tt
  | (row_offset, col_offset) :: todo' =>
      v ←! grid_get g (position.1 + row_offset) (position.2 + col_offset);
      if bool_decide (v ≠ Some shape_hash) then
        Raise (ValueError (ShapeNotFound position))
      else check_cells g position shape_hash todo'
  end.

Definition remove_shape (b : GameBoard) (shape : Shape) (position : Cell)
  : result GameBoard :=
  let shape_hash := hash shape in
  _ ←! check_cells (cells b) position shape_hash (elements shape);
  g ←! write_cells (cells b) position None (elements shape);
  Ok (set_cells b g).

End Board.

(** [range(n)] *)
Definition range (n : Z) : list Z := seqZ 0 n.

(** [[(row, col) for row in range(h) for col in range(w)]] *)
Definition grid_positions (b : GameBoard) : list Cell :=
  row ← range (height b); col ← range (width b); [(row, col)].

(** Collects the positions of [todo] whose slot satisfies [keep]. *)
Fixpoint collect_cells (g : Grid) (keep : Slot → bool) (todo : list Cell)
  : result (gset Cell) :=
  match todo with
  | [] => Ok ∅
  | (row, col) :: todo' =>
      v ←! grid_get g row col;
      rest ←! collect_cells g keep todo';
      Ok (if keep v then {[(row, col)]} ∪ rest else rest)
  end.

Definition is_not_None (v : Slot) : bool := bool_decide (v ≠ None).
Definition is_None (v : Slot) : bool := bool_decide (v = None).

Definition get_occupied_cells (b : GameBoard) : result (gset Cell) :=
  collect_cells (cells b) is_not_None (grid_positions b).

Definition get_empty_cells (b : GameBoard) : result (gset Cell) :=
  collect_cells (cells b) is_None (grid_positions b).

Definition get_blocked_cells (b : GameBoard) : gset Cell := blocked_cells b.

Definition is_blocked (b : GameBoard) (position : Cell) : bool :=
  bool_decide (position ∈ blocked_cells b).

Definition get_piece_at (b : GameBoard) (position : Cell) : result Slot :=
  let '(row, col) := position in grid_get (cells b) row col.

(** The loop of [clear]: every slot that is not the blocked marker is
    reset to [None]. *)
Fixpoint clear_cells (g : Grid) (todo : list Cell) : result Grid :=
  match todo with
  | [] => Ok g
  | (row, col) :: todo' =>
      v ←! grid_get g row col;
      if bool_decide (v ≠ Some (-1)) then
        g' ←! grid_set g row col None;
        clear_cells g' todo'
      else clear_cells g todo'
  end.

Definition clear (b : GameBoard) : result GameBoard :=
  g ←! clear_cells (cells b) (grid_positions b);
  Ok (set_cells b g).

(** ** The area counters, [is_full], [is_empty], [copy] and [__eq__] *)

(** [sum(1 for row in self._cells for cell in row if cell is not None)] *)
Definition filled_area (b : GameBoard) : Z :=
  Z.of_nat (length (filter (λ v : Slot, is_not_None v = true) (concat (cells b)))).

(** [sum(1 for row in self._cells for cell in row if cell is None)] *)
Definition empty_area (b : GameBoard) : Z :=
  Z.of_nat (length (filter (λ v : Slot, is_None v = true) (concat (cells b)))).

(** [all(test(g[row][col]) for (row, col) in todo)]; [all] stops at the
    first cell that fails the test. *)
Fixpoint all_cells (g : Grid) (test : Slot → bool) (todo : list Cell) : result bool :=
  match todo with
  | [] => Ok true
  | (row, col) :: todo' =>
      v ←! grid_get g row col;
      if test v then all_cells g test todo' else Ok false
  end.

Definition is_full (b : GameBoard) : result bool :=
  all_cells (cells b) is_not_None (grid_positions b).

(** [all(cell is None or cell == -1 for row in self._cells for cell in row)] *)
Definition is_empty (b : GameBoard) : bool :=
  forallb (λ v : Slot, is_None v || bool_decide (v = Some (-1))) (concat (cells b)).

(** [copy]: a new board from the constructor, then the rows copied over. *)
Definition copy (b : GameBoard) : result GameBoard :=
  new_board ←! GameBoard_init (width b) (height b) (Some (blocked_cells b));
  Ok (set_cells new_board (cells b)).

(** The generator inside [__eq__]: the cells of both boards compared over
    the positions of the first one. *)
Fixpoint same_cells (g1 g2 : Grid) (todo : list Cell) : result bool :=
  match todo with
  | [] => Ok true
  | (row, col) :: todo' =>
      v1 ←! grid_get g1 row col;
      v2 ←! grid_get g2 row col;
      if bool_decide (v1 = v2) then same_cells g1 g2 todo' else Ok false
  end.

(** [__eq__] on two boards: the conjuncts are evaluated from left to
    right, the later ones only when the earlier ones hold. *)
Definition board_eq (b other : GameBoard) : result bool :=
  if negb (bool_decide (width b = width other)) then Ok false
  else if negb (bool_decide (height b = height other)) then Ok false
  else
    same ←! same_cells (cells b) (cells other) (grid_positions b);
    if negb same then Ok false
    else Ok (bool_decide (blocked_cells b = blocked_cells other)).

(** * [PuzzlePiece] *)

(** Modelled from the spec: [src/models/piece.py] (class [PuzzlePiece] and
    its canonicaliser) is missing; section 4.1 lists the 8 transforms: the
    four sign changes, and the same four after swapping row and column. *)
Inductive Symmetry : Type :=
  | Keep | NegRow | NegCol | NegBoth
  | Swap | SwapNegRow | SwapNegCol | SwapNegBoth.

Definition all_symmetries : list Symmetry :=
  [Keep; NegRow; NegCol; NegBoth; Swap; SwapNegRow; SwapNegCol; SwapNegBoth].

(** Modelled from the spec: what each of the 8 transforms of section 4.1
    does to a cell [(r, c)] ([piece.py] is missing). *)
Definition transform (t : Symmetry) (cell : Cell) : Cell :=
  let '(r, c) := cell in
  match t with
  | Keep => (r, c)
  | NegRow => (- r, c)
  | NegCol => (r, - c)
  | NegBoth => (- r, - c)
  | Swap => (c, r)
  | SwapNegRow => (- c, r)
  | SwapNegCol => (c, - r)
  | SwapNegBoth => (- c, - r)
  end.

(** Minimum of a list of integers ([0] for the empty list, which never
    arises for a non-empty shape). *)
Definition min_of (l : list Z) : Z :=
  match l with
  | [] => 0
  | x :: l' => foldr Z.min x l'
  end.

Definition min_row (s : Shape) : Z := min_of ((elements s).*1).
Definition min_col (s : Shape) : Z := min_of ((elements s).*2).

Definition translate (d : Cell) (s : Shape) : Shape :=
  set_map (λ cell : Cell, (cell.1 + d.1, cell.2 + d.2)) s.

(** Modelled from the spec: section 4.1, "translate the result so min row
    = 0 and min col = 0" ([piece.py] is missing). *)
Definition normalize (s : Shape) : Shape :=
  translate (- min_row s, - min_col s) s.

Definition orientation_of (t : Symmetry) (s : Shape) : Shape :=
  normalize (set_map (transform t) s).

(** Modelled from the spec: section 4.1, "collect the distinct resulting
    Shapes into a set (this is the orientation set)" ([piece.py] is
    missing). *)
Definition orientation_set (s : Shape) : gset Shape :=
  list_to_set ((λ t, orientation_of t s) <$> all_symmetries).

(** Order on cells: by row, then by column (Python's order on tuples). *)
Definition cell_leb (a b : Cell) : bool :=
  (a.1 <? b.1) || ((a.1 =? b.1) && (a.2 <=? b.2)).

Definition cell_le (a b : Cell) : Prop := cell_leb a b = true.

Global Instance cell_le_dec a b : Decision (cell_le a b).
Proof. unfold cell_le. apply _. Defined.

(** The sorted sequence of the cells of a shape. *)
Definition sorted_cells (s : Shape) : list Cell := merge_sort cell_le (elements s).

(** Lexicographic order on sequences of cells. *)
Fixpoint cells_leb (l1 l2 : list Cell) : bool :=
  match l1, l2 with
  | [], _ => true
  | _ :: _, [] => false
  | a :: l1', b :: l2' =>
      if bool_decide (a = b) then cells_leb l1' l2' else cell_leb a b
  end.

Definition shape_leb (s1 s2 : Shape) : bool :=
  cells_leb (sorted_cells s1) (sorted_cells s2).

Definition shape_min (s1 s2 : Shape) : Shape :=
  if shape_leb s1 s2 then s1 else s2.

(** Modelled from the spec: section 4.1, the canonical representative is
    "the lexicographically smallest Shape among the orientations, comparing
    by the sorted sequence of (row, col) pairs" ([piece.py] is missing). *)
Definition smallest_shape (os : gset Shape) : Shape :=
  match elements os with
  | [] => ∅
  | o :: l => foldr shape_min o l
  end.

(** Modelled from the spec: the contract of section 4.1,
    [canonicalize(offsets) -> (canonical, orientations)] ([piece.py] is
    missing). *)
Definition canonicalize (offsets : Shape) : Shape * gset Shape :=
  let os := orientation_set offsets in (smallest_shape os, os).

(** Modelled from the spec: section 4.2, a piece owns its canonical shape
    and its orientation set, both computed once at construction (the class
    [PuzzlePiece] of [piece.py] is missing). *)
Record PuzzlePiece : Type := mkPiece {
  canonical_shape : Shape;
  orientations : list Shape;    (* the orientation set, in iteration order *)
}.

(** The piece of a non-empty set of cells. *)
Definition build_piece (shape : Shape) : PuzzlePiece :=
  let '(canonical, os) := canonicalize shape in
  mkPiece canonical (elements os).

(** Modelled from the spec: section 4.2, a piece is constructed from a
    non-empty set of cells; the empty set is rejected ([piece.py] is
    missing). *)
Definition PuzzlePiece_init (shape : Shape) : result PuzzlePiece :=
  if bool_decide (shape = ∅) then Raise (ValueError EmptyShape)
  else Ok (build_piece shape).

(** Modelled from the spec: section 4.2, [area] is the cell count. *)
Definition area (p : PuzzlePiece) : Z := Z.of_nat (size (canonical_shape p)).

(** Modelled from the spec: section 4.2, equality and hash of pieces
    delegate to the canonical shape ([piece.py] is missing). *)
Definition piece_eqb (p q : PuzzlePiece) : bool :=
  bool_decide (canonical_shape p = canonical_shape q).

Definition piece_hash (hash : Shape → Z) (p : PuzzlePiece) : Z :=
  hash (canonical_shape p).

(** * Python dictionaries keyed by pieces *)

(** A [dict[PuzzlePiece, int]]: the entries in insertion order.  Keys are
    compared with [piece_eqb]; in a dictionary no two keys are equal. *)
Abbreviation Dict := (list (PuzzlePiece * Z)).

Definition dict_lookup (d : Dict) (p : PuzzlePiece) : option Z :=
  snd <$> find (λ kv, piece_eqb kv.1 p) d.

(** [d.get(p, dflt)] *)
Definition dict_get (d : Dict) (p : PuzzlePiece) (dflt : Z) : Z :=
  default dflt (dict_lookup d p).

(** [d[p]] *)
Definition dict_getitem (d : Dict) (p : PuzzlePiece) : result Z :=
  match dict_lookup d p with
  | Some v => Ok v
  | None => Raise KeyError
  end.

(** [d[p] = v]: an existing entry keeps its key and its place, a new entry
    goes to the end. *)
Fixpoint dict_setitem (d : Dict) (p : PuzzlePiece) (v : Z) : Dict :=
  match d with
  | [] => [(p, v)]
  | (k, x) :: d' =>
      if piece_eqb k p then (k, v) :: d' else (k, x) :: dict_setitem d' p v
  end.

(** [del d[p]] *)
Fixpoint dict_delitem (d : Dict) (p : PuzzlePiece) : result Dict :=
  match d with
  | [] => Raise KeyError
  | (k, x) :: d' =>
      if piece_eqb k p then Ok d'
      else d'' ←! dict_delitem d' p; Ok ((k, x) :: d'')
  end.

Definition dict_keys (d : Dict) : list PuzzlePiece := d.*1.
Definition dict_values (d : Dict) : list Z := d.*2.

(** [sum(d.values())] *)
Definition dict_sum (d : Dict) : Z := foldr Z.add 0 (dict_values d).

(** [sorted(l, key=key, reverse=True)]: Python's sort is stable, also with
    [reverse=True]: elements with equal keys keep their original order. *)
Fixpoint insert_desc {A} (key : A → Z) (x : A) (l : list A) : list A :=
  match l with
  | [] => [x]
  | y :: l' => if key x <? key y then y :: insert_desc key x l' else x :: y :: l'
  end.

Definition sorted_desc {A} (key : A → Z) (l : list A) : list A :=
  foldr (insert_desc key) [] l.

(** * The backtracking solver (src/logic/solver.py) *)

Inductive EventType : Type := place | remove | solved | no_solution.

Global Instance EventType_eq_dec : EqDecision EventType.
Proof. solve_decision. Defined.

Abbreviation Placement := (Shape * Cell * PuzzlePiece)%type.

(** The single mutable state of one run of the generator. *)
Record SolverState : Type := mkState {
  board : GameBoard;
  placed : list Placement;
  remaining : Dict;
  step_counter : Z;
}.

(** A yielded dictionary.  [board_snapshot], [placed_pieces] and
    [remaining_pieces] are references to the live objects of the solver;
    the record holds what these objects contain when the generator is
    suspended at that [yield], which is what the consumer reads before it
    resumes the generator. *)
Record Event : Type := mkEvent {
  type : EventType;
  board_snapshot : GameBoard;
  placed_pieces : list Placement;
  remaining_pieces : Dict;
  step_count : Z;
}.

Definition yield (ty : EventType) (st : SolverState) : Event :=
  mkEvent ty (board st) (placed st) (remaining st) (step_counter st).

(** [min(orientation, key=lambda c: (c[0], c[1]))] *)
Definition min_cell (orientation : Shape) : result Cell :=
  match elements orientation with
  | [] => Raise (ValueError MinEmptySequence)
  | c :: l => Ok (foldr (λ a b, if cell_leb a b then a else b) c l)
  end.

(** [placed.pop()] *)
Definition list_pop {A} (l : list A) : result (A * list A) :=
  match reverse l with
  | [] => Raise IndexError
  | x :: l' => Ok (x, reverse l')
  end.

Fixpoint find_empty_in (b : GameBoard) (todo : list Cell) : result (option Cell) :=
  match todo with
  | [] => Ok None
  | cell :: todo' =>
      v ←! get_piece_at b cell;
      if is_None v then Ok (Some cell) else find_empty_in b todo'
  end.

(** First empty cell, rows top to bottom, columns left to right. *)
Definition find_next_empty (b : GameBoard) : result (option Cell) :=
  find_empty_in b (grid_positions b).

(** What a call of the generator [backtrack] amounts to: the events it
    yields, the value it returns and the state it leaves. *)
Abbreviation Run := (list Event * bool * SolverState)%type.

Section Solver.

Variable hash : Shape → Z.

(** The loop over the orientations of [piece]; [count] was read before the
    loop.  [rec] is the recursive call of [backtrack]. *)
Fixpoint try_orientations (rec : SolverState → result Run) (cell : Cell)
    (piece : PuzzlePiece) (count : Z) (todo : list Shape) (st : SolverState)
  : result Run :=
  match todo with
  | [] => Ok ([], false, st)
  | orientation :: todo' =>
      top_left_cell ←! min_cell orientation;
      let origin := (cell.1 - top_left_cell.1, cell.2 - top_left_cell.2) in
      can ←! can_place_shape (board st) orientation origin;
      if can then
        b1 ←! place_shape hash (board st) orientation origin;
        let placed1 := placed st ++ [(orientation, origin, piece)] in
        let rem1 := dict_setitem (remaining st) piece (count - 1) in
        v ←! dict_getitem rem1 piece;
        rem2 ←! (if v =? 0 then dict_delitem rem1 piece else Ok rem1);
        let st1 := mkState b1 placed1 rem2 (step_counter st + 1) in
        let ev1 := yield place st1 in
        '(evs, found, st2) ←! rec st1;
        if found then Ok (ev1 :: evs, true, st2)
        else
          '(last, placed3) ←! list_pop (placed st2);
          let '(shape, pos, p) := last in
          b3 ←! remove_shape hash (board st2) shape pos;
          let rem3 := dict_setitem (remaining st2) p (dict_get (remaining st2) p 0 + 1) in
          let st3 := mkState b3 placed3 rem3 (step_counter st2 + 1) in
          let ev3 := yield remove st3 in
          '(evs', found', st4) ←! try_orientations rec cell piece count todo' st3;
          Ok (ev1 :: evs ++ ev3 :: evs', found', st4)
      else try_orientations rec cell piece count todo' st
  end.

(** The loop over the piece types. *)
Fixpoint try_pieces (rec : SolverState → result Run) (cell : Cell)
    (todo : list PuzzlePiece) (st : SolverState) : result Run :=
  match todo with
  | [] => Ok ([], false, st)
  | piece :: todo' =>
      let count := dict_get (remaining st) piece 0 in
      if count <=? 0 then try_pieces rec cell todo' st
      else
        '(evs, found, st1) ←! try_orientations rec cell piece count (orientations piece) st;
        if found then Ok (evs, true, st1)
        else
          '(evs', found', st2) ←! try_pieces rec cell todo' st1;
          Ok (evs ++ evs', found', st2)
  end.

(** The nested generator [backtrack].  Every [yield from backtrack()]
    (solver.py 125) nests one more generator frame, and nothing in the
    sources changes the recursion limit of the interpreter: [fuel] is the
    number of nested frames of [backtrack] that the limit still leaves room
    for.  A frame for which there is no room raises [RecursionError] before
    it yields or changes anything (its first statement is the call of
    [find_next_empty], which runs deeper than any other call it makes). *)
Fixpoint backtrack (piece_types : list PuzzlePiece) (fuel : nat) (st : SolverState)
  : result Run :=
  match fuel with
  | O => Raise RecursionError
  | S fuel' =>
      cell ←! find_next_empty (board st);
      match cell with
      | None =>
          if bool_decide (remaining st = []) then
            let st1 := mkState (board st) (placed st) (remaining st) (step_counter st + 1) in
            Ok ([yield solved st1], true, st1)
          else Ok ([], false, st)
      | Some cell => try_pieces (backtrack piece_types fuel') cell piece_types st
      end
  end.

(** Number of pieces that can still be placed: every recursive call of
    [backtrack] is made with one piece less.  An entry with a count that is
    not positive offers no piece. *)
Definition copies (count : Z) : Z := Z.max 0 count.

Definition pieces_left (d : Dict) : nat :=
  Z.to_nat (foldr Z.add 0 (copies <$> dict_values d)).

(** The events yielded by [solve_backtracking(pieces, board)], in order,
    when the recursion limit of the interpreter leaves room for [depth]
    nested frames of [backtrack]; [Raise RecursionError] when the generator
    ends with that exception instead of a last event. *)
Definition solve_backtracking_within (depth : nat) (pieces : Dict) (b : GameBoard)
  : result (list Event) :=
  let st0 := mkState b [] pieces 0 in     (* [remaining = pieces.copy()] *)
  let piece_types := sorted_desc area (dict_keys (remaining st0)) in
  if bool_decide (remaining st0 = []) then Ok [yield solved st0]
  else
    '(evs, found, st) ←! backtrack piece_types depth st0;
    if found then Ok evs
    else Ok (evs ++ [yield no_solution st]).

(** The events of a run that the recursion limit does not cut short: with
    room for one frame per piece and one more, which is as deep as the
    search can get (see [solve_backtracking_within_enough]). *)
Definition solve_backtracking (pieces : Dict) (b : GameBoard) : result (list Event) :=
  solve_backtracking_within (S (pieces_left pieces)) pieces b.

End Solver.

(** * Properties of the grid primitives *)

(** [slot_at g i j] is the content of row [i], column [j] (both already
    normalised), [None] outside of the grid. *)
Definition slot_at (g : Grid) (i j : nat) : Slot :=
  default None (g !! i ≫= (.!! j)).

(** The grid has [h] rows of [w] columns each. *)
Definition grid_dims (g : Grid) (h w : nat) : Prop :=
  length g = h ∧ Forall (λ r, length r = w) g.

(** Normalised position of [(row, col)] in an [h] by [w] grid. *)
Definition norm_pos (h w : nat) (row col : Z) : option (nat * nat) :=
  match py_norm_index h row, py_norm_index w col with
  | Some i, Some j => Some (i, j)
  | _, _ => None
  end.

Lemma py_norm_index_lt len i n : py_norm_index len i = Some n → (n < len)%nat.
Proof.
  unfold py_norm_index. repeat case_decide; intros; simplify_eq; lia.
Qed.

Lemma py_norm_index_in len i :
  0 ≤ i < Z.of_nat len → py_norm_index len i = Some (Z.to_nat i).
Proof. intros. unfold py_norm_index. by rewrite decide_True. Qed.

Lemma norm_pos_lt h w row col i j :
  norm_pos h w row col = Some (i, j) → (i < h)%nat ∧ (j < w)%nat.
Proof.
  unfold norm_pos.
  destruct (py_norm_index h row) eqn:E1, (py_norm_index w col) eqn:E2;
    intros; simplify_eq.
  eauto using py_norm_index_lt.
Qed.

Lemma norm_pos_in h w row col :
  0 ≤ row < Z.of_nat h → 0 ≤ col < Z.of_nat w →
  norm_pos h w row col = Some (Z.to_nat row, Z.to_nat col).
Proof. intros. unfold norm_pos. by rewrite !py_norm_index_in. Qed.

Lemma grid_dims_row g h w i r : grid_dims g h w → g !! i = Some r → length r = w.
Proof.
  intros [_ Hall] Hi. rewrite Forall_forall in Hall.
  apply Hall. by eapply list_elem_of_lookup_2.
Qed.

Lemma grid_dims_lookup g h w i :
  grid_dims g h w → (i < h)%nat → ∃ r, g !! i = Some r ∧ length r = w.
Proof.
  intros Hd Hi. destruct (lookup_lt_is_Some_2 g i) as [r Hr].
  { destruct Hd. lia. }
  exists r. eauto using grid_dims_row.
Qed.

Lemma grid_get_dims g h w row col :
  grid_dims g h w →
  grid_get g row col =
    match norm_pos h w row col with
    | Some (i, j) => Ok (slot_at g i j)
    | None => Raise IndexError
    end.
Proof.
  intros Hd. unfold grid_get, norm_pos. pose proof Hd as [Hlen Hall].
  rewrite Hlen. destruct (py_norm_index h row) as [i|] eqn:Ei; [|done].
  destruct (grid_dims_lookup g h w i) as (r & Hr & Hrl);
    [done | by eapply py_norm_index_lt |].
  rewrite Hr, Hrl. destruct (py_norm_index w col) as [j|] eqn:Ej; [|done].
  destruct (lookup_lt_is_Some_2 r j) as [v Hv].
  { apply py_norm_index_lt in Ej. lia. }
  unfold slot_at. rewrite Hr. simpl. by rewrite Hv.
Qed.

Lemma slot_at_insert g i j r v i' j' :
  g !! i = Some r → (j < length r)%nat →
  slot_at (<[i := <[j := v]> r]> g) i' j' =
    if decide (i = i' ∧ j = j') then v else slot_at g i' j'.
Proof.
  intros Hr Hj. unfold slot_at.
  assert (i < length g)%nat by (by eapply lookup_lt_Some).
  destruct (decide (i = i')) as [<-|Hne].
  - rewrite list_lookup_insert_eq by done. simpl. rewrite Hr. simpl.
    destruct (decide (j = j')) as [<-|Hne'].
    + rewrite list_lookup_insert_eq by done. by rewrite decide_True.
    + rewrite list_lookup_insert_ne by done. by rewrite decide_False by tauto.
  - rewrite list_lookup_insert_ne by done. by rewrite decide_False by tauto.
Qed.

Lemma grid_dims_insert g h w i j r v :
  grid_dims g h w → g !! i = Some r → grid_dims (<[i := <[j := v]> r]> g) h w.
Proof.
  intros [Hlen Hall] Hr. split.
  - by rewrite length_insert.
  - apply Forall_insert; [done|]. rewrite length_insert.
    eapply grid_dims_row; [by split | done].
Qed.

Lemma grid_set_dims g h w row col v :
  grid_dims g h w →
  match norm_pos h w row col with
  | Some (i, j) =>
      ∃ g', grid_set g row col v = Ok g' ∧ grid_dims g' h w ∧
            ∀ i' j', slot_at g' i' j' =
                     if decide (i = i' ∧ j = j') then v else slot_at g i' j'
  | None => grid_set g row col v = Raise IndexError
  end.
Proof.
  intros Hd. unfold grid_set, norm_pos. pose proof Hd as [Hlen Hall].
  rewrite Hlen. destruct (py_norm_index h row) as [i|] eqn:Ei; [|done].
  destruct (grid_dims_lookup g h w i) as (r & Hr & Hrl);
    [done | by eapply py_norm_index_lt |].
  rewrite Hr, Hrl. destruct (py_norm_index w col) as [j|] eqn:Ej; [|done].
  eexists; split; [done|]. split; [by apply grid_dims_insert|].
  intros. apply slot_at_insert; [done|]. apply py_norm_index_lt in Ej. lia.
Qed.

Lemma grid_ext g1 g2 h w :
  grid_dims g1 h w → grid_dims g2 h w →
  (∀ i j, (i < h)%nat → (j < w)%nat → slot_at g1 i j = slot_at g2 i j) →
  g1 = g2.
Proof.
  intros Hd1 Hd2 Hs. apply list_eq. intros i.
  destruct (decide (i < h)%nat) as [Hi|Hi].
  - destruct (grid_dims_lookup g1 h w i) as (r1 & Hr1 & Hl1); [done..|].
    destruct (grid_dims_lookup g2 h w i) as (r2 & Hr2 & Hl2); [done..|].
    rewrite Hr1, Hr2. f_equal. apply list_eq. intros j.
    destruct (decide (j < w)%nat) as [Hj|Hj].
    + specialize (Hs i j Hi Hj). unfold slot_at in Hs.
      rewrite Hr1, Hr2 in Hs. simpl in Hs.
      destruct (lookup_lt_is_Some_2 r1 j) as [v1 Hv1]; [lia|].
      destruct (lookup_lt_is_Some_2 r2 j) as [v2 Hv2]; [lia|].
      rewrite Hv1, Hv2 in *. simpl in Hs. by subst.
    + rewrite !lookup_ge_None_2; [done | lia | lia].
  - destruct Hd1, Hd2. rewrite !lookup_ge_None_2; [done | lia | lia].
Qed.

(** Which normalised slots a loop over [todo] at offset [position] touches. *)
Definition hits (h w : nat) (position : Cell) (todo : list Cell) (i j : nat) : Prop :=
  Exists (λ cell : Cell,
            norm_pos h w (position.1 + cell.1) (position.2 + cell.2) = Some (i, j))
         todo.

Lemma hits_iff h w position todo i j :
  hits h w position todo i j ↔
  ∃ cell, cell ∈ todo ∧
          norm_pos h w (position.1 + cell.1) (position.2 + cell.2) = Some (i, j).
Proof. unfold hits. by rewrite Exists_exists. Qed.

Lemma write_cells_ok g h w position v todo :
  grid_dims g h w →
  (∀ cell, cell ∈ todo →
     is_Some (norm_pos h w (position.1 + cell.1) (position.2 + cell.2))) →
  ∃ g', write_cells g position v todo = Ok g' ∧ grid_dims g' h w ∧
        (∀ i j, hits h w position todo i j → slot_at g' i j = v) ∧
        (∀ i j, ¬ hits h w position todo i j → slot_at g' i j = slot_at g i j).
Proof.
  revert g. induction todo as [|[ro co] todo IH]; intros g Hd Hin; simpl.
  - exists g. split_and!; [done..| |done].
    intros i j Hh. by apply Exists_nil in Hh.
  - pose proof (grid_set_dims g h w (position.1 + ro) (position.2 + co) v Hd) as Hset.
    destruct (Hin (ro, co)) as [[i0 j0] Hn]; [by left|]. simpl in Hn.
    rewrite Hn in Hset. destruct Hset as (g1 & -> & Hd1 & Hs1). simpl.
    destruct (IH g1 Hd1) as (g' & Hw & Hd' & Hhit & Hmiss).
    { intros cell Hc. apply Hin. by right. }
    exists g'. split_and!; [done..| |].
    + intros i j Hh.
      destruct (decide (hits h w position todo i j)) as [Hh'|Hh']; [by apply Hhit|].
      rewrite Hmiss by done. rewrite Hs1.
      apply Exists_cons in Hh as [Hcn|Hh]; [|done].
      simpl in Hcn. rewrite Hn in Hcn. simplify_eq. by rewrite decide_True.
    + intros i j Hh. rewrite Hmiss.
      * rewrite Hs1. rewrite decide_False; [done|]. intros [-> ->].
        apply Hh. by left.
      * intros Hh'. apply Hh. by right.
Qed.

(** * The representation invariant of [GameBoard] *)

Record board_wf (b : GameBoard) : Prop := {
  wf_width : 1 ≤ width b ≤ 50;
  wf_height : 1 ≤ height b ≤ 50;
  wf_dims : grid_dims (cells b) (Z.to_nat (height b)) (Z.to_nat (width b));
  wf_blocked_in : ∀ row col, (row, col) ∈ blocked_cells b →
                             0 ≤ row < height b ∧ 0 ≤ col < width b;
  wf_marker : ∀ i j, (i < Z.to_nat (height b))%nat → (j < Z.to_nat (width b))%nat →
                     slot_at (cells b) i j = Some (-1) ↔
                     (Z.of_nat i, Z.of_nat j) ∈ blocked_cells b;
}.

(** Content of the in-bounds cell [(row, col)]. *)
Definition content (b : GameBoard) (row col : Z) : Slot :=
  slot_at (cells b) (Z.to_nat row) (Z.to_nat col).

Lemma norm_pos_board b row col :
  0 ≤ row < height b → 0 ≤ col < width b →
  norm_pos (Z.to_nat (height b)) (Z.to_nat (width b)) row col
  = Some (Z.to_nat row, Z.to_nat col).
Proof. intros. apply norm_pos_in; lia. Qed.

Lemma grid_get_board b row col :
  grid_dims (cells b) (Z.to_nat (height b)) (Z.to_nat (width b)) →
  0 ≤ row < height b → 0 ≤ col < width b →
  grid_get (cells b) row col = Ok (content b row col).
Proof.
  intros Hd Hr Hc. rewrite (grid_get_dims _ _ _ _ _ Hd).
  by rewrite norm_pos_board.
Qed.

Lemma wf_marker_Z b row col :
  board_wf b → 0 ≤ row < height b → 0 ≤ col < width b →
  content b row col = Some (-1) ↔ (row, col) ∈ blocked_cells b.
Proof.
  intros Hwf Hr Hc. unfold content.
  rewrite (wf_marker b Hwf) by lia. by rewrite !Z2Nat.id by lia.
Qed.

(** What [can_place_shape] tests of one translated cell. *)
Definition placeable (b : GameBoard) (row col : Z) : Prop :=
  (0 ≤ row < height b ∧ 0 ≤ col < width b) ∧
  ((row, col) ∉ blocked_cells b) ∧
  (content b row col = None ∨ content b row col = Some (-1)).

Lemma can_place_cells_spec b position todo :
  grid_dims (cells b) (Z.to_nat (height b)) (Z.to_nat (width b)) →
  ∃ r, can_place_cells b position todo = Ok r ∧
       (r = true ↔ ∀ cell, cell ∈ todo →
                     placeable b (position.1 + cell.1) (position.2 + cell.2)).
Proof.
  intros Hd. induction todo as [|[ro co] todo (r & IH & IHr)]; simpl.
  - exists true. split; [done|]. split; [|done]. intros _ cell Hc.
    by apply elem_of_nil in Hc.
  - unfold in_bounds. case_bool_decide as Hb; simpl.
    2:{ exists false. split; [done|]. split; [done|]. intros Hall.
        destruct (Hall (ro, co)) as [? _]; [by left | done]. }
    case_bool_decide as Hbl.
    { exists false. split; [done|]. split; [done|]. intros Hall.
      destruct (Hall (ro, co)) as (_ & ? & _); [by left | done]. }
    destruct Hb as [Hb1 Hb2]. rewrite grid_get_board by done. simpl.
    destruct (content b (position.1 + ro) (position.2 + co)) as [t|] eqn:Ec.
    + case_bool_decide as Ht.
      * exists false. split; [done|]. split; [done|]. intros Hall.
        destruct (Hall (ro, co)) as (_ & _ & [?|?]); [by left | simpl in *..];
          congruence.
      * exists r. split; [done|]. rewrite IHr. split.
        -- intros Hall cell [->|Hc]%elem_of_cons; [|by apply Hall].
           unfold placeable. simpl. split_and!; try done; try lia.
           right. rewrite Ec. f_equal.
           destruct (decide (t = -1)); [done | by destruct Ht].
        -- intros Hall cell Hc. apply Hall. by right.
    + exists r. split; [done|]. rewrite IHr. split.
      * intros Hall cell [->|Hc]%elem_of_cons; [|by apply Hall].
        unfold placeable. simpl. split_and!; try done; try lia. by left.
      * intros Hall cell Hc. apply Hall. by right.
Qed.

Lemma check_cells_spec g h w position shape_hash todo :
  grid_dims g h w →
  check_cells g position shape_hash todo = Ok tt ↔
  (∀ cell, cell ∈ todo →
     ∃ i j, norm_pos h w (position.1 + cell.1) (position.2 + cell.2) = Some (i, j) ∧
            slot_at g i j = Some shape_hash).
Proof.
  intros Hd. induction todo as [|[ro co] todo IH]; simpl.
  - split; [|done]. intros _ cell Hc. by apply elem_of_nil in Hc.
  - rewrite (grid_get_dims _ _ _ _ _ Hd).
    destruct (norm_pos h w (position.1 + ro) (position.2 + co)) as [[i j]|] eqn:En;
      simpl.
    + case_bool_decide as Hv.
      * split; [done|]. intros Hall.
        destruct (Hall (ro, co)) as (i' & j' & Hn & Hs); [by left|].
        simpl in Hn. rewrite En in Hn. by simplify_eq.
      * rewrite IH. split.
        -- intros Hall cell [->|Hc]%elem_of_cons; [|by apply Hall].
           exists i, j. split; [done|].
           destruct (decide (slot_at g i j = Some shape_hash)); [done | by destruct Hv].
        -- intros Hall cell Hc. apply Hall. by right.
    + split; [done|]. intros Hall.
      destruct (Hall (ro, co)) as (i' & j' & Hn & Hs); [by left|].
      simpl in Hn. by rewrite En in Hn.
Qed.

Lemma check_cells_result g position shape_hash todo r :
  check_cells g position shape_hash todo = Ok r → r = tt.
Proof. by destruct r. Qed.

Lemma hits_in_bounds b position todo i j :
  (∀ cell, cell ∈ todo →
     0 ≤ position.1 + cell.1 < height b ∧ 0 ≤ position.2 + cell.2 < width b) →
  hits (Z.to_nat (height b)) (Z.to_nat (width b)) position todo i j ↔
  ∃ cell, cell ∈ todo ∧ position.1 + cell.1 = Z.of_nat i ∧
          position.2 + cell.2 = Z.of_nat j.
Proof.
  intros Hin. rewrite hits_iff. split.
  - intros (cell & Hc & Hn). exists cell. split; [done|].
    destruct (Hin cell Hc) as [? ?]. rewrite norm_pos_board in Hn by done.
    simplify_eq. lia.
  - intros (cell & Hc & Hi & Hj). exists cell. split; [done|].
    destruct (Hin cell Hc) as [? ?]. rewrite norm_pos_board by done.
    f_equal. f_equal; lia.
Qed.

Lemma clear_cells_spec g h w todo :
  grid_dims g h w →
  (∀ cell : Cell, cell ∈ todo → is_Some (norm_pos h w cell.1 cell.2)) →
  ∃ g', clear_cells g todo = Ok g' ∧ grid_dims g' h w ∧
        ∀ i j, slot_at g' i j = slot_at g i j ∨
               (slot_at g i j ≠ Some (-1) ∧ slot_at g' i j = None).
Proof.
  revert g. induction todo as [|[row col] todo IH]; intros g Hd Hin; simpl.
  - exists g. split_and!; [done..|]. intros. by left.
  - destruct (Hin (row, col)) as [[i0 j0] Hn]; [by left|]. simpl in Hn.
    rewrite (grid_get_dims _ _ _ _ _ Hd), Hn. simpl.
    assert (∀ cell : Cell, cell ∈ todo → is_Some (norm_pos h w cell.1 cell.2)) as Hin'.
    { intros cell Hc. apply Hin. by right. }
    case_bool_decide as Hv.
    + pose proof (grid_set_dims g h w row col None Hd) as Hset.
      rewrite Hn in Hset. destruct Hset as (g1 & -> & Hd1 & Hs1). simpl.
      destruct (IH g1 Hd1 Hin') as (g' & Hw & Hd' & Hs').
      exists g'. split_and!; [done..|]. intros i j.
      specialize (Hs' i j). rewrite Hs1 in Hs'. case_decide as Hij.
      * destruct Hij as [<- <-]. right. split; [done|]. by destruct Hs' as [?|[_ ?]].
      * done.
    + by apply IH.
Qed.

Lemma elem_of_grid_positions b row col :
  (row, col) ∈ grid_positions b ↔ 0 ≤ row < height b ∧ 0 ≤ col < width b.
Proof.
  unfold grid_positions, range. rewrite list_elem_of_bind. split.
  - intros (r & Hc & Hr). apply list_elem_of_bind in Hc as (c & Hrc & Hc).
    apply list_elem_of_singleton in Hrc. simplify_eq.
    apply elem_of_seqZ in Hr, Hc. lia.
  - intros [Hr Hc]. exists row. split; [|apply elem_of_seqZ; lia].
    apply list_elem_of_bind. exists col. split; [by left | apply elem_of_seqZ; lia].
Qed.

Lemma grid_positions_norm b (cell : Cell) :
  cell ∈ grid_positions b →
  norm_pos (Z.to_nat (height b)) (Z.to_nat (width b)) cell.1 cell.2
  = Some (Z.to_nat cell.1, Z.to_nat cell.2).
Proof.
  destruct cell as [row col]. intros [? ?]%elem_of_grid_positions.
  by apply norm_pos_board.
Qed.

Lemma slot_at_replicate h w i j :
  slot_at (replicate h (replicate w None)) i j = None.
Proof.
  unfold slot_at. destruct (replicate h _ !! i) as [r|] eqn:E; [|done].
  apply lookup_replicate in E as [-> _]. simpl.
  destruct (replicate w _ !! j) as [v|] eqn:E; [|done].
  by apply lookup_replicate in E as [-> _].
Qed.

Lemma grid_dims_replicate h w (v : Slot) :
  grid_dims (replicate h (replicate w v)) h w.
Proof.
  split; [by rewrite length_replicate|].
  apply Forall_replicate. by rewrite length_replicate.
Qed.

Definition cell_in_range (w h : Z) (cell : Cell) : Prop :=
  0 ≤ cell.1 < h ∧ 0 ≤ cell.2 < w.

Lemma init_blocked_ok w h todo g bl :
  grid_dims g (Z.to_nat h) (Z.to_nat w) →
  Forall (cell_in_range w h) todo →
  ∃ g', init_blocked w h todo g bl = Ok (g', list_to_set todo ∪ bl) ∧
        grid_dims g' (Z.to_nat h) (Z.to_nat w) ∧
        ∀ i j, slot_at g' i j =
               if decide ((Z.of_nat i, Z.of_nat j) ∈ todo) then Some (-1)
               else slot_at g i j.
Proof.
  revert g bl. induction todo as [|[row col] todo IH]; intros g bl Hd Hall;
    cbn [init_blocked].
  - exists g. split_and!; [f_equal; f_equal; set_solver | done |].
    intros i j. rewrite decide_False; [done | apply not_elem_of_nil].
  - apply Forall_cons in Hall as [[Hr Hc] Hall]. simpl in Hr, Hc.
    rewrite bool_decide_true by done. cbn [negb].
    pose proof (grid_set_dims g _ _ row col (Some (-1)) Hd) as Hset.
    rewrite norm_pos_in in Hset by lia. destruct Hset as (g1 & -> & Hd1 & Hs1).
    cbn [rbind]. destruct (IH g1 ({[(row, col)]} ∪ bl) Hd1 Hall) as (g' & -> & Hd' & Hs').
    exists g'. split_and!; [f_equal; f_equal; set_solver | done |].
    intros i j. rewrite Hs', Hs1.
    destruct (decide ((Z.of_nat i, Z.of_nat j) ∈ todo)) as [Hin|Hin].
    + rewrite decide_True; [done | by right].
    + destruct (decide (Z.to_nat row = i ∧ Z.to_nat col = j)) as [[<- <-]|Hne].
      * rewrite decide_True; [done|]. rewrite !Z2Nat.id by lia. by left.
      * rewrite decide_False; [done|]. intros [Heq|?]%elem_of_cons; [|done].
        apply Hne. simplify_eq. lia.
Qed.

Lemma init_blocked_fail w h todo g bl :
  grid_dims g (Z.to_nat h) (Z.to_nat w) →
  ¬ Forall (cell_in_range w h) todo →
  ∃ cell, cell ∈ todo ∧ ¬ cell_in_range w h cell ∧
          init_blocked w h todo g bl = Raise (ValueError (BlockedOutOfBounds cell)).
Proof.
  revert g bl. induction todo as [|[row col] todo IH]; intros g bl Hd Hall; simpl.
  - by destruct Hall.
  - case_bool_decide as Hin; simpl.
    + pose proof (grid_set_dims g _ _ row col (Some (-1)) Hd) as Hset.
      rewrite norm_pos_in in Hset by lia. destruct Hset as (g1 & -> & Hd1 & Hs1).
      simpl. destruct (IH g1 ({[(row, col)]} ∪ bl) Hd1) as (cell & Hc & Hout & ->).
      { intros Hall'. apply Hall. by apply Forall_cons. }
      exists cell. split_and!; [by right | done..].
    + exists (row, col). split_and!; [by left | done..].
Qed.

Lemma GameBoard_init_wf w h blocked b :
  GameBoard_init w h blocked = Ok b → board_wf b.
Proof.
  unfold GameBoard_init. case_bool_decide as Hw; [|done].
  case_bool_decide as Hh; [|done]. cbn [negb].
  set (todo := match blocked with None => [] | Some s => elements s end).
  pose proof (grid_dims_replicate (Z.to_nat h) (Z.to_nat w) None) as Hd0.
  destruct (decide (Forall (cell_in_range w h) todo)) as [Hall|Hall].
  - destruct (init_blocked_ok w h todo _ ∅ Hd0 Hall) as (g' & -> & Hd' & Hs').
    cbn [rbind]. intros [= <-]. split; simpl; [done..| |].
    + intros row col Hin. rewrite Forall_forall in Hall.
      apply (Hall (row, col)). set_solver.
    + intros i j _ _. rewrite Hs', slot_at_replicate. case_decide; set_solver.
  - destruct (init_blocked_fail w h todo _ ∅ Hd0 Hall) as (cell & _ & _ & ->).
    done.
Qed.

Section BoardTheory.

Variable hash : Shape → Z.

(** CPython never returns [-1] from [hash]: that value is reserved for
    signalling errors, so it cannot collide with the blocked marker. *)
Hypothesis hash_not_marker : ∀ s, hash s ≠ -1.

Abbreviation H b := (Z.to_nat (height b)).
Abbreviation W b := (Z.to_nat (width b)).

Lemma can_place_shape_true b shape position :
  board_wf b → can_place_shape b shape position = Ok true →
  ∀ cell, cell ∈ elements shape →
    (0 ≤ position.1 + cell.1 < height b ∧ 0 ≤ position.2 + cell.2 < width b) ∧
    ((position.1 + cell.1, position.2 + cell.2) ∉ blocked_cells b) ∧
    content b (position.1 + cell.1) (position.2 + cell.2) = None.
Proof.
  intros Hwf Hcan cell Hc. unfold can_place_shape in Hcan.
  destruct (can_place_cells_spec b position (elements shape) (wf_dims b Hwf))
    as (r & Hr & Hiff).
  rewrite Hr in Hcan. simplify_eq. destruct Hiff as [Hiff _].
  destruct (Hiff eq_refl cell Hc) as ([? ?] & Hnb & [?|Hm]); [done|].
  apply wf_marker_Z in Hm; done.
Qed.

Lemma can_place_shape_total b shape position :
  board_wf b → ∃ r, can_place_shape b shape position = Ok r.
Proof.
  intros Hwf.
  destruct (can_place_cells_spec b position (elements shape) (wf_dims b Hwf))
    as (r & Hr & _).
  by exists r.
Qed.

Lemma place_shape_spec b shape position :
  board_wf b → can_place_shape b shape position = Ok true →
  ∃ g', place_shape hash b shape position = Ok (set_cells b g') ∧
        grid_dims g' (H b) (W b) ∧
        (∀ i j, hits (H b) (W b) position (elements shape) i j →
                slot_at g' i j = Some (hash shape)) ∧
        (∀ i j, ¬ hits (H b) (W b) position (elements shape) i j →
                slot_at g' i j = slot_at (cells b) i j).
Proof.
  intros Hwf Hcan. unfold place_shape. rewrite Hcan. cbn [rbind negb].
  destruct (write_cells_ok (cells b) (H b) (W b) position (Some (hash shape))
              (elements shape) (wf_dims b Hwf)) as (g' & -> & Hd' & Hhit & Hmiss).
  - intros cell Hc.
    destruct (can_place_shape_true b shape position Hwf Hcan cell Hc) as ([? ?] & _).
    by rewrite norm_pos_board.
  - by exists g'.
Qed.

Lemma place_shape_false b shape position :
  can_place_shape b shape position = Ok false →
  place_shape hash b shape position = Raise (ValueError (CannotPlace position)).
Proof. intros Hcan. unfold place_shape. by rewrite Hcan. Qed.

Lemma place_shape_inv b shape position b' :
  board_wf b → place_shape hash b shape position = Ok b' →
  can_place_shape b shape position = Ok true.
Proof.
  intros Hwf Hp. destruct (can_place_shape_total b shape position Hwf) as [[] Hr];
    [done|].
  by rewrite (place_shape_false _ _ _ Hr) in Hp.
Qed.

Lemma set_cells_wf b g :
  board_wf b → grid_dims g (H b) (W b) →
  (∀ i j, (i < H b)%nat → (j < W b)%nat →
          slot_at g i j = Some (-1) ↔ (Z.of_nat i, Z.of_nat j) ∈ blocked_cells b) →
  board_wf (set_cells b g).
Proof. intros [] Hd Hm. by split. Qed.

Lemma place_shape_wf b shape position b' :
  board_wf b → place_shape hash b shape position = Ok b' → board_wf b'.
Proof.
  intros Hwf Hp. pose proof (place_shape_inv _ _ _ _ Hwf Hp) as Hcan.
  destruct (place_shape_spec b shape position Hwf Hcan) as (g' & Hp' & Hd' & Hhit & Hmiss).
  rewrite Hp' in Hp. simplify_eq. apply set_cells_wf; [done..|].
  intros i j Hi Hj.
  destruct (decide (hits (H b) (W b) position (elements shape) i j)) as [Hh|Hh].
  - rewrite (Hhit _ _ Hh). split.
    + intros [= Heq]. by destruct (hash_not_marker shape).
    + intros Hbl. apply hits_in_bounds in Hh as (cell & Hc & Hci & Hcj).
      * destruct (can_place_shape_true b shape position Hwf Hcan cell Hc)
          as (_ & Hnb & _).
        rewrite Hci, Hcj in Hnb. done.
      * intros cell Hc. by destruct (can_place_shape_true b shape position Hwf Hcan cell Hc).
  - rewrite (Hmiss _ _ Hh). by apply wf_marker.
Qed.

Lemma remove_shape_spec b shape position b' :
  board_wf b → remove_shape hash b shape position = Ok b' →
  ∃ g', b' = set_cells b g' ∧ grid_dims g' (H b) (W b) ∧
        (∀ i j, hits (H b) (W b) position (elements shape) i j →
                slot_at (cells b) i j = Some (hash shape) ∧ slot_at g' i j = None) ∧
        (∀ i j, ¬ hits (H b) (W b) position (elements shape) i j →
                slot_at g' i j = slot_at (cells b) i j).
Proof.
  intros Hwf. unfold remove_shape.
  destruct (check_cells _ _ _ _) as [[]|] eqn:Hchk; [|done]. cbn [rbind].
  rewrite (check_cells_spec _ _ _ _ _ _ (wf_dims b Hwf)) in Hchk.
  destruct (write_cells_ok (cells b) (H b) (W b) position None
              (elements shape) (wf_dims b Hwf)) as (g' & -> & Hd' & Hhit & Hmiss).
  { intros cell Hc. destruct (Hchk cell Hc) as (i & j & -> & _). done. }
  cbn [rbind]. intros [= <-]. exists g'. split_and!; [done..| |done].
  intros i j Hh. split; [|by apply Hhit].
  apply hits_iff in Hh as (cell & Hc & Hn).
  destruct (Hchk cell Hc) as (i' & j' & Hn' & Hs). by simplify_eq.
Qed.

Lemma remove_shape_ok b shape position :
  board_wf b →
  (∀ i j, hits (H b) (W b) position (elements shape) i j →
          slot_at (cells b) i j = Some (hash shape)) →
  (∀ cell, cell ∈ elements shape →
     is_Some (norm_pos (H b) (W b) (position.1 + cell.1) (position.2 + cell.2))) →
  ∃ b', remove_shape hash b shape position = Ok b'.
Proof.
  intros Hwf Hs Hn. unfold remove_shape.
  destruct (check_cells _ _ _ _) as [[]|] eqn:Hchk.
  - cbn [rbind].
    destruct (write_cells_ok (cells b) (H b) (W b) position None
                (elements shape) (wf_dims b Hwf) Hn) as (g' & -> & _).
    by eexists.
  - assert (check_cells (cells b) position (hash shape) (elements shape) = Ok tt)
      as Hok; [|congruence].
    apply (check_cells_spec _ _ _ _ _ _ (wf_dims b Hwf)). intros cell Hc.
    destruct (Hn cell Hc) as [[i j] Hij]. exists i, j. split; [done|].
    apply Hs. apply hits_iff. eauto.
Qed.

Lemma remove_shape_wf b shape position b' :
  board_wf b → remove_shape hash b shape position = Ok b' → board_wf b'.
Proof.
  intros Hwf Hr.
  destruct (remove_shape_spec _ _ _ _ Hwf Hr) as (g' & -> & Hd' & Hhit & Hmiss).
  apply set_cells_wf; [done..|]. intros i j Hi Hj.
  destruct (decide (hits (H b) (W b) position (elements shape) i j)) as [Hh|Hh].
  - destruct (Hhit _ _ Hh) as [Hold ->]. split; [done|].
    intros Hbl. apply (wf_marker b Hwf) in Hbl; [|done..].
    rewrite Hold in Hbl. simplify_eq. by destruct (hash_not_marker shape).
  - rewrite (Hmiss _ _ Hh). by apply wf_marker.
Qed.

Lemma clear_wf b b' : board_wf b → clear b = Ok b' → board_wf b'.
Proof.
  intros Hwf. unfold clear.
  destruct (clear_cells_spec (cells b) (H b) (W b) (grid_positions b) (wf_dims b Hwf))
    as (g' & -> & Hd' & Hs').
  { intros cell Hc. by rewrite grid_positions_norm. }
  cbn [rbind]. intros [= <-]. apply set_cells_wf; [done..|]. intros i j Hi Hj.
  rewrite <- (wf_marker b Hwf) by done.
  destruct (Hs' i j) as [->|[Hne ->]]; [done|]. split; [done|]. intros ?. done.
Qed.

(** Boards that a program can hold: built by the constructor and then
    changed through [place_shape], [remove_shape] and [clear] only. *)
Inductive reachable : GameBoard → Prop :=
  | reach_init w h blocked b :
      GameBoard_init w h blocked = Ok b → reachable b
  | reach_place b shape position b' :
      reachable b → place_shape hash b shape position = Ok b' → reachable b'
  | reach_remove b shape position b' :
      reachable b → remove_shape hash b shape position = Ok b' → reachable b'
  | reach_clear b b' :
      reachable b → clear b = Ok b' → reachable b'.

Lemma reachable_wf b : reachable b → board_wf b.
Proof.
  induction 1; eauto using GameBoard_init_wf, place_shape_wf, remove_shape_wf, clear_wf.
Qed.

End BoardTheory.


(** * Properties of dictionaries *)

(** No two keys of a dictionary are equal. *)
Definition dict_wf (d : Dict) : Prop := NoDup (canonical_shape <$> dict_keys d).

(** [Σ f v] over the values [v] of the dictionary. *)
Definition dict_weight (f : Z → Z) (d : Dict) : Z :=
  foldr Z.add 0 (f <$> dict_values d).

Lemma dict_sum_weight d : dict_sum d = dict_weight id d.
Proof. unfold dict_sum, dict_weight. by rewrite list_fmap_id. Qed.

Lemma piece_eqb_true p q : piece_eqb p q = true ↔ canonical_shape p = canonical_shape q.
Proof. unfold piece_eqb. by rewrite bool_decide_eq_true. Qed.

Lemma piece_eqb_false p q : piece_eqb p q = false ↔ canonical_shape p ≠ canonical_shape q.
Proof. unfold piece_eqb. by rewrite bool_decide_eq_false. Qed.

Lemma piece_eqb_refl p : piece_eqb p p = true.
Proof. by apply piece_eqb_true. Qed.

Lemma dict_lookup_cons k x d p :
  dict_lookup ((k, x) :: d) p = if piece_eqb k p then Some x else dict_lookup d p.
Proof. unfold dict_lookup. simpl. by destruct (piece_eqb k p). Qed.

Lemma dict_lookup_None d p :
  dict_lookup d p = None ↔ canonical_shape p ∉ canonical_shape <$> dict_keys d.
Proof.
  induction d as [|[k x] d IH]; simpl.
  - split; [intros _; apply not_elem_of_nil | done].
  - rewrite dict_lookup_cons, not_elem_of_cons, <- IH.
    destruct (piece_eqb k p) eqn:E.
    + apply piece_eqb_true in E. split; [done | intros [? _]; congruence].
    + apply piece_eqb_false in E. split; [intros; split; congruence | tauto].
Qed.

Lemma dict_lookup_setitem_eq d p v : dict_lookup (dict_setitem d p v) p = Some v.
Proof.
  induction d as [|[k x] d IH]; simpl.
  - by rewrite dict_lookup_cons, piece_eqb_refl.
  - destruct (piece_eqb k p) eqn:E; rewrite dict_lookup_cons, E; done.
Qed.

Lemma dict_lookup_setitem_ne d p q v :
  piece_eqb p q = false → dict_lookup (dict_setitem d p v) q = dict_lookup d q.
Proof.
  intros Hne. induction d as [|[k x] d IH]; simpl.
  - by rewrite dict_lookup_cons, Hne.
  - destruct (piece_eqb k p) eqn:E; rewrite !dict_lookup_cons; [|by rewrite IH].
    apply piece_eqb_true in E. apply piece_eqb_false in Hne.
    rewrite (proj2 (piece_eqb_false k q)); [done | congruence].
Qed.

Lemma dict_weight_setitem f d p v :
  dict_weight f (dict_setitem d p v) =
    dict_weight f d - from_option f 0 (dict_lookup d p) + f v.
Proof.
  unfold dict_weight. induction d as [|[k x] d IH]; csimpl; [lia|].
  rewrite dict_lookup_cons. destruct (piece_eqb k p); csimpl; lia.
Qed.

Lemma dict_wf_setitem d p v : dict_wf d → dict_wf (dict_setitem d p v).
Proof.
  unfold dict_wf. induction d as [|[k x] d IH]; simpl.
  - intros _. apply NoDup_singleton.
  - intros [Hk Hd]%NoDup_cons. destruct (piece_eqb k p) eqn:E; simpl.
    + by apply NoDup_cons.
    + apply NoDup_cons. split; [|by apply IH].
      apply dict_lookup_None. rewrite dict_lookup_setitem_ne.
      * by apply dict_lookup_None.
      * apply piece_eqb_false. apply piece_eqb_false in E. congruence.
Qed.

Lemma dict_values_setitem (P : Z → Prop) d p v :
  Forall P (dict_values d) → P v → Forall P (dict_values (dict_setitem d p v)).
Proof.
  intros Hd Hv. induction d as [|[k x] d IH]; simpl.
  - by apply Forall_singleton.
  - apply Forall_cons in Hd as [Hx Hd].
    destruct (piece_eqb k p); simpl; apply Forall_cons; auto.
Qed.

Lemma dict_lookup_proper d p q :
  piece_eqb p q = true → dict_lookup d p = dict_lookup d q.
Proof.
  intros Hpq%piece_eqb_true. induction d as [|[k x] d IH]; [done|].
  rewrite !dict_lookup_cons, IH. unfold piece_eqb. by rewrite Hpq.
Qed.

(** [d[p] = v] directly followed by [del d[p]]. *)
Lemma dict_set_del_spec f (P : Z → Prop) d p v :
  ∃ d', dict_delitem (dict_setitem d p v) p = Ok d' ∧
        dict_weight f d' = dict_weight f d - from_option f 0 (dict_lookup d p) ∧
        (∀ q, piece_eqb p q = false → dict_lookup d' q = dict_lookup d q) ∧
        (dict_wf d → dict_wf d' ∧ dict_lookup d' p = None) ∧
        (Forall P (dict_values d) → Forall P (dict_values d')).
Proof.
  unfold dict_weight, dict_wf. induction d as [|[k x] d IH]; csimpl.
  - rewrite piece_eqb_refl. exists []. by split_and!.
  - rewrite dict_lookup_cons. destruct (piece_eqb k p) eqn:E; csimpl; rewrite E.
    + exists d. split_and!; [done | lia | | |].
      * intros q Hq. rewrite dict_lookup_cons.
        apply piece_eqb_true in E. apply piece_eqb_false in Hq.
        rewrite (proj2 (piece_eqb_false k q)); [done | congruence].
      * intros [Hk Hd]%NoDup_cons. split; [done|]. apply dict_lookup_None.
        apply piece_eqb_true in E. by rewrite <- E.
      * by intros [_ ?]%Forall_cons.
    + destruct IH as (d' & -> & Hw & Hne & Hwf & HP). csimpl.
      eexists. split_and!; [done | csimpl; lia | | |].
      * intros q Hq. rewrite !dict_lookup_cons. by rewrite Hne.
      * intros [Hk Hd]%NoDup_cons. destruct (Hwf Hd) as [Hwf' Hnone]. split.
        -- csimpl. apply NoDup_cons. split; [|done].
           apply dict_lookup_None. rewrite Hne.
           ++ by apply dict_lookup_None.
           ++ apply piece_eqb_false. apply piece_eqb_false in E. congruence.
        -- by rewrite dict_lookup_cons, E.
      * intros [? ?]%Forall_cons. csimpl. apply Forall_cons. auto.
Qed.

(** * Invariants of the search *)

(** [counts_from n l m]: [l] is [n+1, n+2, ..., m]. *)
Inductive counts_from : Z → list Z → Z → Prop :=
  | counts_nil n : counts_from n [] n
  | counts_cons n l m : counts_from (n + 1) l m → counts_from n ((n + 1) :: l) m.

Lemma counts_from_app a l1 b l2 c :
  counts_from a l1 b → counts_from b l2 c → counts_from a (l1 ++ l2) c.
Proof. induction 1; simpl; [done|]. intros. constructor. auto. Qed.

Lemma counts_from_snoc a l b : counts_from a l b → counts_from a (l ++ [b + 1]) (b + 1).
Proof. intros. eapply counts_from_app; [done|]. repeat constructor. Qed.

Lemma counts_from_le a l b : counts_from a l b → a ≤ b.
Proof. induction 1; lia. Qed.

Lemma counts_from_bounds a l b x : counts_from a l b → x ∈ l → a < x ≤ b.
Proof.
  induction 1 as [|n l m Hc IH]; [by intros ?%elem_of_nil|].
  intros [->|Hx]%elem_of_cons.
  - apply counts_from_le in Hc. lia.
  - specialize (IH Hx). lia.
Qed.

Lemma counts_from_sorted a l b : counts_from a l b → StronglySorted Z.lt l.
Proof.
  induction 1 as [|n l m Hc IH]; constructor; [done|].
  apply Forall_forall. intros x Hx.
  pose proof (counts_from_bounds _ _ _ _ Hc Hx). lia.
Qed.

Lemma counts_from_last a l b x : counts_from a (l ++ [x]) b → x = b.
Proof.
  revert a. induction l as [|y l IH]; simpl; intros a Hc.
  - inversion Hc as [|? ? ? Hc']; subst. by inversion Hc'.
  - inversion Hc; subst. eauto.
Qed.

(** Weight functions under which taking a piece out of the dictionary
    costs exactly one. *)
Definition unit_step (f : Z → Z) : Prop :=
  f 0 = 0 ∧ ∀ c, 0 ≤ c → f (c + 1) = f c + 1.

Lemma unit_step_id : unit_step id.
Proof. split; [done|]. intros. unfold id. lia. Qed.

Lemma unit_step_copies : unit_step copies.
Proof. split; [done|]. unfold copies. intros. lia. Qed.

Definition balance (f : Z → Z) (pl : list Placement) (d : Dict) : Z :=
  Z.of_nat (length pl) + dict_weight f d.

Definition positive (d : Dict) : Prop := Forall (λ v, 1 ≤ v) (dict_values d).

Definition nonterminal (e : Event) : Prop := type e = place ∨ type e = remove.

Definition state_ok (st : SolverState) : Prop :=
  board_wf (board st) ∧ dict_wf (remaining st).

(** What holds of a run of [backtrack] (or of a part of its loops) that
    starts in [st], yields [evs], returns [found] and ends in [st']. *)
Record run_spec (st : SolverState) (evs : list Event) (found : bool)
    (st' : SolverState) : Prop := {
  rs_state : state_ok st';
  rs_steps : counts_from (step_counter st) (step_count <$> evs) (step_counter st');
  rs_events :
    if found then ∃ body last, evs = body ++ [last] ∧ Forall nonterminal body ∧
                               type last = solved
    else Forall nonterminal evs;
  rs_restore :
    found = false →
    board st' = board st ∧ placed st' = placed st ∧
    ∀ q, dict_lookup (remaining st') q = dict_lookup (remaining st) q;
  rs_balance :
    ∀ f, unit_step f →
      balance f (placed st') (remaining st') = balance f (placed st) (remaining st) ∧
      Forall (λ e, balance f (placed_pieces e) (remaining_pieces e)
                   = balance f (placed st) (remaining st)) evs;
  rs_positive :
    positive (remaining st) →
    positive (remaining st') ∧ Forall (λ e, positive (remaining_pieces e)) evs;
}.

Lemma run_spec_nil st : state_ok st → run_spec st [] false st.
Proof. intros. split; try done. simpl. constructor. Qed.

Lemma run_spec_app st evs st1 evs' found st2 :
  run_spec st evs false st1 → run_spec st1 evs' found st2 →
  run_spec st (evs ++ evs') found st2.
Proof.
  intros [_ Hs1 He1 Hr1 Hb1 Hp1] [Hok2 Hs2 He2 Hr2 Hb2 Hp2]. split.
  - done.
  - rewrite fmap_app. by eapply counts_from_app.
  - destruct found.
    + destruct He2 as (body & last & -> & Hbody & Hlast).
      exists (evs ++ body), last. rewrite <- (assoc_L (++)).
      split_and!; [done | by apply Forall_app | done].
    + by apply Forall_app.
  - intros ->. destruct (Hr1 eq_refl) as (Eb1 & Ep1 & Hl1).
    destruct (Hr2 eq_refl) as (Eb2 & Ep2 & Hl2).
    split_and!; [congruence..|]. intros q. by rewrite Hl2.
  - intros f Hf. destruct (Hb1 f Hf) as [E1 F1], (Hb2 f Hf) as [E2 F2].
    split; [congruence|]. apply Forall_app. split; [done|].
    eapply Forall_impl; [done|]. simpl. intros e He. congruence.
  - intros Hp. destruct (Hp1 Hp) as [Hp' F1]. destruct (Hp2 Hp') as [Hp'' F2].
    split; [done|]. by apply Forall_app.
Qed.

Section RoundTrip.

Variable hash : Shape → Z.
Hypothesis hash_not_marker : ∀ s, hash s ≠ -1.

Lemma place_then_remove b shape position :
  board_wf b → can_place_shape b shape position = Ok true →
  ∃ b1, place_shape hash b shape position = Ok b1 ∧ board_wf b1 ∧
        remove_shape hash b1 shape position = Ok b.
Proof.
  intros Hwf Hcan.
  pose proof (can_place_shape_true b shape position Hwf Hcan) as Hfree.
  destruct (place_shape_spec hash b shape position Hwf Hcan)
    as (g1 & Hp & Hd1 & Hhit1 & Hmiss1).
  pose proof (place_shape_wf hash hash_not_marker _ _ _ _ Hwf Hp) as Hwf1.
  exists (set_cells b g1). split_and!; [done..|].
  destruct (remove_shape_ok hash (set_cells b g1) shape position Hwf1) as [b2 Hr].
  { simpl. done. }
  { simpl. intros cell Hc. destruct (Hfree cell Hc) as ([? ?] & _).
    by rewrite norm_pos_board. }
  rewrite Hr. f_equal.
  destruct (remove_shape_spec hash _ _ _ _ Hwf1 Hr) as (g2 & -> & Hd2 & Hhit2 & Hmiss2).
  simpl in Hd2, Hhit2, Hmiss2.
  assert (g2 = cells b) as ->; [|by destruct b].
  eapply grid_ext; [done | by apply wf_dims |]. intros i j Hi Hj.
  destruct (decide (hits (Z.to_nat (height b)) (Z.to_nat (width b)) position
                      (elements shape) i j)) as [Hh|Hh].
  - destruct (Hhit2 _ _ Hh) as [_ ->].
    apply hits_in_bounds in Hh as (cell & Hc & Hi' & Hj').
    + destruct (Hfree cell Hc) as (_ & _ & Hnone). unfold content in Hnone.
      rewrite Hi', Hj', !Nat2Z.id in Hnone. done.
    + intros cell Hc. by destruct (Hfree cell Hc).
  - rewrite (Hmiss2 _ _ Hh). by apply Hmiss1.
Qed.

End RoundTrip.

(** * The search never fails and keeps its invariants *)

Lemma min_cell_ok (o : Shape) : o ≠ ∅ → ∃ c, min_cell o = Ok c.
Proof.
  intros Hne. unfold min_cell. destruct (elements o) as [|c l] eqn:E.
  - by apply elements_empty_inv, leibniz_equiv in E.
  - by eexists.
Qed.

Lemma list_pop_snoc {A} (l : list A) x : list_pop (l ++ [x]) = Ok (x, l).
Proof. unfold list_pop. rewrite reverse_snoc. by rewrite reverse_involutive. Qed.

Lemma find_empty_in_total b todo :
  board_wf b → (∀ cell, cell ∈ todo → cell ∈ grid_positions b) →
  ∃ r, find_empty_in b todo = Ok r.
Proof.
  intros Hwf. induction todo as [|[row col] todo IH]; intros Hin; simpl.
  - by eexists.
  - assert ((row, col) ∈ grid_positions b) as [? ?]%elem_of_grid_positions
      by (apply Hin; by left).
    rewrite grid_get_board; [|by apply wf_dims|done..]. simpl.
    destruct (is_None _); [by eexists|]. apply IH. intros cell Hc. apply Hin. by right.
Qed.

Lemma find_next_empty_total b : board_wf b → ∃ r, find_next_empty b = Ok r.
Proof. intros. by apply find_empty_in_total. Qed.

Lemma pieces_left_weight d : pieces_left d = Z.to_nat (dict_weight copies d).
Proof. done. Qed.

Lemma dict_weight_copies_nonneg d : 0 ≤ dict_weight copies d.
Proof.
  unfold dict_weight. generalize (dict_values d). intros l.
  induction l as [|v l IH]; csimpl; [lia|]. unfold copies at 1. lia.
Qed.

Lemma dict_get_pos d p : 0 < dict_get d p 0 → dict_lookup d p = Some (dict_get d p 0).
Proof. unfold dict_get. destruct (dict_lookup d p); simpl; [done | lia]. Qed.

Lemma dict_getitem_setitem d p v : dict_getitem (dict_setitem d p v) p = Ok v.
Proof. unfold dict_getitem. by rewrite dict_lookup_setitem_eq. Qed.

Lemma unit_step_pred f c : unit_step f → 0 < c → f c = f (c - 1) + 1.
Proof. intros [_ Hf] Hc. rewrite <- Hf by lia. f_equal. lia. Qed.

(** Taking one copy of [p] out of the dictionary (solver.py, lines 111-113). *)
Lemma take_piece_spec d p count :
  dict_wf d → dict_lookup d p = Some count → 0 < count →
  ∃ d2, (if count - 1 =? 0 then dict_delitem (dict_setitem d p (count - 1)) p
         else Ok (dict_setitem d p (count - 1))) = Ok d2 ∧
        dict_wf d2 ∧
        (∀ f, unit_step f → dict_weight f d2 = dict_weight f d - 1) ∧
        (∀ q, piece_eqb p q = false → dict_lookup d2 q = dict_lookup d q) ∧
        dict_lookup d2 p = (if count - 1 =? 0 then None else Some (count - 1)) ∧
        (positive d → positive d2).
Proof.
  intros Hwf Hl Hc. destruct (count - 1 =? 0) eqn:E.
  - apply Z.eqb_eq in E.
    destruct (dict_set_del_spec id (λ v, 1 ≤ v) d p (count - 1))
      as (d2 & Hdel & _ & Hne & Hwf2 & Hpos).
    exists d2. destruct (Hwf2 Hwf) as [? ?]. split_and!; [done..| | done | done | done].
    intros f Hf.
    destruct (dict_set_del_spec f (λ v, 1 ≤ v) d p (count - 1)) as (d2' & Hdel' & Hw & _).
    rewrite Hdel in Hdel'. simplify_eq. rewrite Hw, Hl. simpl.
    rewrite (unit_step_pred f count) by done. rewrite E. destruct Hf as [-> _]. lia.
  - apply Z.eqb_neq in E. eexists. split; [done|]. split_and!.
    + by apply dict_wf_setitem.
    + intros f Hf. rewrite dict_weight_setitem, Hl. simpl.
      rewrite (unit_step_pred f count) by done. lia.
    + intros q Hq. by apply dict_lookup_setitem_ne.
    + apply dict_lookup_setitem_eq.
    + intros Hp. apply dict_values_setitem; [done | lia].
Qed.

(** Giving one copy of [p] back (solver.py, line 131). *)
Lemma give_back_spec d p :
  dict_wf d → (∀ c, dict_lookup d p = Some c → 0 ≤ c) →
  let d3 := dict_setitem d p (dict_get d p 0 + 1) in
  dict_wf d3 ∧
  (∀ f, unit_step f → dict_weight f d3 = dict_weight f d + 1) ∧
  (∀ q, piece_eqb p q = false → dict_lookup d3 q = dict_lookup d q) ∧
  dict_lookup d3 p = Some (dict_get d p 0 + 1) ∧
  (positive d → positive d3).
Proof.
  intros Hwf Hc d3. subst d3. split_and!.
  - by apply dict_wf_setitem.
  - intros f Hf. rewrite dict_weight_setitem. unfold dict_get.
    destruct (dict_lookup d p) as [c|] eqn:E; simpl.
    + destruct Hf as [_ Hf]. rewrite Hf by auto. lia.
    + destruct Hf as [H0 Hf]. rewrite Hf by lia. lia.
  - intros q Hq. by apply dict_lookup_setitem_ne.
  - apply dict_lookup_setitem_eq.
  - intros Hp. apply dict_values_setitem; [done|]. unfold dict_get.
    destruct (dict_lookup d p) as [c|] eqn:E; simpl; [|lia].
    specialize (Hc c eq_refl). lia.
Qed.

Lemma run_spec_place_found st st1 evs st2 :
  step_counter st1 = step_counter st + 1 →
  (∀ f, unit_step f → balance f (placed st1) (remaining st1)
                      = balance f (placed st) (remaining st)) →
  (positive (remaining st) → positive (remaining st1)) →
  run_spec st1 evs true st2 →
  run_spec st (yield place st1 :: evs) true st2.
Proof.
  intros Hstep Hbal Hpos [Hok Hs He Hr Hb Hp]. split.
  - done.
  - csimpl. rewrite Hstep. constructor. by rewrite <- Hstep.
  - destruct He as (body & last & -> & Hbody & Hlast).
    exists (yield place st1 :: body), last. split_and!; [done | | done].
    apply Forall_cons. split; [by left | done].
  - done.
  - intros f Hf. destruct (Hb f Hf) as [E F]. specialize (Hbal f Hf).
    split; [congruence|]. apply Forall_cons. split; [done|].
    eapply Forall_impl; [done|]. simpl. intros. congruence.
  - intros Hpos0. destruct (Hp (Hpos Hpos0)) as [? ?]. split; [done|].
    apply Forall_cons. split; [by apply Hpos | done].
Qed.

Lemma run_spec_place_remove st st1 evs st2 st3 :
  step_counter st1 = step_counter st + 1 →
  (∀ f, unit_step f → balance f (placed st1) (remaining st1)
                      = balance f (placed st) (remaining st)) →
  (positive (remaining st) → positive (remaining st1)) →
  run_spec st1 evs false st2 →
  state_ok st3 →
  step_counter st3 = step_counter st2 + 1 →
  board st3 = board st → placed st3 = placed st →
  (∀ q, dict_lookup (remaining st3) q = dict_lookup (remaining st) q) →
  (∀ f, unit_step f → balance f (placed st3) (remaining st3)
                      = balance f (placed st) (remaining st)) →
  (positive (remaining st2) → positive (remaining st3)) →
  run_spec st (yield place st1 :: evs ++ [yield remove st3]) false st3.
Proof.
  intros Hstep Hbal Hpos [Hok Hs He Hr Hb Hp] Hok3 Hstep3 Hb3 Hp3 Hl3 Hbal3 Hpos3. split.
  - done.
  - csimpl. rewrite Hstep. constructor. rewrite <- Hstep, fmap_app. csimpl.
    rewrite Hstep3. by apply counts_from_snoc.
  - apply Forall_cons. split; [by left|]. apply Forall_app. split; [done|].
    apply Forall_singleton. by right.
  - done.
  - intros f Hf. destruct (Hb f Hf) as [E F]. specialize (Hbal f Hf).
    split; [by apply Hbal3|]. apply Forall_cons. split; [done|].
    apply Forall_app. split.
    + eapply Forall_impl; [done|]. simpl. intros. congruence.
    + apply Forall_singleton. by apply Hbal3.
  - intros Hpos0. destruct (Hp (Hpos Hpos0)) as [? ?]. split; [by apply Hpos3|].
    apply Forall_cons. split; [by apply Hpos|]. apply Forall_app. split; [done|].
    apply Forall_singleton. by apply Hpos3.
Qed.

Section SolverTheory.

Variable hash : Shape → Z.
Hypothesis hash_not_marker : ∀ s, hash s ≠ -1.

(** Every orientation of the piece has at least one cell. *)
Definition piece_ok (p : PuzzlePiece) : Prop :=
  Forall (λ o : Shape, o ≠ ∅) (orientations p).

(** The recursive call behaves as specified on every state that has fewer
    than [n] pieces left. *)
Definition rec_ok (rec : SolverState → result Run) (n : nat) : Prop :=
  ∀ st, state_ok st → (pieces_left (remaining st) < n)%nat →
        ∃ evs found st', rec st = Ok (evs, found, st') ∧ run_spec st evs found st'.

Lemma try_orientations_spec rec n cell piece count todo st :
  rec_ok rec n →
  Forall (λ o : Shape, o ≠ ∅) todo →
  state_ok st →
  (pieces_left (remaining st) < S n)%nat →
  dict_lookup (remaining st) piece = Some count → 0 < count →
  ∃ evs found st',
    try_orientations hash rec cell piece count todo st = Ok (evs, found, st') ∧
    run_spec st evs found st'.
Proof.
  intros Hrec Htodo. revert st.
  induction Htodo as [|o todo Ho Htodo IH]; intros st Hok Hfuel Hl Hc.
  { exists [], false, st. split; [done | by apply run_spec_nil]. }
  destruct Hok as [Hwf Hdwf]. cbn [try_orientations].
  destruct (min_cell_ok o Ho) as [tl ->]. cbn [rbind].
  set (origin := (cell.1 - tl.1, cell.2 - tl.2)).
  destruct (can_place_shape_total (board st) o origin Hwf) as [can Hcan].
  rewrite Hcan. cbn [rbind]. destruct can; [|by apply IH].
  destruct (place_then_remove hash hash_not_marker (board st) o origin Hwf Hcan)
    as (b1 & -> & Hwf1 & Hrm).
  cbn [rbind]. rewrite dict_getitem_setitem. cbn [rbind].
  destruct (take_piece_spec (remaining st) piece count Hdwf Hl Hc)
    as (rem2 & -> & Hdwf2 & Hw2 & Hne2 & Hl2 & Hpos2).
  cbn [rbind].
  set (st1 := mkState b1 (placed st ++ [(o, origin, piece)]) rem2 (step_counter st + 1)).
  assert (∀ f, unit_step f → balance f (placed st1) (remaining st1)
                             = balance f (placed st) (remaining st)) as Hbal1.
  { intros f Hf. unfold balance. simpl. rewrite length_app, (Hw2 f Hf). simpl. lia. }
  destruct (Hrec st1) as (evs & found & st2 & -> & Hspec).
  { by split. }
  { pose proof (Hw2 _ unit_step_copies) as Hw. rewrite !pieces_left_weight in *.
    simpl. pose proof (dict_weight_copies_nonneg rem2). lia. }
  cbn [rbind]. destruct found.
  { eexists _, _, _. split; [done|]. by apply run_spec_place_found. }
  destruct (rs_restore _ _ _ _ Hspec eq_refl) as (Eb & Ep & El). simpl in Eb, Ep, El.
  rewrite Ep, list_pop_snoc. cbn [rbind]. rewrite Eb, Hrm. cbn [rbind].
  destruct (rs_state _ _ _ _ Hspec) as [Hwf2' Hdwf2'].
  destruct (give_back_spec (remaining st2) piece Hdwf2') as (Hdwf3 & Hw3 & Hne3 & Hl3 & Hpos3).
  { intros c. rewrite El, Hl2. destruct (count - 1 =? 0) eqn:E; [done|].
    intros [= <-]. lia. }
  set (st3 := mkState (board st) (placed st)
                (dict_setitem (remaining st2) piece (dict_get (remaining st2) piece 0 + 1))
                (step_counter st2 + 1)).
  assert (∀ q, dict_lookup (remaining st3) q = dict_lookup (remaining st) q) as Hl3'.
  { intros q. simpl. destruct (piece_eqb piece q) eqn:E.
    - rewrite <- !(dict_lookup_proper _ _ _ E), Hl3, Hl. f_equal.
      unfold dict_get. rewrite El, Hl2.
      destruct (count - 1 =? 0) eqn:E'; simpl; [|lia].
      apply Z.eqb_eq in E'. lia.
    - rewrite (Hne3 q E), El. by apply Hne2. }
  assert (∀ f, unit_step f → balance f (placed st3) (remaining st3)
                             = balance f (placed st) (remaining st)) as Hbal3.
  { intros f Hf. destruct (rs_balance _ _ _ _ Hspec f Hf) as [Hb2 _].
    specialize (Hbal1 f Hf). unfold balance in *. simpl in *.
    rewrite (Hw3 f Hf). rewrite Ep, length_app in Hb2. simpl in Hb2.
    rewrite length_app in Hbal1. simpl in Hbal1. lia. }
  destruct (IH st3) as (evs' & found' & st4 & -> & Hspec').
  { by split. }
  { pose proof (Hbal3 _ unit_step_copies) as Hb. unfold balance in Hb. simpl in Hb.
    rewrite !pieces_left_weight in *. simpl. lia. }
  { by rewrite Hl3'. }
  { done. }
  cbn [rbind]. eexists _, _, _. split; [done|].
  replace (yield place st1 :: evs ++ yield remove st3 :: evs')
    with ((yield place st1 :: evs ++ [yield remove st3]) ++ evs')
    by (by rewrite <- app_comm_cons, <- (assoc_L (++))).
  eapply run_spec_app; [|done].
  by apply (run_spec_place_remove st st1 evs st2 st3).
Qed.

Lemma try_pieces_spec rec n cell todo st :
  rec_ok rec n →
  Forall piece_ok todo →
  state_ok st →
  (pieces_left (remaining st) < S n)%nat →
  ∃ evs found st',
    try_pieces hash rec cell todo st = Ok (evs, found, st') ∧
    run_spec st evs found st'.
Proof.
  intros Hrec Htodo. revert st.
  induction Htodo as [|piece todo Hp Htodo IH]; intros st Hok Hfuel.
  { exists [], false, st. split; [done | by apply run_spec_nil]. }
  cbn [try_pieces]. destruct (dict_get (remaining st) piece 0 <=? 0) eqn:E.
  { by apply IH. }
  apply Z.leb_gt in E.
  destruct (try_orientations_spec rec n cell piece _ (orientations piece) st
              Hrec Hp Hok Hfuel (dict_get_pos _ _ E) E)
    as (evs & found & st1 & -> & Hspec).
  cbn [rbind]. destruct found.
  { by eexists _, _, _. }
  destruct (IH st1) as (evs' & found' & st2 & -> & Hspec').
  { by apply (rs_state _ _ _ _ Hspec). }
  { destruct (rs_balance _ _ _ _ Hspec _ unit_step_copies) as [Hb _].
    destruct (rs_restore _ _ _ _ Hspec eq_refl) as (_ & Ep & _).
    unfold balance in Hb. rewrite Ep in Hb. rewrite !pieces_left_weight in *. lia. }
  cbn [rbind]. eexists _, _, _. split; [done|]. by eapply run_spec_app.
Qed.

Lemma backtrack_spec piece_types fuel :
  Forall piece_ok piece_types →
  rec_ok (backtrack hash piece_types fuel) fuel.
Proof.
  intros Hpieces. induction fuel as [|fuel IH]; intros st Hok Hfuel; [lia|].
  cbn [backtrack]. destruct (find_next_empty_total (board st)) as [cell ->].
  { by destruct Hok. }
  cbn [rbind]. destruct cell as [cell|].
  { by apply (try_pieces_spec _ fuel). }
  case_bool_decide as Hempty; [|exists [], false, st; split; [done | by apply run_spec_nil]].
  eexists _, _, _. split; [done|]. split; simpl.
  - done.
  - repeat constructor.
  - exists [], (yield solved (mkState (board st) (placed st) (remaining st)
                                (step_counter st + 1))).
    by split_and!.
  - done.
  - intros f Hf. split; [done|]. by apply Forall_singleton.
  - intros Hp. split; [done|]. by apply Forall_singleton.
Qed.

End SolverTheory.

(** * The order of the candidate pieces *)

Lemma insert_desc_perm {A} (key : A → Z) x l : insert_desc key x l ≡ₚ x :: l.
Proof.
  induction l as [|y l IH]; simpl; [done|].
  destruct (key x <? key y); [|done]. rewrite IH. apply perm_swap.
Qed.

Lemma sorted_desc_perm {A} (key : A → Z) l : sorted_desc key l ≡ₚ l.
Proof.
  induction l as [|x l IH]; simpl; [done|].
  rewrite insert_desc_perm. by rewrite IH.
Qed.

Lemma insert_desc_sorted {A} (key : A → Z) x l :
  StronglySorted (λ a b, key b ≤ key a) l →
  StronglySorted (λ a b, key b ≤ key a) (insert_desc key x l).
Proof.
  induction 1 as [|y l Hs IH Hall]; simpl.
  - repeat constructor.
  - destruct (key x <? key y) eqn:E.
    + apply Z.ltb_lt in E. constructor; [done|].
      rewrite insert_desc_perm. apply Forall_cons. split; [lia | done].
    + apply Z.ltb_ge in E. constructor; [by constructor|].
      apply Forall_cons. split; [done|].
      eapply Forall_impl; [done|]. simpl. intros. lia.
Qed.

Lemma sorted_desc_sorted {A} (key : A → Z) l :
  StronglySorted (λ a b, key b ≤ key a) (sorted_desc key l).
Proof.
  induction l as [|x l IH]; simpl; [constructor | by apply insert_desc_sorted].
Qed.

Lemma insert_desc_stable {A} (key : A → Z) k x l :
  filter (λ a, key a = k) (insert_desc key x l) = filter (λ a, key a = k) (x :: l).
Proof.
  induction l as [|y l IH]; simpl; [done|].
  destruct (key x <? key y) eqn:E; [|done]. apply Z.ltb_lt in E.
  rewrite filter_cons, IH, !filter_cons.
  destruct (decide (key y = k)), (decide (key x = k)); try done. lia.
Qed.

Lemma sorted_desc_stable {A} (key : A → Z) k l :
  filter (λ a, key a = k) (sorted_desc key l) = filter (λ a, key a = k) l.
Proof.
  induction l as [|x l IH]; simpl; [done|].
  by rewrite insert_desc_stable, !filter_cons, IH.
Qed.

(** * Canonicalisation is invariant under the symmetries *)

(** The canonical shape is a member of the orientation set and comes
    first in it. *)

Lemma cell_leb_iff (a b : Cell) :
  cell_leb a b = true ↔ a.1 < b.1 ∨ (a.1 = b.1 ∧ a.2 ≤ b.2).
Proof.
  unfold cell_leb. rewrite orb_true_iff, andb_true_iff.
  rewrite Z.ltb_lt, Z.eqb_eq, Z.leb_le. done.
Qed.

Lemma cells_leb_total (l1 l2 : list Cell) :
  cells_leb l1 l2 = true ∨ cells_leb l2 l1 = true.
Proof.
  revert l2. induction l1 as [|a l1 IH]; intros [|b l2]; simpl; auto.
  case_bool_decide as Hab.
  - subst. rewrite bool_decide_true by done. apply IH.
  - rewrite bool_decide_false by congruence. rewrite !cell_leb_iff.
    destruct a, b. simpl. lia.
Qed.

Lemma cells_leb_trans (l1 l2 l3 : list Cell) :
  cells_leb l1 l2 = true → cells_leb l2 l3 = true → cells_leb l1 l3 = true.
Proof.
  revert l2 l3. induction l1 as [|a l1 IH]; intros [|b l2] [|c l3]; simpl; try done.
  repeat case_bool_decide; subst; try done.
  - apply IH.
  - rewrite !cell_leb_iff. intros H1 H2. destruct b as [r k], c as [r' k'].
    simpl in *. assert (r = r' ∧ k = k') as [-> ->] by lia. done.
  - rewrite !cell_leb_iff. destruct a, b, c. simpl. lia.
Qed.

Lemma shape_min_cases (s1 s2 : Shape) :
  (shape_min s1 s2 = s1 ∧ shape_leb s1 s2 = true) ∨
  (shape_min s1 s2 = s2 ∧ shape_leb s2 s1 = true).
Proof.
  unfold shape_min. destruct (shape_leb s1 s2) eqn:E; [by left|]. right.
  split; [done|]. unfold shape_leb in *.
  destruct (cells_leb_total (sorted_cells s1) (sorted_cells s2)); congruence.
Qed.

Lemma foldr_shape_min (o : Shape) (l : list Shape) :
  foldr shape_min o l ∈ o :: l ∧
  ∀ o', o' ∈ o :: l → shape_leb (foldr shape_min o l) o' = true.
Proof.
  assert (∀ s : Shape, shape_leb s s = true) as Hrefl.
  { intros s. unfold shape_leb. by destruct (cells_leb_total (sorted_cells s) (sorted_cells s)). }
  induction l as [|x l [IHin IHle]]; simpl.
  - split; [by left|]. by intros o' ->%list_elem_of_singleton.
  - destruct (shape_min_cases x (foldr shape_min o l)) as [[-> Hle]|[-> Hle]].
    + split; [right; by left|]. intros o' Ho'.
      assert (o' = x ∨ o' ∈ o :: l) as [->|Hin].
      { apply elem_of_cons in Ho' as [->|[->|?]%elem_of_cons];
          [right; by left | by left | right; by right]. }
      * apply Hrefl.
      * unfold shape_leb in *. eapply cells_leb_trans; [exact Hle | by apply IHle].
    + split.
      * apply elem_of_cons in IHin as [->|?]; [by left | right; by right].
      * intros o' Ho'.
        assert (o' = x ∨ o' ∈ o :: l) as [->|Hin].
        { apply elem_of_cons in Ho' as [->|[->|?]%elem_of_cons];
            [right; by left | by left | right; by right]. }
        -- done.
        -- by apply IHle.
Qed.

Lemma smallest_shape_spec (os : gset Shape) :
  os ≠ ∅ →
  smallest_shape os ∈ os ∧ ∀ o, o ∈ os → shape_leb (smallest_shape os) o = true.
Proof.
  intros Hne. unfold smallest_shape. destruct (elements os) as [|o l] eqn:E.
  - by apply elements_empty_inv, leibniz_equiv in E.
  - destruct (foldr_shape_min o l) as [Hin Hle]. rewrite <- E in Hin, Hle.
    split; [by apply elem_of_elements|]. intros o' Ho'. apply Hle.
    by apply elem_of_elements.
Qed.

Lemma min_of_spec l : l ≠ [] → min_of l ∈ l ∧ ∀ x, x ∈ l → min_of l ≤ x.
Proof.
  destruct l as [|x0 l]; [done|]. intros _. simpl.
  induction l as [|y l [IHin IHle]]; simpl.
  - split; [by left|]. intros x ->%list_elem_of_singleton. lia.
  - split.
    + destruct (Z.min_spec y (foldr Z.min x0 l)) as [[_ ->]|[_ ->]].
      * right. by left.
      * apply elem_of_cons in IHin as [->|?]; [by left | by right; right].
    + intros x Hx. apply elem_of_cons in Hx as [Hx|Hx].
      * assert (foldr Z.min x0 l ≤ x) by (apply IHle; subst; by left). lia.
      * apply elem_of_cons in Hx as [->|Hx]; [lia|].
        assert (foldr Z.min x0 l ≤ x) by (apply IHle; by right). lia.
Qed.

(** [m] is the least value of [proj] on the cells of [s]. *)
Definition least_of (proj : Cell → Z) (s : Shape) (m : Z) : Prop :=
  (∃ c, c ∈ s ∧ proj c = m) ∧ ∀ c, c ∈ s → m ≤ proj c.

Lemma least_of_unique (proj : Cell → Z) (s : Shape) (m m' : Z) :
  least_of proj s m → least_of proj s m' → m = m'.
Proof.
  intros [(c & Hc & <-) Hle] [(c' & Hc' & <-) Hle'].
  specialize (Hle c' Hc'). specialize (Hle' c Hc). lia.
Qed.

Lemma least_of_min (proj : Cell → Z) (s : Shape) :
  s ≠ ∅ → least_of proj s (min_of (proj <$> elements s)).
Proof.
  intros Hne. destruct (min_of_spec (proj <$> elements s)) as [Hin Hle].
  { intros Hnil%fmap_nil_inv. by apply elements_empty_inv, leibniz_equiv in Hnil. }
  split.
  - apply list_elem_of_fmap in Hin as (c & -> & Hc). exists c.
    split; [by apply elem_of_elements | done].
  - intros c Hc. apply Hle. apply list_elem_of_fmap. exists c.
    split; [done | by apply elem_of_elements].
Qed.

Lemma min_row_spec s : s ≠ ∅ → least_of fst s (min_row s).
Proof. apply least_of_min. Qed.

Lemma min_col_spec s : s ≠ ∅ → least_of snd s (min_col s).
Proof. apply least_of_min. Qed.

Lemma elem_of_translate d s (c : Cell) :
  c ∈ translate d s ↔ (c.1 - d.1, c.2 - d.2) ∈ s.
Proof.
  unfold translate. rewrite elem_of_map. split.
  - intros ([r k] & -> & Hc). simpl. by replace (r + d.1 - d.1) with r by lia;
      replace (k + d.2 - d.2) with k by lia.
  - intros Hc. eexists. split; [|done]. destruct c as [r k]. simpl. f_equal; lia.
Qed.

Lemma translate_nonempty d s : s ≠ ∅ → translate d s ≠ ∅.
Proof.
  intros [[r k] Hc]%set_choose_L Heq.
  assert ((r + d.1, k + d.2) ∈ translate d s) as Hin.
  { apply elem_of_translate. simpl.
    by replace (r + d.1 - d.1) with r by lia; replace (k + d.2 - d.2) with k by lia. }
  rewrite Heq in Hin. by apply not_elem_of_empty in Hin.
Qed.

Lemma set_map_nonempty (f : Cell → Cell) (s : Shape) :
  s ≠ ∅ → (set_map f s : Shape) ≠ ∅.
Proof.
  intros [c Hc]%set_choose_L Heq.
  assert (f c ∈ (set_map f s : Shape)) as Hin by (by apply elem_of_map_2).
  rewrite Heq in Hin. by apply not_elem_of_empty in Hin.
Qed.

Lemma translate_translate d d' s :
  translate d (translate d' s) = translate (d'.1 + d.1, d'.2 + d.2) s.
Proof.
  apply set_eq. intros [r k]. rewrite !elem_of_translate. simpl.
  by replace (r - d.1 - d'.1) with (r - (d'.1 + d.1)) by lia;
    replace (k - d.2 - d'.2) with (k - (d'.2 + d.2)) by lia.
Qed.

Lemma min_row_translate d s : s ≠ ∅ → min_row (translate d s) = min_row s + d.1.
Proof.
  intros Hne. eapply least_of_unique.
  - apply min_row_spec. by apply translate_nonempty.
  - destruct (min_row_spec s Hne) as [([r k] & Hc & Hm) Hle]. simpl in Hm. split.
    + exists (r + d.1, k + d.2). split; [|simpl; lia].
      apply elem_of_translate. simpl.
      by replace (r + d.1 - d.1) with r by lia; replace (k + d.2 - d.2) with k by lia.
    + intros [r' k'] Hc'%elem_of_translate. specialize (Hle _ Hc'). simpl in *. lia.
Qed.

Lemma min_col_translate d s : s ≠ ∅ → min_col (translate d s) = min_col s + d.2.
Proof.
  intros Hne. eapply least_of_unique.
  - apply min_col_spec. by apply translate_nonempty.
  - destruct (min_col_spec s Hne) as [([r k] & Hc & Hm) Hle]. simpl in Hm. split.
    + exists (r + d.1, k + d.2). split; [|simpl; lia].
      apply elem_of_translate. simpl.
      by replace (r + d.1 - d.1) with r by lia; replace (k + d.2 - d.2) with k by lia.
    + intros [r' k'] Hc'%elem_of_translate. specialize (Hle _ Hc'). simpl in *. lia.
Qed.

Lemma normalize_translate d s : s ≠ ∅ → normalize (translate d s) = normalize s.
Proof.
  intros Hne. unfold normalize.
  rewrite min_row_translate, min_col_translate, translate_translate by done.
  simpl. f_equal. f_equal; lia.
Qed.

Lemma transform_add t (c d : Cell) :
  transform t (c.1 + d.1, c.2 + d.2)
  = ((transform t c).1 + (transform t d).1, (transform t c).2 + (transform t d).2).
Proof. destruct t, c, d; simpl; f_equal; lia. Qed.

Lemma set_map_transform_translate t d s :
  (set_map (transform t) (translate d s) : Shape)
  = translate (transform t d) (set_map (transform t) s).
Proof.
  apply set_eq. intros c. unfold translate. rewrite !elem_of_map. split.
  - intros (c1 & -> & (c0 & -> & Hc0)%elem_of_map).
    exists (transform t c0). split; [apply transform_add | by apply elem_of_map_2].
  - intros (c1 & -> & (c0 & -> & Hc0)%elem_of_map).
    exists (c0.1 + d.1, c0.2 + d.2). split; [by rewrite transform_add|].
    apply elem_of_map. by exists c0.
Qed.

(** The symmetry that undoes [t]. *)
Definition inverse (t : Symmetry) : Symmetry :=
  match t with
  | SwapNegRow => SwapNegCol
  | SwapNegCol => SwapNegRow
  | t => t
  end.

(** A symmetry is determined by what it does to the cell [(1, 2)]. *)
Definition compose (t t' : Symmetry) : Symmetry :=
  default Keep
    (head (filter (λ u, transform u (1, 2) = transform t (transform t' (1, 2)))
                  all_symmetries)).

Lemma transform_compose t t' c :
  transform (compose t t') c = transform t (transform t' c).
Proof.
  destruct t, t', c as [r k];
    match goal with
    | |- transform ?u _ = _ => let v := eval vm_compute in u in change u with v
    end;
    simpl; f_equal; lia.
Qed.

Lemma transform_inverse t c : transform (inverse t) (transform t c) = c.
Proof. destruct t, c as [r k]; simpl; f_equal; lia. Qed.

Lemma elem_of_all_symmetries t : t ∈ all_symmetries.
Proof. unfold all_symmetries. destruct t; set_solver. Qed.

Lemma set_map_transform_compose (t t' : Symmetry) (s : Shape) :
  (set_map (transform t) (set_map (transform t') s : Shape) : Shape)
  = set_map (transform (compose t t')) s.
Proof.
  apply set_eq. intros c. rewrite !elem_of_map. split.
  - intros (c1 & -> & (c0 & -> & Hc0)%elem_of_map).
    exists c0. by rewrite transform_compose.
  - intros (c0 & -> & Hc0). exists (transform t' c0).
    split; [by rewrite transform_compose | by apply elem_of_map_2].
Qed.

Lemma orientation_of_image (t u : Symmetry) (d : Cell) (s : Shape) :
  s ≠ ∅ →
  orientation_of t (translate d (set_map (transform u) s)) = orientation_of (compose t u) s.
Proof.
  intros Hne. unfold orientation_of.
  rewrite set_map_transform_translate, set_map_transform_compose.
  apply normalize_translate. by apply set_map_nonempty.
Qed.

Lemma set_map_transform_ext (t u : Symmetry) (s : Shape) :
  (∀ c, transform t c = transform u c) →
  (set_map (transform t) s : Shape) = set_map (transform u) s.
Proof.
  intros Hext. apply set_eq. intros c. rewrite !elem_of_map.
  split; intros (c0 & -> & Hc0); exists c0; by rewrite Hext.
Qed.

Lemma elem_of_orientation_set (o s : Shape) :
  o ∈ orientation_set s ↔ ∃ t, o = orientation_of t s.
Proof.
  unfold orientation_set. rewrite elem_of_list_to_set, list_elem_of_fmap. split.
  - intros (t & -> & _). by exists t.
  - intros (t & ->). exists t. split; [done | apply elem_of_all_symmetries].
Qed.

Lemma orientation_set_image (u : Symmetry) (d : Cell) (s : Shape) :
  s ≠ ∅ →
  orientation_set (translate d (set_map (transform u) s)) = orientation_set s.
Proof.
  intros Hne. apply set_eq. intros o. rewrite !elem_of_orientation_set. split.
  - intros (t & ->). exists (compose t u). by apply orientation_of_image.
  - intros (t & ->). exists (compose t (inverse u)).
    rewrite orientation_of_image by done. unfold orientation_of. f_equal.
    apply set_map_transform_ext. intros c.
    by rewrite !transform_compose, transform_inverse.
Qed.

Lemma orientation_nonempty (t : Symmetry) (s : Shape) :
  s ≠ ∅ → orientation_of t s ≠ ∅.
Proof. intros. unfold orientation_of, normalize. by apply translate_nonempty, set_map_nonempty. Qed.

(** * The cell queries of a well-formed board *)

Lemma collect_cells_spec b keep todo :
  board_wf b → (∀ cell, cell ∈ todo → cell ∈ grid_positions b) →
  collect_cells (cells b) keep todo
  = Ok (list_to_set (filter (λ c : Cell, keep (content b c.1 c.2) = true) todo)).
Proof.
  intros Hwf. induction todo as [|[row col] todo IH]; intros Hin; csimpl; [done|].
  assert ((row, col) ∈ grid_positions b) as [? ?]%elem_of_grid_positions
    by (apply Hin; by left).
  rewrite grid_get_board; [|by apply wf_dims|done..]. cbn [rbind].
  rewrite IH by (intros cell Hc; apply Hin; by right). cbn [rbind].
  rewrite filter_cons. simpl. destruct (keep (content b row col)) eqn:E.
  - by rewrite decide_True.
  - by rewrite decide_False by (by intros ?).
Qed.

Lemma NoDup_grid_positions b : NoDup (grid_positions b).
Proof.
  unfold grid_positions, range. apply NoDup_bind.
  - intros r1 r2 [row col] _ _ (c1 & Hc1 & _)%list_elem_of_bind
      (c2 & Hc2 & _)%list_elem_of_bind.
    apply list_elem_of_singleton in Hc1, Hc2. by simplify_eq.
  - intros row _. apply NoDup_bind.
    + intros c1 c2 [row' col] _ _ Hc1%list_elem_of_singleton Hc2%list_elem_of_singleton.
      by simplify_eq.
    + intros. apply NoDup_singleton.
    + apply NoDup_seqZ.
  - apply NoDup_seqZ.
Qed.

Lemma length_grid_positions b :
  0 ≤ width b → 0 ≤ height b →
  Z.of_nat (length (grid_positions b)) = width b * height b.
Proof.
  intros Hw Hh. unfold grid_positions, range.
  assert (∀ row : Z, length (seqZ 0 (width b) ≫= (λ col, [(row, col)]))
                     = Z.to_nat (width b)) as Hrow.
  { intros row. rewrite <- (length_seqZ 0 (width b)).
    induction (seqZ 0 (width b)) as [|c l IH]; csimpl; [done | by rewrite IH]. }
  assert (∀ l : list Z,
            length (l ≫= (λ row, seqZ 0 (width b) ≫= (λ col, [(row, col)])))
            = (length l * Z.to_nat (width b))%nat) as Hall.
  { induction l as [|r l IH]; csimpl; [done|]. by rewrite length_app, Hrow, IH. }
  rewrite Hall, length_seqZ. lia.
Qed.

Lemma length_filter_split {A} (f : A → Slot) (l : list A) :
  (length (filter (λ c, is_not_None (f c) = true) l)
   + length (filter (λ c, is_None (f c) = true) l))%nat = length l.
Proof.
  induction l as [|x l IH]; [done|]. rewrite !filter_cons.
  unfold is_not_None, is_None in *. destruct (f x) as [v|]; simpl; lia.
Qed.

Lemma get_piece_at_blocked b cell :
  board_wf b → cell ∈ blocked_cells b → get_piece_at b cell = Ok (Some (-1)).
Proof.
  intros Hwf Hbl. destruct cell as [row col]. simpl.
  destruct (wf_blocked_in b Hwf row col Hbl) as [? ?].
  rewrite grid_get_board; [|by apply wf_dims|done..]. f_equal.
  by apply wf_marker_Z.
Qed.

Lemma board_queries b :
  board_wf b →
  ∃ occupied empty,
    get_occupied_cells b = Ok occupied ∧ get_empty_cells b = Ok empty ∧
    (∀ cell, cell ∈ occupied ↔
             cell ∈ grid_positions b ∧ content b cell.1 cell.2 ≠ None) ∧
    (∀ cell, cell ∈ empty ↔
             cell ∈ grid_positions b ∧ content b cell.1 cell.2 = None) ∧
    Z.of_nat (size occupied) + Z.of_nat (size empty) = width b * height b.
Proof.
  intros Hwf. unfold get_occupied_cells, get_empty_cells.
  rewrite !collect_cells_spec by done. eexists _, _. split_and!; [done..| | |].
  - intros cell. rewrite elem_of_list_to_set, list_elem_of_filter.
    unfold is_not_None. rewrite bool_decide_eq_true. tauto.
  - intros cell. rewrite elem_of_list_to_set, list_elem_of_filter.
    unfold is_None. rewrite bool_decide_eq_true. tauto.
  - rewrite !size_list_to_set by apply NoDup_filter, NoDup_grid_positions.
    rewrite <- Nat2Z.inj_add, length_filter_split.
    destruct Hwf. apply length_grid_positions; lia.
Qed.

(** * Concrete inputs used by the examples below *)

(** A stand-in for Python's [hash] where an example needs to run the code:
    any function that never returns [-1] will do. *)
Definition example_hash (s : Shape) : Z := Z.of_nat (size s).

Lemma example_hash_not_marker : ∀ s, example_hash s ≠ -1.
Proof. intros s. unfold example_hash. lia. Qed.

Definition monomino : Shape := {[ (0, 0) ]}.
Definition domino : Shape := {[ (0, 0); (0, 1) ]}.
Definition L_tromino : Shape := {[ (0, 0); (1, 0); (0, 1) ]}.
Definition L_tromino_turned : Shape := {[ (0, 0); (0, 1); (1, 1) ]}.
Definition I_tromino : Shape := {[ (0, 0); (0, 1); (0, 2) ]}.

(** [GameBoard(width=2, height=1)] *)
Definition board_2x1 : GameBoard := mkBoard 2 1 [[None; None]] ∅.

(** [GameBoard(width=2, height=2)] *)
Definition board_2x2 : GameBoard := mkBoard 2 2 [[None; None]; [None; None]] ∅.

(** [GameBoard(width=1, height=1, blocked_cells={(0, 0)})] *)
Definition board_1x1_blocked : GameBoard := mkBoard 1 1 [[Some (-1)]] {[ (0, 0) ]}.

Lemma board_2x1_init : GameBoard_init 2 1 None = Ok board_2x1.
Proof. vm_compute. reflexivity. Qed.

Lemma board_2x2_init : GameBoard_init 2 2 None = Ok board_2x2.
Proof. vm_compute. reflexivity. Qed.

Lemma board_1x1_blocked_init :
  GameBoard_init 1 1 (Some {[ (0, 0) ]}) = Ok board_1x1_blocked.
Proof. vm_compute. reflexivity. Qed.

(** * The claims *)

Definition out_of_range_error (r : result GameBoard) : Prop :=
  r = Raise (ValueError WidthOutOfRange) ∨ r = Raise (ValueError HeightOutOfRange).

Definition invalid_blocked_cell_error (r : result GameBoard) : Prop :=
  ∃ cell, r = Raise (ValueError (BlockedOutOfBounds cell)).

(** The blocked cells handed to the constructor ([None] stands for none). *)
Definition supplied_blocked (blocked : option (gset Cell)) : gset Cell :=
  default ∅ blocked.

(** C9.  Constructing a board fails with an out-of-range error exactly when
    the width or the height is outside [1, 50]; it fails with an
    invalid-blocked-cell error exactly when the dimensions are in range and
    some blocked cell lies outside the grid; and it succeeds exactly in the
    remaining case. *)
Theorem GameBoard_init_errors (w h : Z) (blocked : option (gset Cell)) :
  (out_of_range_error (GameBoard_init w h blocked) ↔
     ¬ (1 ≤ w ≤ 50) ∨ ¬ (1 ≤ h ≤ 50)) ∧
  (invalid_blocked_cell_error (GameBoard_init w h blocked) ↔
     (1 ≤ w ≤ 50 ∧ 1 ≤ h ≤ 50) ∧
     ∃ cell, cell ∈ supplied_blocked blocked ∧ ¬ cell_in_range w h cell) ∧
  ((∃ b, GameBoard_init w h blocked = Ok b) ↔
     (1 ≤ w ≤ 50 ∧ 1 ≤ h ≤ 50) ∧
     ∀ cell, cell ∈ supplied_blocked blocked → cell_in_range w h cell).
Proof.
  unfold out_of_range_error, invalid_blocked_cell_error, GameBoard_init.
  case_bool_decide as Hw; cbn [negb]; cycle 1.
  { split_and!; split; try naive_solver. }
  case_bool_decide as Hh; cbn [negb]; cycle 1.
  { split_and!; split; try naive_solver. }
  set (todo := match blocked with None => [] | Some s => elements s end).
  assert (∀ cell, cell ∈ todo ↔ cell ∈ supplied_blocked blocked) as Htodo.
  { intros cell. subst todo. destruct blocked as [s|]; simpl.
    - apply elem_of_elements.
    - split; [by intros ?%elem_of_nil | by intros ?%not_elem_of_empty]. }
  pose proof (grid_dims_replicate (Z.to_nat h) (Z.to_nat w) None) as Hd0.
  destruct (decide (Forall (cell_in_range w h) todo)) as [Hall|Hall].
  - destruct (init_blocked_ok w h todo _ ∅ Hd0 Hall) as (g' & -> & _).
    cbn [rbind]. rewrite Forall_forall in Hall. split_and!; split.
    + by intros [?|?].
    + intros [?|?]; lia.
    + by intros [? ?].
    + intros (_ & cell & Hc & Hout). destruct Hout. apply Hall. by apply Htodo.
    + intros _. split; [done|]. intros cell Hc. apply Hall. by apply Htodo.
    + intros _. by eexists.
  - destruct (init_blocked_fail w h todo _ ∅ Hd0 Hall) as (cell & Hc & Hout & ->).
    cbn [rbind]. split_and!; split.
    + by intros [?|?].
    + intros [?|?]; lia.
    + intros _. split; [done|]. exists cell. split; [by apply Htodo | done].
    + intros _. by eexists.
    + by intros [? ?].
    + intros [_ Hin]. destruct Hout. apply Hin. by apply Htodo.
Qed.

(** C5.  On a board that a program can hold, when [can_place_shape] returns
    [True], [place_shape] followed by [remove_shape] of the same shape and
    position succeeds and gives back exactly the board from before. *)
Theorem place_remove_round_trip (hash : Shape → Z) (b : GameBoard)
    (shape : Shape) (position : Cell) :
  (∀ s, hash s ≠ -1) →
  reachable hash b →
  can_place_shape b shape position = Ok true →
  ∃ b1, place_shape hash b shape position = Ok b1 ∧
        remove_shape hash b1 shape position = Ok b.
Proof.
  intros Hhash Hreach Hcan.
  destruct (place_then_remove hash Hhash b shape position) as (b1 & ? & _ & ?);
    [by eapply reachable_wf | done |].
  by exists b1.
Qed.

Lemma place_remove_round_trip_witness :
  (∀ s, example_hash s ≠ -1) ∧
  reachable example_hash board_2x2 ∧
  can_place_shape board_2x2 L_tromino (0, 0) = Ok true ∧
  ∃ b1, place_shape example_hash board_2x2 L_tromino (0, 0) = Ok b1 ∧
        remove_shape example_hash b1 L_tromino (0, 0) = Ok board_2x2.
Proof.
  assert (reachable example_hash board_2x2) as Hreach.
  { apply (reach_init example_hash 2 2 None). vm_compute. reflexivity. }
  assert (can_place_shape board_2x2 L_tromino (0, 0) = Ok true) as Hcan.
  { vm_compute. reflexivity. }
  split; [exact example_hash_not_marker|]. split; [exact Hreach|].
  split; [exact Hcan|].
  exact (place_remove_round_trip example_hash board_2x2 L_tromino (0, 0)
           example_hash_not_marker Hreach Hcan).
Defined.

(** C3 (as the code has it).  On every board reachable from a valid
    construction by [place_shape], [remove_shape] and [clear], the occupied
    and the empty cells are disjoint and together make up the grid, so their
    sizes sum to width × height.  The blocked cells are part of the occupied
    cells ([get_occupied_cells] keeps every slot that is not [None], the
    blocked marker included), so it is occupied-without-blocked, empty and
    blocked that partition the grid.  A blocked cell is never empty and never
    carries the tag of a shape: it holds the marker [-1]. *)
Theorem board_cell_partition (hash : Shape → Z) (b : GameBoard) :
  (∀ s, hash s ≠ -1) →
  reachable hash b →
  ∃ occupied empty,
    get_occupied_cells b = Ok occupied ∧ get_empty_cells b = Ok empty ∧
    occupied ∩ empty = ∅ ∧
    (∀ cell : Cell, cell ∈ occupied ∪ empty ↔
                    0 ≤ cell.1 < height b ∧ 0 ≤ cell.2 < width b) ∧
    Z.of_nat (size occupied) + Z.of_nat (size empty) = width b * height b ∧
    get_blocked_cells b ⊆ occupied ∧
    Z.of_nat (size (occupied ∖ get_blocked_cells b)) + Z.of_nat (size empty)
      + Z.of_nat (size (get_blocked_cells b)) = width b * height b ∧
    (∀ cell, cell ∈ get_blocked_cells b →
             (cell ∉ empty) ∧ get_piece_at b cell = Ok (Some (-1)) ∧
             ∀ s, get_piece_at b cell ≠ Ok (Some (hash s))).
Proof.
  intros Hhash Hreach. pose proof (reachable_wf hash Hhash b Hreach) as Hwf.
  destruct (board_queries b Hwf) as (occ & emp & Ho & He & Hocc & Hemp & Hsize).
  assert (get_blocked_cells b ⊆ occ) as Hsub.
  { intros [row col] Hbl. apply Hocc. simpl.
    destruct (wf_blocked_in b Hwf row col Hbl) as [? ?]. split.
    - by apply elem_of_grid_positions.
    - apply (wf_marker_Z b row col Hwf) in Hbl; [|done..]. by rewrite Hbl. }
  exists occ, emp. split_and!; [done | done | | | done | done | |].
  - apply set_eq. intros cell. rewrite elem_of_intersection, Hocc, Hemp.
    split; [|by intros ?%not_elem_of_empty]. intros [[_ ?] [_ ?]]. done.
  - intros [row col]. rewrite elem_of_union, Hocc, Hemp, elem_of_grid_positions.
    simpl. destruct (content b row col); split; try tauto.
    intros [? ?]. by left.
  - rewrite size_difference by done.
    pose proof (subseteq_size _ _ Hsub). lia.
  - intros cell Hbl. pose proof (get_piece_at_blocked b cell Hwf Hbl) as Hget.
    split_and!; [|done|].
    + intros [_ Hnone]%Hemp. destruct cell as [row col]. simpl in *.
      destruct (wf_blocked_in b Hwf row col Hbl) as [? ?].
      apply (wf_marker_Z b row col Hwf) in Hbl; [|done..]. congruence.
    + intros s. rewrite Hget. intros [= Heq]. by destruct (Hhash s).
Qed.

Lemma board_cell_partition_witness :
  (∀ s, example_hash s ≠ -1) ∧
  reachable example_hash board_1x1_blocked ∧
  ∃ occupied empty,
    get_occupied_cells board_1x1_blocked = Ok occupied ∧
    get_empty_cells board_1x1_blocked = Ok empty ∧
    occupied ∩ empty = ∅ ∧
    (∀ cell : Cell, cell ∈ occupied ∪ empty ↔
                    0 ≤ cell.1 < height board_1x1_blocked ∧
                    0 ≤ cell.2 < width board_1x1_blocked) ∧
    Z.of_nat (size occupied) + Z.of_nat (size empty)
      = width board_1x1_blocked * height board_1x1_blocked ∧
    get_blocked_cells board_1x1_blocked ⊆ occupied ∧
    Z.of_nat (size (occupied ∖ get_blocked_cells board_1x1_blocked))
      + Z.of_nat (size empty)
      + Z.of_nat (size (get_blocked_cells board_1x1_blocked))
      = width board_1x1_blocked * height board_1x1_blocked ∧
    (∀ cell, cell ∈ get_blocked_cells board_1x1_blocked →
             (cell ∉ empty) ∧ get_piece_at board_1x1_blocked cell = Ok (Some (-1)) ∧
             ∀ s, get_piece_at board_1x1_blocked cell ≠ Ok (Some (example_hash s))).
Proof.
  assert (reachable example_hash board_1x1_blocked) as Hreach.
  { apply (reach_init example_hash 1 1 (Some {[ (0, 0) ]})). vm_compute. reflexivity. }
  split; [exact example_hash_not_marker|]. split; [exact Hreach|].
  exact (board_cell_partition example_hash board_1x1_blocked
           example_hash_not_marker Hreach).
Defined.

(** C3, as stated, fails: on the 1 × 1 board whose only cell is blocked,
    that cell is in the occupied set and in the blocked set, and the three
    sizes sum to 2, not to 1. *)
Lemma blocked_cell_counted_as_occupied :
  GameBoard_init 1 1 (Some {[ (0, 0) ]}) = Ok board_1x1_blocked ∧
  ∃ occupied empty,
    get_occupied_cells board_1x1_blocked = Ok occupied ∧
    get_empty_cells board_1x1_blocked = Ok empty ∧
    (0, 0) ∈ occupied ∩ get_blocked_cells board_1x1_blocked ∧
    Z.of_nat (size occupied) + Z.of_nat (size empty)
      + Z.of_nat (size (get_blocked_cells board_1x1_blocked))
    ≠ width board_1x1_blocked * height board_1x1_blocked.
Proof.
  split; [exact board_1x1_blocked_init|].
  exists {[ (0, 0) ]}, ∅. split_and!.
  - vm_compute. reflexivity.
  - vm_compute. reflexivity.
  - set_solver.
  - vm_compute. discriminate.
Qed.

(** [remove_shape] looks at the tags only: with the translated cells inside
    the board, it succeeds exactly when each of them holds [hash(shape)]. *)
Lemma remove_shape_succeeds_iff (hash : Shape → Z) (b : GameBoard) (shape : Shape)
    (position : Cell) :
  board_wf b →
  (∀ cell : Cell, cell ∈ shape →
     0 ≤ position.1 + cell.1 < height b ∧ 0 ≤ position.2 + cell.2 < width b) →
  (∃ b', remove_shape hash b shape position = Ok b') ↔
  (∀ cell : Cell, cell ∈ shape →
     get_piece_at b (position.1 + cell.1, position.2 + cell.2) = Ok (Some (hash shape))).
Proof.
  intros Hwf Hin.
  assert (∀ cell : Cell, cell ∈ shape →
            get_piece_at b (position.1 + cell.1, position.2 + cell.2)
            = Ok (content b (position.1 + cell.1) (position.2 + cell.2))) as Hget.
  { intros cell Hc. destruct (Hin cell Hc) as [? ?]. simpl.
    apply grid_get_board; [by apply wf_dims | done..]. }
  split.
  - intros [b' Hrm] cell Hc. rewrite (Hget cell Hc). do 2 f_equal.
    unfold remove_shape in Hrm.
    destruct (check_cells _ _ _ _) as [[]|] eqn:Hchk; [|done].
    rewrite (check_cells_spec _ _ _ _ _ _ (wf_dims b Hwf)) in Hchk.
    destruct (Hchk cell) as (i & j & Hn & Hs); [by apply elem_of_elements|].
    destruct (Hin cell Hc) as [? ?]. rewrite norm_pos_board in Hn by done.
    by simplify_eq.
  - intros Hall. apply remove_shape_ok; [done | |].
    + intros i j (cell & Hc & Hi & Hj)%hits_in_bounds.
      2:{ intros cell Hc. apply Hin. by apply elem_of_elements. }
      apply elem_of_elements in Hc. specialize (Hall cell Hc).
      rewrite (Hget cell Hc) in Hall. injection Hall as Hall.
      unfold content in Hall. by rewrite Hi, Hj, !Nat2Z.id in Hall.
    + intros cell Hc%elem_of_elements. destruct (Hin cell Hc) as [? ?].
      by rewrite norm_pos_board.
Qed.

(** C4 (as the code has it).  A successful [place_shape] writes
    [hash(shape)] into every translated cell.  The tag is determined by the
    shape alone: whatever the boards and the positions, two placements of
    the same shape write the same tag.  The tag does not tell placements
    apart for removal either: [remove_shape] of the shape at a position
    (with the translated cells inside the board) succeeds exactly when each
    translated cell holds [hash(shape)], whichever placements wrote it. *)
Theorem place_shape_tag (hash : Shape → Z) (shape : Shape)
    (b1 b1' b2 b2' : GameBoard) (position1 position2 cell1 cell2 : Cell) :
  (∀ s, hash s ≠ -1) →
  reachable hash b1 → reachable hash b2 →
  place_shape hash b1 shape position1 = Ok b1' →
  place_shape hash b2 shape position2 = Ok b2' →
  cell1 ∈ shape → cell2 ∈ shape →
  get_piece_at b1' (position1.1 + cell1.1, position1.2 + cell1.2)
    = Ok (Some (hash shape)) ∧
  get_piece_at b2' (position2.1 + cell2.1, position2.2 + cell2.2)
    = Ok (Some (hash shape)) ∧
  ∀ (b : GameBoard) (position : Cell),
    reachable hash b →
    (∀ cell : Cell, cell ∈ shape →
       0 ≤ position.1 + cell.1 < height b ∧ 0 ≤ position.2 + cell.2 < width b) →
    (∃ b', remove_shape hash b shape position = Ok b') ↔
    (∀ cell : Cell, cell ∈ shape →
       get_piece_at b (position.1 + cell.1, position.2 + cell.2)
       = Ok (Some (hash shape))).
Proof.
  intros Hhash Hr1 Hr2 Hp1 Hp2 Hc1 Hc2.
  assert (∀ b b' position cell,
            reachable hash b → place_shape hash b shape position = Ok b' →
            cell ∈ shape →
            get_piece_at b' (position.1 + cell.1, position.2 + cell.2)
            = Ok (Some (hash shape))) as Hone.
  { clear - Hhash. intros b b' position cell Hr Hp Hc.
    pose proof (reachable_wf hash Hhash b Hr) as Hwf.
    pose proof (place_shape_inv hash b shape position b' Hwf Hp) as Hcan.
    destruct (place_shape_spec hash b shape position Hwf Hcan)
      as (g' & Hp' & Hd' & Hhit & _).
    rewrite Hp' in Hp. simplify_eq.
    apply elem_of_elements in Hc.
    destruct (can_place_shape_true b shape position Hwf Hcan cell Hc) as ([? ?] & _).
    unfold get_piece_at. simpl.
    rewrite (grid_get_dims _ _ _ _ _ Hd'), norm_pos_board by done. f_equal.
    apply Hhit. apply hits_iff. exists cell. split; [done|]. by apply norm_pos_board. }
  split_and!; [by eauto | by eauto |].
  intros b position Hr Hin. apply remove_shape_succeeds_iff; [|done].
  by apply (reachable_wf hash).
Qed.

(** The 2 × 1 board after a monomino was placed at [(0, 0)], and after a
    second one was placed at [(0, 1)]. *)
Definition board_2x1_one : GameBoard :=
  mkBoard 2 1 [[Some (example_hash monomino); None]] ∅.
Definition board_2x1_two : GameBoard :=
  mkBoard 2 1 [[Some (example_hash monomino); Some (example_hash monomino)]] ∅.

Lemma place_shape_tag_witness :
  (∀ s, example_hash s ≠ -1) ∧
  reachable example_hash board_2x1 ∧ reachable example_hash board_2x1_one ∧
  place_shape example_hash board_2x1 monomino (0, 0) = Ok board_2x1_one ∧
  place_shape example_hash board_2x1_one monomino (0, 1) = Ok board_2x1_two ∧
  (0, 0) ∈ monomino ∧
  get_piece_at board_2x1_one (0 + 0, 0 + 0) = Ok (Some (example_hash monomino)) ∧
  get_piece_at board_2x1_two (0 + 0, 1 + 0) = Ok (Some (example_hash monomino)) ∧
  ∀ (b : GameBoard) (position : Cell),
    reachable example_hash b →
    (∀ cell : Cell, cell ∈ monomino →
       0 ≤ position.1 + cell.1 < height b ∧ 0 ≤ position.2 + cell.2 < width b) →
    (∃ b', remove_shape example_hash b monomino position = Ok b') ↔
    (∀ cell : Cell, cell ∈ monomino →
       get_piece_at b (position.1 + cell.1, position.2 + cell.2)
       = Ok (Some (example_hash monomino))).
Proof.
  assert (reachable example_hash board_2x1) as Hr1.
  { apply (reach_init example_hash 2 1 None). vm_compute. reflexivity. }
  assert (place_shape example_hash board_2x1 monomino (0, 0) = Ok board_2x1_one) as Hp1.
  { vm_compute. reflexivity. }
  assert (place_shape example_hash board_2x1_one monomino (0, 1) = Ok board_2x1_two) as Hp2.
  { vm_compute. reflexivity. }
  assert (reachable example_hash board_2x1_one) as Hr2.
  { exact (reach_place example_hash _ _ _ _ Hr1 Hp1). }
  assert ((0, 0) ∈ monomino) as Hc.
  { unfold monomino. apply elem_of_singleton. reflexivity. }
  split; [exact example_hash_not_marker|]. split; [exact Hr1|]. split; [exact Hr2|].
  split; [exact Hp1|]. split; [exact Hp2|]. split; [exact Hc|].
  exact (place_shape_tag example_hash monomino board_2x1 board_2x1_one
           board_2x1_one board_2x1_two (0, 0) (0, 1) (0, 0) (0, 0)
           example_hash_not_marker Hr1 Hr2 Hp1 Hp2 Hc Hc).
Defined.

(** The 4 × 1 board with a domino at [(0, 0)] and a domino at [(0, 2)], and
    what [remove_shape] of a domino at [(0, 1)] leaves of it. *)
Definition board_4x1 : GameBoard := mkBoard 4 1 [[None; None; None; None]] ∅.
Definition board_4x1_one : GameBoard :=
  mkBoard 4 1 [[Some (example_hash domino); Some (example_hash domino); None; None]] ∅.
Definition board_4x1_two : GameBoard :=
  mkBoard 4 1 [[Some (example_hash domino); Some (example_hash domino);
                Some (example_hash domino); Some (example_hash domino)]] ∅.
Definition board_4x1_halves : GameBoard :=
  mkBoard 4 1 [[Some (example_hash domino); None; None; Some (example_hash domino)]] ∅.

(** C4, as stated, fails: two monominoes placed one after the other at
    [(0, 0)] and at [(0, 1)] of a 2 × 1 board are two distinct successful
    placements of the same shape, and both cells carry the same tag.  (The
    tag is [hash(shape)] whatever [hash] is, see [place_shape_tag].)  Nor
    are placements of the same shape told apart for removal: with dominoes
    placed at [(0, 0)] and at [(0, 2)] of a 4 × 1 board, [remove_shape] of
    a domino at [(0, 1)], where none was placed, succeeds and takes one
    half of each. *)
Lemma same_shape_same_tag :
  GameBoard_init 2 1 None = Ok board_2x1 ∧
  place_shape example_hash board_2x1 monomino (0, 0) = Ok board_2x1_one ∧
  place_shape example_hash board_2x1_one monomino (0, 1) = Ok board_2x1_two ∧
  (0, 0) ≠ ((0, 1) : Cell) ∧
  get_piece_at board_2x1_two (0, 0) = get_piece_at board_2x1_two (0, 1) ∧
  GameBoard_init 4 1 None = Ok board_4x1 ∧
  place_shape example_hash board_4x1 domino (0, 0) = Ok board_4x1_one ∧
  place_shape example_hash board_4x1_one domino (0, 2) = Ok board_4x1_two ∧
  remove_shape example_hash board_4x1_two domino (0, 1) = Ok board_4x1_halves.
Proof.
  split_and!; [exact board_2x1_init | | | done | | | | |]; vm_compute; reflexivity.
Qed.

(** * The claims about the search *)




Lemma counts_from_length a l b : counts_from a l b → b = a + Z.of_nat (length l).
Proof. induction 1; simpl; lia. Qed.

Lemma counts_from_lookup a l b (i : nat) x :
  counts_from a l b → l !! i = Some x → x = a + Z.of_nat i + 1.
Proof.
  intros Hc. revert i. induction Hc as [|n l m Hc IH]; intros i Hi; [done|].
  destruct i as [|i]; simpl in Hi.
  - simplify_eq. lia.
  - rewrite (IH i Hi). lia.
Qed.

Section SearchClaims.

Variable hash : Shape → Z.
Hypothesis hash_not_marker : ∀ s, hash s ≠ -1.

(** ** Room for more frames changes nothing *)

Lemma try_orientations_rec_ext rec1 rec2 cell piece count todo st r :
  (∀ st r, rec1 st = Ok r → rec2 st = Ok r) →
  try_orientations hash rec1 cell piece count todo st = Ok r →
  try_orientations hash rec2 cell piece count todo st = Ok r.
Proof.
  intros Hext. revert st r. induction todo as [|o todo IH]; intros st r; [done|].
  cbn [try_orientations].
  destruct (min_cell o) as [tl|]; cbn [rbind]; [|done].
  destruct (can_place_shape _ _ _) as [[|]|]; cbn [rbind]; [|by apply IH|done].
  destruct (place_shape _ _ _ _) as [b1|]; cbn [rbind]; [|done].
  destruct (dict_getitem _ _) as [v|]; cbn [rbind]; [|done].
  destruct (if v =? 0 then _ else _) as [rem2|]; cbn [rbind]; [|done].
  destruct (rec1 _) as [[[evs found] st2]|] eqn:E1; cbn [rbind]; [|done].
  rewrite (Hext _ _ E1). cbn [rbind]. destruct found; [done|].
  destruct (list_pop _) as [[[[shape pos] p] placed3]|]; cbn [rbind]; [|done].
  destruct (remove_shape _ _ _ _) as [b3|]; cbn [rbind]; [|done].
  destruct (try_orientations hash rec1 _ _ _ _ _) as [[[evs' found'] st4]|] eqn:E3;
    cbn [rbind]; [|done].
  by rewrite (IH _ _ E3).
Qed.

Lemma try_pieces_rec_ext rec1 rec2 cell todo st r :
  (∀ st r, rec1 st = Ok r → rec2 st = Ok r) →
  try_pieces hash rec1 cell todo st = Ok r →
  try_pieces hash rec2 cell todo st = Ok r.
Proof.
  intros Hext. revert st r. induction todo as [|piece todo IH]; intros st r; [done|].
  cbn [try_pieces]. destruct (_ <=? 0); [by apply IH|].
  destruct (try_orientations hash rec1 _ _ _ _ _) as [[[evs found] st1]|] eqn:E1;
    cbn [rbind]; [|done].
  rewrite (try_orientations_rec_ext _ _ _ _ _ _ _ _ Hext E1). cbn [rbind].
  destruct found; [done|].
  destruct (try_pieces hash rec1 _ _ _) as [[[evs' found'] st2]|] eqn:E2;
    cbn [rbind]; [|done].
  by rewrite (IH _ _ E2).
Qed.

(** A run of [backtrack] that comes to its end with room for [fuel] frames
    is the same run when there is room for more. *)
Lemma backtrack_more_room piece_types (fuel fuel' : nat) st r :
  (fuel ≤ fuel')%nat →
  backtrack hash piece_types fuel st = Ok r →
  backtrack hash piece_types fuel' st = Ok r.
Proof.
  revert fuel' st r. induction fuel as [|fuel IH]; intros fuel' st r Hle; [done|].
  destruct fuel' as [|fuel']; [lia|]. cbn [backtrack].
  destruct (find_next_empty _) as [[cell|]|]; cbn [rbind]; [|done..].
  apply try_pieces_rec_ext. intros st1 r1. apply IH. lia.
Qed.

Lemma solve_backtracking_within_enough (depth : nat) (pieces : Dict) (b : GameBoard)
    (evs : list Event) :
  (pieces_left pieces < depth)%nat →
  solve_backtracking hash pieces b = Ok evs →
  solve_backtracking_within hash depth pieces b = Ok evs.
Proof.
  intros Hdepth. unfold solve_backtracking, solve_backtracking_within. cbn [remaining].
  case_bool_decide; [done|].
  destruct (backtrack _ _ (S _) _) as [[[evs0 found] st]|] eqn:E; cbn [rbind]; [|done].
  assert ((S (pieces_left pieces) ≤ depth)%nat) as Hle by lia.
  by rewrite (backtrack_more_room _ _ depth _ _ Hle E).
Qed.


(** What the generator does on a multiset that is not empty: it runs
    [backtrack] once, and yields [no_solution] if that run returned
    [False]. *)
Lemma solve_backtracking_run (pieces : Dict) (b : GameBoard) :
  board_wf b → dict_wf pieces → Forall piece_ok (dict_keys pieces) → pieces ≠ [] →
  ∃ evs found st,
    run_spec (mkState b [] pieces 0) evs found st ∧
    solve_backtracking hash pieces b
    = Ok (if found then evs else evs ++ [yield no_solution st]).
Proof.
  intros Hwf Hdwf Hok Hne. unfold solve_backtracking, solve_backtracking_within. cbn [remaining].
  rewrite bool_decide_false by done.
  destruct (backtrack_spec hash hash_not_marker (sorted_desc area (dict_keys pieces))
              (S (pieces_left pieces))) with (st := mkState b [] pieces 0)
    as (evs & found & st & -> & Hspec).
  - by rewrite sorted_desc_perm.
  - by split.
  - simpl. lia.
  - exists evs, found, st. split; [done|]. cbn [rbind]. by destruct found.
Qed.

End SearchClaims.

Lemma build_piece_ok (shape : Shape) : shape ≠ ∅ → piece_ok (build_piece shape).
Proof.
  intros Hne. unfold piece_ok, build_piece. simpl. apply Forall_forall.
  intros o Ho%elem_of_elements%elem_of_orientation_set. destruct Ho as [t ->].
  by apply orientation_nonempty.
Qed.

Lemma PuzzlePiece_init_ok (shape : Shape) (p : PuzzlePiece) :
  PuzzlePiece_init shape = Ok p → piece_ok p.
Proof.
  unfold PuzzlePiece_init. case_bool_decide; [done|]. intros [= <-].
  by apply build_piece_ok.
Qed.

(** [{PuzzlePiece({(0, 0)}): 1}] *)
Definition one_monomino : Dict := [(build_piece monomino, 1)].

Lemma monomino_nonempty : monomino ≠ ∅.
Proof. unfold monomino. intros Heq. by apply (non_empty_singleton_L (0, 0)) in Heq. Qed.

Lemma one_monomino_wf : dict_wf one_monomino.
Proof. unfold dict_wf, one_monomino. simpl. apply NoDup_singleton. Qed.

Lemma one_monomino_ok : Forall piece_ok (dict_keys one_monomino).
Proof. apply Forall_singleton. apply build_piece_ok. exact monomino_nonempty. Qed.

Lemma one_monomino_positive : positive one_monomino.
Proof. unfold positive, one_monomino. simpl. apply Forall_singleton. lia. Qed.

Lemma board_2x1_reachable : reachable example_hash board_2x1.
Proof. apply (reach_init example_hash 2 1 None). exact board_2x1_init. Qed.


Lemma one_monomino_fits_depth_2 : (pieces_left one_monomino < 2)%nat.
Proof. vm_compute. lia. Qed.


(** C2 (as the code has it).  Along the events of [solve_backtracking] the
    step count never decreases: it is strictly greater than that of the
    event before for every [place], [remove] and [solved] event, and a final
    [no_solution] event repeats the step count of the event before it (the
    generator yields it without counting a step). *)
Theorem step_counts_along_events (hash : Shape → Z) (pieces : Dict) (b : GameBoard) :
  (∀ s, hash s ≠ -1) →
  reachable hash b →
  dict_wf pieces →
  Forall piece_ok (dict_keys pieces) →
  ∃ evs,
    solve_backtracking hash pieces b = Ok evs ∧
    ∀ (i : nat) (e e' : Event),
      evs !! i = Some e → evs !! S i = Some e' →
      (type e' ≠ no_solution → step_count e < step_count e') ∧
      (type e' = no_solution → step_count e' = step_count e).
Proof.
  intros Hhash Hreach Hdwf Hok.
  pose proof (reachable_wf hash Hhash b Hreach) as Hwf.
  destruct (decide (pieces = [])) as [->|Hne].
  { eexists. split; [reflexivity|]. intros i e e' _ Hi. by destruct i. }
  destruct (solve_backtracking_run hash Hhash pieces b Hwf Hdwf Hok Hne)
    as (evs & found & st & Hspec & ->).
  pose proof (rs_events _ _ _ _ Hspec) as Hev.
  pose proof (rs_steps _ _ _ _ Hspec) as Hsteps. simpl in Hsteps.
  assert (∀ (i : nat) e, evs !! i = Some e → step_count e = Z.of_nat i + 1) as Hstep.
  { intros i e Hi. rewrite (counts_from_lookup _ _ _ i (step_count e) Hsteps); [lia|].
    by rewrite list_lookup_fmap, Hi. }
  eexists. split; [done|]. intros i e e' Hi Hi'. destruct found.
  - rewrite (Hstep _ _ Hi), (Hstep _ _ Hi'). split; [lia|]. intros Hty.
    destruct Hev as (body & final & -> & Hbody & Hfinal).
    apply lookup_app_Some in Hi' as [Hi'|[_ Hi']].
    + pose proof (Forall_lookup_1 _ _ _ _ Hbody Hi') as [?|?]; congruence.
    + apply list_lookup_singleton_Some in Hi' as [_ <-]. congruence.
  - apply lookup_app_Some in Hi' as [Hi'|[Hlen Hi']].
    + assert (evs !! i = Some e) as Hi0.
      { apply lookup_lt_Some in Hi'. rewrite lookup_app_l in Hi by lia. done. }
      rewrite (Hstep _ _ Hi0), (Hstep _ _ Hi'). split; [lia|]. intros Hty.
      pose proof (Forall_lookup_1 _ _ _ _ Hev Hi') as [?|?]; congruence.
    + apply list_lookup_singleton_Some in Hi' as [Hidx <-]. simpl.
      assert (evs !! i = Some e) as Hi0.
      { rewrite lookup_app_l in Hi by lia. done. }
      rewrite (Hstep _ _ Hi0). apply counts_from_length in Hsteps.
      rewrite length_fmap in Hsteps. split; [done|]. intros _. lia.
Qed.

Lemma step_counts_along_events_witness :
  (∀ s, example_hash s ≠ -1) ∧
  reachable example_hash board_2x1 ∧
  dict_wf one_monomino ∧
  Forall piece_ok (dict_keys one_monomino) ∧
  ∃ evs,
    solve_backtracking example_hash one_monomino board_2x1 = Ok evs ∧
    ∀ (i : nat) (e e' : Event),
      evs !! i = Some e → evs !! S i = Some e' →
      (type e' ≠ no_solution → step_count e < step_count e') ∧
      (type e' = no_solution → step_count e' = step_count e).
Proof.
  split; [exact example_hash_not_marker|]. split; [exact board_2x1_reachable|].
  split; [exact one_monomino_wf|]. split; [exact one_monomino_ok|].
  exact (step_counts_along_events example_hash one_monomino board_2x1
           example_hash_not_marker board_2x1_reachable one_monomino_wf one_monomino_ok).
Defined.

(** C2, as stated, fails: with one monomino on the 2 × 1 board the events
    are [place], [remove], [no_solution] with step counts 1, 2, 2; the last
    one is not greater than the one before. *)
Lemma no_solution_repeats_step_count :
  GameBoard_init 2 1 None = Ok board_2x1 ∧
  PuzzlePiece_init monomino = Ok (build_piece monomino) ∧
  ∃ evs,
    solve_backtracking example_hash one_monomino board_2x1 = Ok evs ∧
    type <$> evs = [place; remove; no_solution] ∧
    step_count <$> evs = [1; 2; 2] ∧
    ¬ StronglySorted Z.lt (step_count <$> evs).
Proof.
  split; [exact board_2x1_init|]. split; [vm_compute; reflexivity|].
  eexists. split; [vm_compute; reflexivity|].
  split; [vm_compute; reflexivity|]. split; [vm_compute; reflexivity|].
  intros Hs. vm_compute in Hs.
  inversion Hs as [|? ? Hs1 _]; subst. inversion Hs1 as [|? ? _ Hall]; subst.
  apply Forall_cons in Hall as [Hlt _]. vm_compute in Hlt. discriminate.
Qed.

(** C8.  For every board, when the multiset of pieces is empty,
    [solve_backtracking] yields exactly one event; its type is [solved] and
    its step count is 0. *)
Theorem no_pieces_solved_at_once (hash : Shape → Z) (b : GameBoard) :
  ∃ e, solve_backtracking hash [] b = Ok [e] ∧ type e = solved ∧ step_count e = 0.
Proof. eexists. split; [reflexivity|]. by split. Qed.

(** C10.  At every event that [solve_backtracking] yields, the number of
    placed pieces plus the sum of the remaining counts is the sum of the
    counts of the caller's multiset, and every remaining count is at least
    1 (an entry that reaches 0 is deleted).  The multiset maps pieces to
    positive counts. *)
Theorem pieces_accounted_for (hash : Shape → Z) (pieces : Dict) (b : GameBoard) :
  (∀ s, hash s ≠ -1) →
  reachable hash b →
  dict_wf pieces →
  Forall piece_ok (dict_keys pieces) →
  positive pieces →
  ∃ evs,
    solve_backtracking hash pieces b = Ok evs ∧
    Forall (λ e, Z.of_nat (length (placed_pieces e)) + dict_sum (remaining_pieces e)
                 = dict_sum pieces ∧
                 Forall (λ count, 1 ≤ count) (dict_values (remaining_pieces e)))
           evs.
Proof.
  intros Hhash Hreach Hdwf Hok Hpos.
  pose proof (reachable_wf hash Hhash b Hreach) as Hwf.
  destruct (decide (pieces = [])) as [->|Hne].
  { eexists. split; [reflexivity|]. apply Forall_singleton. by split. }
  destruct (solve_backtracking_run hash Hhash pieces b Hwf Hdwf Hok Hne)
    as (evs & found & st & Hspec & ->).
  destruct (rs_balance _ _ _ _ Hspec id unit_step_id) as [Hbal Hbals].
  destruct (rs_positive _ _ _ _ Hspec Hpos) as [Hpos' Hposs].
  unfold balance in Hbal, Hbals. simpl in Hbal, Hbals.
  assert (Forall (λ e, Z.of_nat (length (placed_pieces e)) + dict_sum (remaining_pieces e)
                       = dict_sum pieces ∧
                       Forall (λ count, 1 ≤ count) (dict_values (remaining_pieces e)))
                 evs) as Hevs.
  { apply Forall_forall. intros e He. rewrite Forall_forall in Hbals, Hposs.
    split; [|by apply Hposs]. rewrite !dict_sum_weight. by apply Hbals. }
  eexists. split; [done|]. destruct found; [done|].
  apply Forall_app. split; [done|]. apply Forall_singleton. simpl.
  split; [|done]. by rewrite !dict_sum_weight.
Qed.

Lemma pieces_accounted_for_witness :
  (∀ s, example_hash s ≠ -1) ∧
  reachable example_hash board_2x1 ∧
  dict_wf one_monomino ∧
  Forall piece_ok (dict_keys one_monomino) ∧
  positive one_monomino ∧
  ∃ evs,
    solve_backtracking example_hash one_monomino board_2x1 = Ok evs ∧
    Forall (λ e, Z.of_nat (length (placed_pieces e)) + dict_sum (remaining_pieces e)
                 = dict_sum one_monomino ∧
                 Forall (λ count, 1 ≤ count) (dict_values (remaining_pieces e)))
           evs.
Proof.
  split; [exact example_hash_not_marker|]. split; [exact board_2x1_reachable|].
  split; [exact one_monomino_wf|]. split; [exact one_monomino_ok|].
  split; [exact one_monomino_positive|].
  exact (pieces_accounted_for example_hash one_monomino board_2x1
           example_hash_not_marker board_2x1_reachable one_monomino_wf
           one_monomino_ok one_monomino_positive).
Defined.

(** Follows the spec's words: candidates come by descending area, and
    among pieces of equal area by the order of their canonical shapes. *)
Definition spec_candidate_order (p q : PuzzlePiece) : Prop :=
  area q < area p ∨
  (area p = area q ∧ shape_leb (canonical_shape p) (canonical_shape q) = true).

(** [{PuzzlePiece(L): 1, PuzzlePiece(I): 1}], the L-tromino inserted
    first. *)
Definition L_then_I : Dict := [(build_piece L_tromino, 1); (build_piece I_tromino, 1)].

(** ** The order of the candidates, as the events show it *)

Global Instance PuzzlePiece_eq_dec : EqDecision PuzzlePiece.
Proof. solve_decision. Defined.

(** A candidate of a frame of [backtrack]: a piece type and one of its
    orientations. *)
Abbreviation Move := (PuzzlePiece * Shape)%type.

(** The candidates in the order in which the two loops of [backtrack]
    (solver.py 97-104) reach them when the counts are [d]: the piece types
    in the order of [piece_types], without those whose count is ≤ 0, each
    with its orientations in their iteration order. *)
Fixpoint moves_in_order (piece_types : list PuzzlePiece) (d : Dict) : list Move :=
  match piece_types with
  | [] => []
  | piece :: todo =>
      if dict_get d piece 0 <=? 0 then moves_in_order todo d
      else ((λ orientation, (piece, orientation)) <$> orientations piece)
           ++ moves_in_order todo d
  end.

(** The first candidate of [moves] that can be placed so that it covers
    [cell] with its top-left cell (solver.py 105-108), as the placement
    that goes on the stack. *)
Fixpoint first_fit (b : GameBoard) (cell : Cell) (moves : list Move)
  : result (option Placement) :=
  match moves with
  | [] => Ok None
  | (piece, orientation) :: moves' =>
      top_left_cell ←! min_cell orientation;
      let origin := (cell.1 - top_left_cell.1, cell.2 - top_left_cell.2) in
      can ←! can_place_shape b orientation origin;
      if can then Ok (Some (orientation, origin, piece)) else first_fit b cell moves'
  end.

(** The candidates that come after [m]. *)
Fixpoint moves_after (m : Move) (moves : list Move) : list Move :=
  match moves with
  | [] => []
  | m' :: moves' => if decide (m' = m) then moves' else moves_after m moves'
  end.

(** The candidates that are still to be tried at the first empty cell:
    all of them when the cell has just been reached, and those after the
    placement [undone] when that placement has just been taken back. *)
Definition moves_left (piece_types : list PuzzlePiece) (d : Dict)
    (undone : option Placement) : list Move :=
  match undone with
  | None => moves_in_order piece_types d
  | Some (orientation, _, piece) =>
      moves_after (piece, orientation) (moves_in_order piece_types d)
  end.

(** No candidate is left: the placement on top of the stack is taken back,
    and with an empty stack the search is over. *)
Definition dead_end (p : list Placement) : EventType * list Placement :=
  match p with
  | [] => (no_solution, [])
  | _ :: _ => (remove, removelast p)
  end.

(** The type and the stack of the next event when the board is [b], the
    stack [p], the counts [d], and [undone] the placement that the last
    event took back (if it was a [remove]), for a search that tries the
    candidates in the order of [piece_types]. *)
Definition next_step (piece_types : list PuzzlePiece) (b : GameBoard)
    (p : list Placement) (d : Dict) (undone : option Placement)
  : result (EventType * list Placement) :=
  target ←! find_next_empty b;
  match target with
  | None => Ok (if bool_decide (d = []) then (solved, p) else dead_end p)
  | Some cell =>
      fit ←! first_fit b cell (moves_left piece_types d undone);
      Ok (match fit with
          | Some x => (place, p ++ [x])
          | None => dead_end p
          end)
  end.

(** [in_order piece_types b p d undone evs b' p' d' undone']: from board
    [b], stack [p] and counts [d], every event of [evs] is the one that
    [next_step] gives for what the event before it shows. *)
Inductive in_order (piece_types : list PuzzlePiece) :
    GameBoard → list Placement → Dict → option Placement → list Event →
    GameBoard → list Placement → Dict → option Placement → Prop :=
  | in_order_nil b p d undone : in_order piece_types b p d undone [] b p d undone
  | in_order_cons b p d undone e evs b' p' d' undone' :
      next_step piece_types b p d undone = Ok (type e, placed_pieces e) →
      in_order piece_types (board_snapshot e) (placed_pieces e) (remaining_pieces e)
               (if decide (type e = remove) then last p else None)
               evs b' p' d' undone' →
      in_order piece_types b p d undone (e :: evs) b' p' d' undone'.

Lemma in_order_app (piece_types : list PuzzlePiece) b p d u evs1 b1 p1 d1 u1 evs2 b2 p2 d2 u2 :
  in_order piece_types b p d u evs1 b1 p1 d1 u1 →
  in_order piece_types b1 p1 d1 u1 evs2 b2 p2 d2 u2 →
  in_order piece_types b p d u (evs1 ++ evs2) b2 p2 d2 u2.
Proof.
  induction 1; simpl; intros; [done|]. eapply in_order_cons; eauto.
Qed.

Lemma moves_in_order_ext (piece_types : list PuzzlePiece) (d d' : Dict) :
  (∀ q, dict_lookup d q = dict_lookup d' q) →
  moves_in_order piece_types d = moves_in_order piece_types d'.
Proof.
  intros Hl. induction piece_types as [|piece todo IH]; simpl; [done|].
  unfold dict_get. by rewrite Hl, IH.
Qed.

Lemma moves_in_order_pieces (piece_types : list PuzzlePiece) (d : Dict) (m : Move) :
  m ∈ moves_in_order piece_types d → m.1 ∈ piece_types.
Proof.
  induction piece_types as [|piece todo IH]; simpl; [by intros ?%elem_of_nil|].
  destruct (_ <=? 0).
  - intros Hm. right. by apply IH.
  - intros [Hm|Hm]%elem_of_app.
    + apply list_elem_of_fmap in Hm as (o & -> & _). by left.
    + right. by apply IH.
Qed.

Lemma moves_in_order_NoDup (piece_types : list PuzzlePiece) (d : Dict) :
  NoDup piece_types →
  Forall (λ p, NoDup (orientations p)) piece_types →
  NoDup (moves_in_order piece_types d).
Proof.
  induction piece_types as [|piece todo IH]; simpl; [constructor|].
  intros [Hp Htodo]%NoDup_cons [Ho Hos]%Forall_cons.
  destruct (_ <=? 0); [by apply IH|].
  apply NoDup_app. split_and!.
  - apply NoDup_fmap_2; [|done]. by intros o1 o2 [= ->].
  - intros m (o & -> & _)%list_elem_of_fmap Hm.
    by apply moves_in_order_pieces in Hm.
  - by apply IH.
Qed.

Lemma moves_after_middle (m : Move) (before after : list Move) :
  m ∉ before → moves_after m (before ++ m :: after) = after.
Proof.
  induction before as [|m' before IH]; simpl; intros Hm.
  - by rewrite decide_True.
  - apply not_elem_of_cons in Hm as [Hne Hm]. rewrite decide_False by done. by apply IH.
Qed.

Lemma dead_end_snoc (p : list Placement) (x : Placement) :
  dead_end (p ++ [x]) = (remove, p).
Proof.
  unfold dead_end. destruct (p ++ [x]) eqn:E.
  - by destruct p.
  - by rewrite <- E, removelast_last.
Qed.

Section CandidateOrder.

Variable hash : Shape → Z.
Hypothesis hash_not_marker : ∀ s, hash s ≠ -1.

Variable piece_types : list PuzzlePiece.
Hypothesis piece_types_ok : Forall piece_ok piece_types.
Hypothesis piece_types_NoDup : NoDup piece_types.
Hypothesis orientations_NoDup : Forall (λ p, NoDup (orientations p)) piece_types.

(** The recursive call yields its events in the order of the candidates,
    and when it returns [False] no candidate is left at its cell. *)
Definition rec_in_order (rec : SolverState → result Run) (n : nat) : Prop :=
  ∀ st, state_ok st → (pieces_left (remaining st) < n)%nat →
        ∃ evs found st' u',
          rec st = Ok (evs, found, st') ∧
          run_spec st evs found st' ∧
          in_order piece_types (board st) (placed st) (remaining st) None evs
                   (board st') (placed st') (remaining st') u' ∧
          (found = false →
           next_step piece_types (board st') (placed st') (remaining st') u'
           = Ok (dead_end (placed st'))).

Lemma rec_in_order_ok (rec : SolverState → result Run) (n : nat) : rec_in_order rec n → rec_ok rec n.
Proof.
  intros Hrec st Hok Hfuel.
  destruct (Hrec st Hok Hfuel) as (evs & found & st' & u' & ? & ? & _).
  by exists evs, found, st'.
Qed.

Lemma try_orientations_in_order (rec : SolverState → result Run) (n : nat) (cell : Cell)
    (piece : PuzzlePiece) (count : Z) (todo : list Shape) (st : SolverState)
    (tried rest : list Move) (u : option Placement) :
  rec_in_order rec n →
  Forall (λ o : Shape, o ≠ ∅) todo →
  find_next_empty (board st) = Ok (Some cell) →
  state_ok st →
  (pieces_left (remaining st) < S n)%nat →
  dict_lookup (remaining st) piece = Some count → 0 < count →
  moves_in_order piece_types (remaining st) = tried ++ (pair piece <$> todo) ++ rest →
  first_fit (board st) cell (moves_left piece_types (remaining st) u)
  = first_fit (board st) cell ((pair piece <$> todo) ++ rest) →
  ∃ evs found st' u',
    try_orientations hash rec cell piece count todo st = Ok (evs, found, st') ∧
    in_order piece_types (board st) (placed st) (remaining st) u evs
             (board st') (placed st') (remaining st') u' ∧
    (found = false →
     first_fit (board st') cell (moves_left piece_types (remaining st') u')
     = first_fit (board st') cell rest).
Proof.
  intros Hrec Htodo. revert st tried u.
  induction Htodo as [|o todo Ho Htodo IH]; intros st tried u Hcell Hok Hfuel Hl Hc HM Hfit.
  { exists [], false, st, u. split; [done|]. split; [constructor | done]. }
  destruct Hok as [Hwf Hdwf]. cbn [try_orientations].
  destruct (min_cell_ok o Ho) as [tl Htl]. rewrite Htl. cbn [rbind].
  set (origin := (cell.1 - tl.1, cell.2 - tl.2)).
  destruct (can_place_shape_total (board st) o origin Hwf) as [can Hcan].
  rewrite Hcan. cbn [rbind].
  assert (moves_in_order piece_types (remaining st)
          = (tried ++ [(piece, o)]) ++ (pair piece <$> todo) ++ rest) as HM'.
  { rewrite HM. csimpl. by rewrite <- (assoc_L (++)). }
  destruct can.
  2:{ apply (IH st (tried ++ [(piece, o)]) u); try done.
      rewrite Hfit. csimpl. rewrite Htl. cbn [rbind]. fold origin. by rewrite Hcan. }
  assert (next_step piece_types (board st) (placed st) (remaining st) u
          = Ok (place, placed st ++ [(o, origin, piece)])) as Hnext.
  { unfold next_step. rewrite Hcell. cbn [rbind]. rewrite Hfit. csimpl.
    rewrite Htl. cbn [rbind]. fold origin. by rewrite Hcan. }
  destruct (place_then_remove hash hash_not_marker (board st) o origin Hwf Hcan)
    as (b1 & Hp & Hwf1 & Hrm).
  rewrite Hp. cbn [rbind]. rewrite dict_getitem_setitem. cbn [rbind].
  destruct (take_piece_spec (remaining st) piece count Hdwf Hl Hc)
    as (rem2 & -> & Hdwf2 & Hw2 & Hne2 & Hl2 & Hpos2).
  cbn [rbind].
  set (st1 := mkState b1 (placed st ++ [(o, origin, piece)]) rem2 (step_counter st + 1)).
  destruct (Hrec st1) as (evs & found & st2 & u2 & -> & Hspec & Hord & Hend).
  { by split. }
  { pose proof (Hw2 _ unit_step_copies) as Hw. rewrite !pieces_left_weight in *.
    simpl. pose proof (dict_weight_copies_nonneg rem2). lia. }
  assert (in_order piece_types (board st) (placed st) (remaining st) u
            (yield place st1 :: evs) (board st2) (placed st2) (remaining st2) u2) as Hord1.
  { eapply in_order_cons; [exact Hnext|]. exact Hord. }
  cbn [rbind]. destruct found.
  { eexists _, _, _, _. split; [done|]. split; [exact Hord1 | done]. }
  destruct (rs_restore _ _ _ _ Hspec eq_refl) as (Eb & Ep & El). simpl in Eb, Ep, El.
  rewrite Ep, list_pop_snoc. cbn [rbind]. rewrite Eb, Hrm. cbn [rbind].
  destruct (rs_state _ _ _ _ Hspec) as [Hwf2' Hdwf2'].
  destruct (give_back_spec (remaining st2) piece Hdwf2') as (Hdwf3 & Hw3 & Hne3 & Hl3 & Hpos3).
  { intros c. rewrite El, Hl2. destruct (count - 1 =? 0) eqn:E; [done|].
    intros [= <-]. lia. }
  set (st3 := mkState (board st) (placed st)
                (dict_setitem (remaining st2) piece (dict_get (remaining st2) piece 0 + 1))
                (step_counter st2 + 1)).
  assert (∀ q, dict_lookup (remaining st3) q = dict_lookup (remaining st) q) as Hl3'.
  { intros q. simpl. destruct (piece_eqb piece q) eqn:E.
    - rewrite <- !(dict_lookup_proper _ _ _ E), Hl3, Hl. f_equal.
      unfold dict_get. rewrite El, Hl2.
      destruct (count - 1 =? 0) eqn:E'; simpl; [|lia].
      apply Z.eqb_eq in E'. lia.
    - rewrite (Hne3 q E), El. by apply Hne2. }
  assert (dict_weight copies (remaining st3) = dict_weight copies (remaining st)) as Hw3'.
  { simpl. rewrite (Hw3 _ unit_step_copies).
    destruct (rs_balance _ _ _ _ Hspec _ unit_step_copies) as [Hb2 _].
    unfold balance in Hb2. simpl in Hb2. rewrite Ep in Hb2.
    rewrite (Hw2 _ unit_step_copies) in Hb2. lia. }
  assert (moves_in_order piece_types (remaining st3)
          = (tried ++ [(piece, o)]) ++ (pair piece <$> todo) ++ rest) as HM3.
  { by rewrite (moves_in_order_ext _ _ _ Hl3'). }
  assert ((piece, o) ∉ tried) as Hfresh.
  { pose proof (moves_in_order_NoDup piece_types (remaining st)
                  piece_types_NoDup orientations_NoDup) as Hnd.
    rewrite HM in Hnd. apply NoDup_app in Hnd as (_ & Hnot & _).
    intros Hin. apply (Hnot _ Hin). csimpl. by left. }
  destruct (IH st3 (tried ++ [(piece, o)]) (Some (o, origin, piece)))
    as (evs' & found' & st4 & u4 & -> & Hord' & Hend'); try done.
  { rewrite !pieces_left_weight in *. lia. }
  { by rewrite Hl3'. }
  { f_equal. unfold moves_left. rewrite HM3, <- (assoc_L (++)). simpl.
    by apply moves_after_middle. }
  cbn [rbind]. eexists _, _, _, _. split; [done|]. split; [|exact Hend'].
  replace (yield place st1 :: evs ++ yield remove st3 :: evs')
    with ((yield place st1 :: evs) ++ (yield remove st3 :: evs')) by done.
  eapply in_order_app; [exact Hord1|].
  eapply in_order_cons.
  - rewrite (Hend eq_refl), Ep. by rewrite dead_end_snoc.
  - simpl. rewrite Ep, last_snoc. exact Hord'.
Qed.

Lemma try_pieces_in_order (rec : SolverState → result Run) (n : nat) (cell : Cell)
    (todo : list PuzzlePiece) (st : SolverState) (tried : list Move)
    (u : option Placement) :
  rec_in_order rec n →
  Forall piece_ok todo →
  find_next_empty (board st) = Ok (Some cell) →
  state_ok st →
  (pieces_left (remaining st) < S n)%nat →
  moves_in_order piece_types (remaining st) = tried ++ moves_in_order todo (remaining st) →
  first_fit (board st) cell (moves_left piece_types (remaining st) u)
  = first_fit (board st) cell (moves_in_order todo (remaining st)) →
  ∃ evs found st' u',
    try_pieces hash rec cell todo st = Ok (evs, found, st') ∧
    in_order piece_types (board st) (placed st) (remaining st) u evs
             (board st') (placed st') (remaining st') u' ∧
    (found = false →
     first_fit (board st') cell (moves_left piece_types (remaining st') u') = Ok None).
Proof.
  intros Hrec Htodo. revert st tried u.
  induction Htodo as [|piece todo Hp Htodo IH]; intros st tried u Hcell Hok Hfuel HM Hfit.
  { exists [], false, st, u. split; [done|]. split; [constructor | done]. }
  cbn [try_pieces]. cbn [moves_in_order] in HM, Hfit.
  destruct (dict_get (remaining st) piece 0 <=? 0) eqn:E.
  { by apply (IH st tried u). }
  apply Z.leb_gt in E.
  destruct (try_orientations_spec hash hash_not_marker rec n cell piece _
              (orientations piece) st (rec_in_order_ok _ _ Hrec) Hp Hok Hfuel
              (dict_get_pos _ _ E) E) as (evs0 & found0 & st0 & Heq0 & Hspec).
  destruct (try_orientations_in_order rec n cell piece (dict_get (remaining st) piece 0)
              (orientations piece) st tried (moves_in_order todo (remaining st)) u Hrec Hp)
    as (evs & found & st1 & u1 & Heq & Hord & Hend); try done.
  { by apply dict_get_pos. }
  rewrite Heq in Heq0. simplify_eq. rewrite Heq. cbn [rbind]. destruct found0.
  { by eexists _, _, _, _. }
  destruct (rs_restore _ _ _ _ Hspec eq_refl) as (Eb & Ep & El).
  destruct (IH st0 (tried ++ (pair piece <$> orientations piece)) u1)
    as (evs' & found' & st2 & u2 & -> & Hord' & Hend'); try done.
  { by rewrite Eb. }
  { by apply (rs_state _ _ _ _ Hspec). }
  { destruct (rs_balance _ _ _ _ Hspec _ unit_step_copies) as [Hb _].
    unfold balance in Hb. rewrite Ep in Hb. rewrite !pieces_left_weight in *. lia. }
  { rewrite (moves_in_order_ext piece_types _ _ El), HM.
    by rewrite (moves_in_order_ext todo _ _ El), <- (assoc_L (++)). }
  { rewrite (Hend eq_refl). by rewrite (moves_in_order_ext todo _ _ El). }
  cbn [rbind]. eexists _, _, _, _. split; [done|]. split; [|exact Hend'].
  by eapply in_order_app.
Qed.

Lemma backtrack_in_order (fuel : nat) : rec_in_order (backtrack hash piece_types fuel) fuel.
Proof.
  induction fuel as [|fuel IH]; intros st Hok Hfuel; [lia|].
  destruct (backtrack_spec hash hash_not_marker piece_types (S fuel) piece_types_ok
              st Hok Hfuel) as (evs0 & found0 & st0 & Heq0 & Hspec).
  assert (∃ evs found st' u',
            backtrack hash piece_types (S fuel) st = Ok (evs, found, st') ∧
            in_order piece_types (board st) (placed st) (remaining st) None evs
                     (board st') (placed st') (remaining st') u' ∧
            (found = false →
             next_step piece_types (board st') (placed st') (remaining st') u'
             = Ok (dead_end (placed st'))))
    as (evs & found & st' & u' & Heq & Hord & Hend).
  { cbn [backtrack]. destruct (find_next_empty (board st)) as [[cell|]|e] eqn:Hcell.
    - cbn [rbind].
      destruct (try_pieces_spec hash hash_not_marker _ fuel cell piece_types st
                  (rec_in_order_ok _ _ IH) piece_types_ok Hok Hfuel)
        as (evs1 & found1 & st1 & Heq1 & Hspec1).
      destruct (try_pieces_in_order _ fuel cell piece_types st [] None IH piece_types_ok
                  Hcell Hok Hfuel eq_refl eq_refl)
        as (evs & found & st' & u' & Heq & Hord & Hend).
      rewrite Heq in Heq1. simplify_eq.
      exists evs1, found1, st1, u'. split; [done|]. split; [done|].
      intros ->. destruct (rs_restore _ _ _ _ Hspec1 eq_refl) as (Eb & _).
      unfold next_step. rewrite Eb, Hcell. cbn [rbind].
      rewrite <- Eb, (Hend eq_refl). done.
    - cbn [rbind]. case_bool_decide as Hempty.
      + eexists _, _, _, None. split; [done|]. split; [|done].
        eapply in_order_cons; [|constructor].
        unfold next_step. rewrite Hcell. cbn [rbind]. by rewrite bool_decide_true.
      + exists [], false, st, None. split; [done|]. split; [constructor|].
        intros _. unfold next_step. rewrite Hcell. cbn [rbind].
        by rewrite bool_decide_false.
    - destruct (find_next_empty_total (board st)) as [r Hr]; [by destruct Hok|].
      congruence. }
  rewrite Heq in Heq0. simplify_eq. by exists evs0, found0, st0, u'.
Qed.

End CandidateOrder.

Lemma dict_keys_NoDup (d : Dict) : dict_wf d → NoDup (dict_keys d).
Proof. unfold dict_wf. apply NoDup_fmap_1. Qed.

Lemma build_piece_orientations_NoDup (shape : Shape) :
  NoDup (orientations (build_piece shape)).
Proof. unfold build_piece. simpl. apply NoDup_elements. Qed.

Lemma PuzzlePiece_init_orientations_NoDup (shape : Shape) (p : PuzzlePiece) :
  PuzzlePiece_init shape = Ok p → NoDup (orientations p).
Proof.
  unfold PuzzlePiece_init. case_bool_decide; [done|]. intros [= <-].
  apply build_piece_orientations_NoDup.
Qed.

(** C6 (as the code has it).  The candidate pieces are the keys of the
    multiset sorted by descending area with a stable sort: pieces of equal
    area keep the insertion order of the multiset.  The events of
    [solve_backtracking] show that [backtrack] walks this list at every
    empty target cell and skips a piece whose remaining count is ≤ 0: every
    event is the one that [next_step] gives for this order.  A [place]
    event puts down the first candidate of the list that fits at the first
    empty cell (after a [remove], the first one that comes after the
    placement taken back), and a [remove] or [no_solution] event comes only
    when no candidate is left that fits. *)
Theorem candidate_piece_order (hash : Shape → Z) (pieces : Dict) (b : GameBoard) :
  (∀ s, hash s ≠ -1) →
  reachable hash b →
  dict_wf pieces →
  Forall piece_ok (dict_keys pieces) →
  Forall (λ p, NoDup (orientations p)) (dict_keys pieces) →
  pieces ≠ [] →
  sorted_desc area (dict_keys pieces) ≡ₚ dict_keys pieces ∧
  StronglySorted (λ p q, area q ≤ area p) (sorted_desc area (dict_keys pieces)) ∧
  (∀ a, filter (λ p, area p = a) (sorted_desc area (dict_keys pieces))
        = filter (λ p, area p = a) (dict_keys pieces)) ∧
  ∃ evs b' p' d' undone',
    solve_backtracking hash pieces b = Ok evs ∧
    in_order (sorted_desc area (dict_keys pieces)) b [] pieces None evs b' p' d' undone'.
Proof.
  intros Hhash Hreach Hdwf Hok Hnd Hne.
  pose proof (reachable_wf hash Hhash b Hreach) as Hwf.
  split_and!; [apply sorted_desc_perm | apply sorted_desc_sorted
               | intros a; apply sorted_desc_stable |].
  set (piece_types := sorted_desc area (dict_keys pieces)).
  assert (Forall piece_ok piece_types) as Hok'
    by (unfold piece_types; by rewrite sorted_desc_perm).
  assert (NoDup piece_types) as Hnd1.
  { unfold piece_types. rewrite sorted_desc_perm. by apply dict_keys_NoDup. }
  assert (Forall (λ p, NoDup (orientations p)) piece_types) as Hnd2
    by (unfold piece_types; by rewrite sorted_desc_perm).
  unfold solve_backtracking, solve_backtracking_within. cbn [remaining].
  rewrite bool_decide_false by done. fold piece_types.
  destruct (backtrack_in_order hash Hhash piece_types Hok' Hnd1 Hnd2
              (S (pieces_left pieces)) (mkState b [] pieces 0))
    as (evs & found & st & u & -> & Hspec & Hord & Hend).
  { by split. }
  { simpl. lia. }
  cbn [rbind]. simpl in Hord. destruct found.
  { by eexists _, _, _, _, _. }
  destruct (rs_restore _ _ _ _ Hspec eq_refl) as (_ & Ep & _). simpl in Ep.
  eexists _, _, _, _, _. split; [done|].
  eapply in_order_app; [exact Hord|].
  eapply in_order_cons; [|constructor].
  rewrite (Hend eq_refl). simpl. by rewrite Ep.
Qed.

Lemma candidate_piece_order_witness :
  (∀ s, example_hash s ≠ -1) ∧
  reachable example_hash board_2x1 ∧
  dict_wf one_monomino ∧
  Forall piece_ok (dict_keys one_monomino) ∧
  Forall (λ p, NoDup (orientations p)) (dict_keys one_monomino) ∧
  one_monomino ≠ [] ∧
  sorted_desc area (dict_keys one_monomino) ≡ₚ dict_keys one_monomino ∧
  StronglySorted (λ p q, area q ≤ area p) (sorted_desc area (dict_keys one_monomino)) ∧
  (∀ a, filter (λ p, area p = a) (sorted_desc area (dict_keys one_monomino))
        = filter (λ p, area p = a) (dict_keys one_monomino)) ∧
  ∃ evs b' p' d' undone',
    solve_backtracking example_hash one_monomino board_2x1 = Ok evs ∧
    in_order (sorted_desc area (dict_keys one_monomino)) board_2x1 [] one_monomino None
             evs b' p' d' undone'.
Proof.
  assert (Forall (λ p, NoDup (orientations p)) (dict_keys one_monomino)) as Hnd.
  { apply Forall_singleton. apply build_piece_orientations_NoDup. }
  assert (one_monomino ≠ []) as Hne by done.
  split; [exact example_hash_not_marker|]. split; [exact board_2x1_reachable|].
  split; [exact one_monomino_wf|]. split; [exact one_monomino_ok|].
  split; [exact Hnd|]. split; [exact Hne|].
  exact (candidate_piece_order example_hash one_monomino board_2x1
           example_hash_not_marker board_2x1_reachable one_monomino_wf
           one_monomino_ok Hnd Hne).
Defined.

(** An empty board of width 3 and height 2. *)
Definition board_3x2 : GameBoard :=
  mkBoard 3 2 [[None; None; None]; [None; None; None]] ∅.

(** C6, as stated, fails: the L-tromino and the I-tromino have the same
    area and the canonical shape of the I-tromino comes first, yet with the
    L-tromino inserted first the candidates are tried L before I.  On the
    empty 3x2 board both fit at the first cell: the order of the
    specification would start with the I-tromino, the search starts with
    the L-tromino. *)
Lemma ties_keep_insertion_order :
  PuzzlePiece_init L_tromino = Ok (build_piece L_tromino) ∧
  PuzzlePiece_init I_tromino = Ok (build_piece I_tromino) ∧
  GameBoard_init 3 2 None = Ok board_3x2 ∧
  sorted_desc area (dict_keys L_then_I) = [build_piece L_tromino; build_piece I_tromino] ∧
  area (build_piece L_tromino) = area (build_piece I_tromino) ∧
  shape_leb (canonical_shape (build_piece L_tromino))
            (canonical_shape (build_piece I_tromino)) = false ∧
  ¬ StronglySorted spec_candidate_order (sorted_desc area (dict_keys L_then_I)) ∧
  StronglySorted spec_candidate_order [build_piece I_tromino; build_piece L_tromino] ∧
  next_step [build_piece I_tromino; build_piece L_tromino] board_3x2 [] L_then_I None
  = Ok (place, [(I_tromino, (0, 0), build_piece I_tromino)]) ∧
  ∃ e evs,
    solve_backtracking example_hash L_then_I board_3x2 = Ok (e :: evs) ∧
    type e = place ∧
    placed_pieces e = [(L_tromino, (0, 0), build_piece L_tromino)].
Proof.
  assert (area (build_piece L_tromino) = area (build_piece I_tromino)) as Harea
    by (vm_compute; reflexivity).
  assert (shape_leb (canonical_shape (build_piece L_tromino))
                    (canonical_shape (build_piece I_tromino)) = false) as Hleb
    by (vm_compute; reflexivity).
  assert (shape_leb (canonical_shape (build_piece I_tromino))
                    (canonical_shape (build_piece L_tromino)) = true) as Hleb'
    by (vm_compute; reflexivity).
  assert (sorted_desc area (dict_keys L_then_I)
          = [build_piece L_tromino; build_piece I_tromino]) as Hsorted.
  { unfold sorted_desc, L_then_I. simpl. by rewrite Harea, Z.ltb_irrefl. }
  split_and!; [vm_compute; reflexivity | vm_compute; reflexivity | vm_compute; reflexivity
               | done.. | | | |].
  - rewrite Hsorted. intros Hs. inversion Hs as [|? ? _ Hall]; subst.
    apply Forall_cons in Hall as [[Hlt|[_ Hle]] _]; [lia | congruence].
  - apply SSorted_cons; [apply SSorted_cons; constructor|].
    apply Forall_singleton. right. by split.
  - vm_compute. reflexivity.
  - eexists _, _. split; [vm_compute; reflexivity|]. split; vm_compute; reflexivity.
Qed.

(** C7.  Two non-empty sets of cells that differ by one of the 8
    symmetries of the square (up to where the drawing sits on the grid)
    give pieces with the same canonical shape; the pieces are equal and
    hash identically. *)
Theorem symmetric_shapes_same_piece (hash : Shape → Z) (s1 s2 : Shape)
    (t : Symmetry) (d : Cell) :
  s1 ≠ ∅ →
  s2 = translate d (set_map (transform t) s1) →
  ∃ p1 p2,
    PuzzlePiece_init s1 = Ok p1 ∧ PuzzlePiece_init s2 = Ok p2 ∧
    canonical_shape p1 = canonical_shape p2 ∧
    piece_eqb p1 p2 = true ∧
    piece_hash hash p1 = piece_hash hash p2.
Proof.
  intros Hne ->. unfold PuzzlePiece_init.
  rewrite !bool_decide_false by (done || by apply translate_nonempty, set_map_nonempty).
  eexists _, _. split_and!; [done | done | | |].
  - unfold build_piece, canonicalize. simpl. by rewrite orientation_set_image.
  - apply piece_eqb_true. unfold build_piece, canonicalize. simpl.
    by rewrite orientation_set_image.
  - unfold piece_hash, build_piece, canonicalize. simpl.
    by rewrite orientation_set_image.
Qed.

Lemma symmetric_shapes_same_piece_witness :
  L_tromino ≠ ∅ ∧
  L_tromino_turned = translate (0, 1) (set_map (transform NegCol) L_tromino) ∧
  ∃ p1 p2,
    PuzzlePiece_init L_tromino = Ok p1 ∧ PuzzlePiece_init L_tromino_turned = Ok p2 ∧
    canonical_shape p1 = canonical_shape p2 ∧
    piece_eqb p1 p2 = true ∧
    piece_hash example_hash p1 = piece_hash example_hash p2.
Proof.
  assert (L_tromino ≠ ∅) as Hne.
  { apply (bool_decide_unpack _). vm_compute. exact I. }
  assert (L_tromino_turned = translate (0, 1) (set_map (transform NegCol) L_tromino))
    as Heq.
  { vm_compute. reflexivity. }
  split; [exact Hne|]. split; [exact Heq|].
  exact (symmetric_shapes_same_piece example_hash L_tromino L_tromino_turned
           NegCol (0, 1) Hne Heq).
Defined.

(** * More about the board (src/models/board.py) *)

(** ** The rows of the grid, read by position *)

Lemma row_positions (row : Z) (w : Z) :
  (seqZ 0 w ≫= λ col, [(row, col)]) = (λ col, (row, col)) <$> seqZ 0 w.
Proof. induction (seqZ 0 w) as [|c l IH]; csimpl; [done | by rewrite IH]. Qed.

Lemma row_as_range (r : list Slot) :
  r = (λ col : Z, default None (r !! Z.to_nat col)) <$> seqZ 0 (Z.of_nat (length r)).
Proof.
  apply list_eq. intros i. rewrite list_lookup_fmap.
  destruct (decide (i < length r)%nat) as [Hi|Hi].
  - rewrite lookup_seqZ_lt by lia. simpl. rewrite Z.add_0_l, Nat2Z.id.
    destruct (lookup_lt_is_Some_2 r i Hi) as [v ->]. done.
  - rewrite lookup_seqZ_ge by lia. simpl. apply lookup_ge_None_2. lia.
Qed.

Lemma concat_as_positions (g : Grid) (h w : nat) :
  grid_dims g h w →
  concat g
  = (λ c : Cell, slot_at g (Z.to_nat c.1) (Z.to_nat c.2))
      <$> (seqZ 0 (Z.of_nat h) ≫= λ row, seqZ 0 (Z.of_nat w) ≫= λ col, [(row, col)]).
Proof.
  revert h. induction g as [|r g IH] using rev_ind; intros h [Hlen Hall].
  - simpl in Hlen. by subst.
  - rewrite length_app in Hlen. simpl in Hlen.
    rewrite Forall_app, Forall_singleton in Hall. destruct Hall as [Hall Hr].
    assert (h = S (length g)) as -> by lia.
    rewrite seqZ_S, bind_app, fmap_app, concat_app. f_equal.
    + rewrite (IH (length g)) by done. apply list_fmap_ext.
      intros i [row col] Hi. simpl.
      assert ((row, col) ∈ (seqZ 0 (Z.of_nat (length g)) ≫= λ row,
                              seqZ 0 (Z.of_nat w) ≫= λ col, [(row, col)])) as Hin
        by (by eapply list_elem_of_lookup_2).
      apply list_elem_of_bind in Hin as (row' & Hin & Hrow).
      rewrite row_positions in Hin. apply list_elem_of_fmap in Hin as (col' & [= -> ->] & _).
      apply elem_of_seqZ in Hrow. unfold slot_at.
      rewrite lookup_app_l by lia. done.
    + csimpl. rewrite ?app_nil_r, Z.add_0_l, row_positions, ?app_nil_r.
      rewrite <- list_fmap_compose.
      rewrite (row_as_range r) at 1. rewrite Hr. apply list_fmap_ext.
      intros i col _. simpl. unfold slot_at. rewrite Nat2Z.id.
      rewrite lookup_app_r by lia. rewrite Nat.sub_diag. done.
Qed.

Lemma concat_cells_as_positions b :
  board_wf b →
  concat (cells b) = (λ c : Cell, content b c.1 c.2) <$> grid_positions b.
Proof.
  intros Hwf. unfold grid_positions, range, content.
  rewrite (concat_as_positions _ _ _ (wf_dims b Hwf)).
  destruct Hwf. by rewrite !Z2Nat.id by lia.
Qed.

(** ** Fit check, placing and removing *)

Lemma get_piece_at_content (b : GameBoard) (row col : Z) :
  board_wf b → 0 ≤ row < height b → 0 ≤ col < width b →
  get_piece_at b (row, col) = Ok (content b row col).
Proof. intros Hwf ? ?. simpl. apply grid_get_board; [by apply wf_dims | done..]. Qed.

(** ** Concrete boards and runs for the examples *)

Lemma board_2x2_reachable : reachable example_hash board_2x2.
Proof. apply (reach_init example_hash 2 2 None). exact board_2x2_init. Qed.

Lemma board_2x1_one_placed :
  place_shape example_hash board_2x1 monomino (0, 0) = Ok board_2x1_one.
Proof. vm_compute. reflexivity. Qed.

Lemma board_2x1_one_removed :
  remove_shape example_hash board_2x1_one monomino (0, 0) = Ok board_2x1.
Proof. vm_compute. reflexivity. Qed.

Lemma board_2x1_one_reachable : reachable example_hash board_2x1_one.
Proof.
  exact (reach_place example_hash _ _ _ _ board_2x1_reachable board_2x1_one_placed).
Qed.

Lemma monomino_inside_2x1 :
  ∀ cell : Cell, cell ∈ monomino →
    0 ≤ (0, 0).1 + cell.1 < height board_2x1_one ∧
    0 ≤ (0, 0).2 + cell.2 < width board_2x1_one.
Proof. intros cell ->%elem_of_singleton. simpl. lia. Qed.

(** [GameBoard(width=1, height=1)], empty and with a monomino on it. *)
Definition board_1x1 : GameBoard := mkBoard 1 1 [[None]] ∅.
Definition board_1x1_one : GameBoard := mkBoard 1 1 [[Some (example_hash monomino)]] ∅.

Lemma board_1x1_reachable : reachable example_hash board_1x1.
Proof. apply (reach_init example_hash 1 1 None). vm_compute. reflexivity. Qed.

Lemma one_monomino_not_empty : one_monomino ≠ [].
Proof. done. Qed.

(** [can_place_shape] answers [True] exactly when every translated cell is
    inside the board, not blocked and empty; on a board that a program can
    hold it never raises. *)
Theorem can_place_shape_iff (hash : Shape → Z) (b : GameBoard) (shape : Shape)
    (position : Cell) :
  (∀ s, hash s ≠ -1) →
  reachable hash b →
  ∃ r, can_place_shape b shape position = Ok r ∧
       (r = true ↔
        ∀ cell : Cell, cell ∈ shape →
          (0 ≤ position.1 + cell.1 < height b ∧ 0 ≤ position.2 + cell.2 < width b) ∧
          is_blocked b (position.1 + cell.1, position.2 + cell.2) = false ∧
          get_piece_at b (position.1 + cell.1, position.2 + cell.2) = Ok None).
Proof.
  intros Hhash Hreach. pose proof (reachable_wf hash Hhash b Hreach) as Hwf.
  destruct (can_place_cells_spec b position (elements shape) (wf_dims b Hwf))
    as (r & Hr & Hiff).
  exists r. split; [done|]. rewrite Hiff. unfold placeable, is_blocked.
  split; intros Hall cell Hc.
  - apply elem_of_elements in Hc. destruct (Hall cell Hc) as ([? ?] & Hnb & Hcont).
    split_and!; try lia; [by apply bool_decide_eq_false|].
    rewrite get_piece_at_content by done. f_equal.
    destruct Hcont as [?|Hm]; [done|]. apply wf_marker_Z in Hm; done.
  - apply elem_of_elements in Hc. destruct (Hall cell Hc) as ([? ?] & Hnb & Hcont).
    split_and!; try lia; [by apply bool_decide_eq_false in Hnb|].
    rewrite get_piece_at_content in Hcont by done. left. congruence.
Qed.

Lemma can_place_shape_iff_witness :
  (∀ s, example_hash s ≠ -1) ∧
  reachable example_hash board_2x2 ∧
  ∃ r, can_place_shape board_2x2 L_tromino (0, 0) = Ok r ∧
       (r = true ↔
        ∀ cell : Cell, cell ∈ L_tromino →
          (0 ≤ (0, 0).1 + cell.1 < height board_2x2 ∧
           0 ≤ (0, 0).2 + cell.2 < width board_2x2) ∧
          is_blocked board_2x2 ((0, 0).1 + cell.1, (0, 0).2 + cell.2) = false ∧
          get_piece_at board_2x2 ((0, 0).1 + cell.1, (0, 0).2 + cell.2) = Ok None).
Proof.
  split; [exact example_hash_not_marker|]. split; [exact board_2x2_reachable|].
  exact (can_place_shape_iff example_hash board_2x2 L_tromino (0, 0)
           example_hash_not_marker board_2x2_reachable).
Defined.

Lemma footprint_hits (b : GameBoard) (shape : Shape) (position : Cell) (row col : Z) :
  (∀ cell : Cell, cell ∈ elements shape →
     0 ≤ position.1 + cell.1 < height b ∧ 0 ≤ position.2 + cell.2 < width b) →
  0 ≤ row → 0 ≤ col →
  hits (Z.to_nat (height b)) (Z.to_nat (width b)) position (elements shape)
       (Z.to_nat row) (Z.to_nat col)
  ↔ (row - position.1, col - position.2) ∈ shape.
Proof.
  intros Hin Hr Hc. rewrite hits_in_bounds by done. rewrite !Z2Nat.id by done. split.
  - intros ([r k] & Hcell%elem_of_elements & Hi & Hj). simpl in *.
    by replace (row - position.1) with r by lia;
      replace (col - position.2) with k by lia.
  - intros Hcell. exists (row - position.1, col - position.2).
    split; [by apply elem_of_elements|]. simpl. lia.
Qed.

Lemma place_shape_frame (hash : Shape → Z) (b : GameBoard) (shape : Shape)
    (position : Cell) :
  board_wf b →
  can_place_shape b shape position = Ok true →
  ∃ b', place_shape hash b shape position = Ok b' ∧
        width b' = width b ∧ height b' = height b ∧
        blocked_cells b' = blocked_cells b ∧
        ∀ row col, 0 ≤ row < height b → 0 ≤ col < width b →
          get_piece_at b' (row, col)
          = if decide ((row - position.1, col - position.2) ∈ shape)
            then Ok (Some (hash shape)) else get_piece_at b (row, col).
Proof.
  intros Hwf Hcan.
  destruct (place_shape_spec hash b shape position Hwf Hcan)
    as (g' & Hp & Hd' & Hhit & Hmiss).
  exists (set_cells b g'). split_and!; [done..|]. intros row col Hr Hc.
  assert (∀ cell : Cell, cell ∈ elements shape →
            0 ≤ position.1 + cell.1 < height b ∧ 0 ≤ position.2 + cell.2 < width b)
    as Hin.
  { intros cell Hcell. by destruct (can_place_shape_true b shape position Hwf Hcan cell Hcell). }
  rewrite (get_piece_at_content b) by done. unfold get_piece_at. simpl.
  rewrite (grid_get_dims _ _ _ _ _ Hd'), norm_pos_board by done. unfold content.
  case_decide as Hcell.
  - f_equal. apply Hhit. apply footprint_hits; [done | lia | lia | done].
  - f_equal. apply Hmiss. rewrite footprint_hits; [done | done | lia | lia].
Qed.

(** [place_shape] succeeds exactly when [can_place_shape] answers [True];
    it then writes [hash(shape)] into the translated cells and changes
    nothing else.  When the answer is [False] it raises [ValueError]. *)
Theorem place_shape_outcome (hash : Shape → Z) (b : GameBoard) (shape : Shape)
    (position : Cell) :
  (∀ s, hash s ≠ -1) →
  reachable hash b →
  (can_place_shape b shape position = Ok true →
   ∃ b', place_shape hash b shape position = Ok b' ∧
         width b' = width b ∧ height b' = height b ∧
         blocked_cells b' = blocked_cells b ∧
         ∀ row col, 0 ≤ row < height b → 0 ≤ col < width b →
           get_piece_at b' (row, col)
           = if decide ((row - position.1, col - position.2) ∈ shape)
             then Ok (Some (hash shape)) else get_piece_at b (row, col)) ∧
  (can_place_shape b shape position = Ok false →
   place_shape hash b shape position = Raise (ValueError (CannotPlace position))).
Proof.
  intros Hhash Hreach. pose proof (reachable_wf hash Hhash b Hreach) as Hwf.
  split; [by apply place_shape_frame | apply place_shape_false].
Qed.

Lemma place_shape_outcome_witness :
  (∀ s, example_hash s ≠ -1) ∧
  reachable example_hash board_2x1 ∧
  can_place_shape board_2x1 monomino (0, 0) = Ok true ∧
  ∃ b', place_shape example_hash board_2x1 monomino (0, 0) = Ok b' ∧
        width b' = width board_2x1 ∧ height b' = height board_2x1 ∧
        blocked_cells b' = blocked_cells board_2x1 ∧
        ∀ row col, 0 ≤ row < height board_2x1 → 0 ≤ col < width board_2x1 →
          get_piece_at b' (row, col)
          = if decide ((row - (0, 0).1, col - (0, 0).2) ∈ monomino)
            then Ok (Some (example_hash monomino)) else get_piece_at board_2x1 (row, col).
Proof.
  assert (can_place_shape board_2x1 monomino (0, 0) = Ok true) as Hcan
    by (vm_compute; reflexivity).
  split; [exact example_hash_not_marker|]. split; [exact board_2x1_reachable|].
  split; [exact Hcan|].
  exact (proj1 (place_shape_outcome example_hash board_2x1 monomino (0, 0)
                  example_hash_not_marker board_2x1_reachable) Hcan).
Defined.

Lemma check_cells_in_range g h w position shape_hash todo :
  grid_dims g h w →
  (∀ cell : Cell, cell ∈ todo →
     is_Some (norm_pos h w (position.1 + cell.1) (position.2 + cell.2))) →
  check_cells g position shape_hash todo = Ok tt ∨
  check_cells g position shape_hash todo = Raise (ValueError (ShapeNotFound position)).
Proof.
  intros Hd. induction todo as [|[ro co] todo IH]; intros Hin; simpl; [by left|].
  rewrite (grid_get_dims _ _ _ _ _ Hd).
  destruct (Hin (ro, co)) as [[i j] Hn]; [by left|]. simpl in Hn. rewrite Hn.
  cbn [rbind]. case_bool_decide; [by right|]. apply IH.
  intros cell Hc. apply Hin. by right.
Qed.

(** [remove_shape] at a position where the whole shape lies inside the
    board: it succeeds exactly when every translated cell holds
    [hash(shape)], then empties these cells and changes nothing else;
    otherwise it raises [ValueError]. *)
Theorem remove_shape_outcome (hash : Shape → Z) (b : GameBoard) (shape : Shape)
    (position : Cell) :
  (∀ s, hash s ≠ -1) →
  reachable hash b →
  (∀ cell : Cell, cell ∈ shape →
     0 ≤ position.1 + cell.1 < height b ∧ 0 ≤ position.2 + cell.2 < width b) →
  ((∀ cell : Cell, cell ∈ shape →
      get_piece_at b (position.1 + cell.1, position.2 + cell.2) = Ok (Some (hash shape))) →
   ∃ b', remove_shape hash b shape position = Ok b' ∧
         width b' = width b ∧ height b' = height b ∧
         blocked_cells b' = blocked_cells b ∧
         ∀ row col, 0 ≤ row < height b → 0 ≤ col < width b →
           get_piece_at b' (row, col)
           = if decide ((row - position.1, col - position.2) ∈ shape)
             then Ok None else get_piece_at b (row, col)) ∧
  (¬ (∀ cell : Cell, cell ∈ shape →
        get_piece_at b (position.1 + cell.1, position.2 + cell.2)
        = Ok (Some (hash shape))) →
   remove_shape hash b shape position = Raise (ValueError (ShapeNotFound position))).
Proof.
  intros Hhash Hreach Hin0. pose proof (reachable_wf hash Hhash b Hreach) as Hwf.
  assert (∀ cell : Cell, cell ∈ elements shape →
            0 ≤ position.1 + cell.1 < height b ∧ 0 ≤ position.2 + cell.2 < width b)
    as Hin by (intros cell Hc%elem_of_elements; by apply Hin0).
  assert (∀ cell : Cell, cell ∈ elements shape →
            is_Some (norm_pos (Z.to_nat (height b)) (Z.to_nat (width b))
                       (position.1 + cell.1) (position.2 + cell.2))) as Hnorm.
  { intros cell Hc. destruct (Hin cell Hc). by rewrite norm_pos_board. }
  assert (check_cells (cells b) position (hash shape) (elements shape) = Ok tt ↔
          ∀ cell : Cell, cell ∈ shape →
            get_piece_at b (position.1 + cell.1, position.2 + cell.2)
            = Ok (Some (hash shape))) as Hchk.
  { rewrite (check_cells_spec _ _ _ _ _ _ (wf_dims b Hwf)). split.
    - intros Hall cell Hc%elem_of_elements. destruct (Hin cell Hc) as [? ?].
      destruct (Hall cell Hc) as (i & j & Hn & Hs).
      rewrite norm_pos_board in Hn by done. simplify_eq.
      rewrite get_piece_at_content by done. by f_equal.
    - intros Hall cell Hc. destruct (Hin cell Hc) as [? ?].
      eexists _, _. split; [by apply norm_pos_board|].
      apply elem_of_elements in Hc. specialize (Hall cell Hc).
      rewrite get_piece_at_content in Hall by done. by simplify_eq. }
  split.
  - intros Hall. apply Hchk in Hall.
    destruct (remove_shape_ok hash b shape position Hwf) as [b' Hr]; [|done|].
    { intros i j (cell & Hc & Hn)%hits_iff.
      pose proof (proj1 (check_cells_spec _ _ _ _ _ _ (wf_dims b Hwf)) Hall) as Hall'.
      destruct (Hall' cell Hc) as (i' & j' & Hn' & Hs). by simplify_eq. }
    destruct (remove_shape_spec hash b shape position b' Hwf Hr)
      as (g' & -> & Hd' & Hhit & Hmiss).
    exists (set_cells b g'). split_and!; [done..|]. intros row col Hr' Hc'.
    rewrite (get_piece_at_content b) by done. unfold get_piece_at. simpl.
    rewrite (grid_get_dims _ _ _ _ _ Hd'), norm_pos_board by done.
    unfold content. case_decide as Hcell.
    + f_equal. apply Hhit. apply footprint_hits; [done | lia | lia | done].
    + f_equal. apply Hmiss. rewrite footprint_hits; [done | done | lia | lia].
  - intros Hnot. unfold remove_shape.
    destruct (check_cells_in_range (cells b) _ _ position (hash shape) (elements shape)
                (wf_dims b Hwf) Hnorm) as [Hok | ->]; [|done].
    destruct Hnot. by apply Hchk.
Qed.

Lemma remove_shape_outcome_witness :
  (∀ s, example_hash s ≠ -1) ∧
  reachable example_hash board_2x1_one ∧
  (∀ cell : Cell, cell ∈ monomino →
     0 ≤ (0, 0).1 + cell.1 < height board_2x1_one ∧
     0 ≤ (0, 0).2 + cell.2 < width board_2x1_one) ∧
  (∀ cell : Cell, cell ∈ monomino →
     get_piece_at board_2x1_one ((0, 0).1 + cell.1, (0, 0).2 + cell.2)
     = Ok (Some (example_hash monomino))) ∧
  ∃ b', remove_shape example_hash board_2x1_one monomino (0, 0) = Ok b' ∧
        width b' = width board_2x1_one ∧ height b' = height board_2x1_one ∧
        blocked_cells b' = blocked_cells board_2x1_one ∧
        ∀ row col, 0 ≤ row < height board_2x1_one → 0 ≤ col < width board_2x1_one →
          get_piece_at b' (row, col)
          = if decide ((row - (0, 0).1, col - (0, 0).2) ∈ monomino)
            then Ok None else get_piece_at board_2x1_one (row, col).
Proof.
  assert (∀ cell : Cell, cell ∈ monomino →
            get_piece_at board_2x1_one ((0, 0).1 + cell.1, (0, 0).2 + cell.2)
            = Ok (Some (example_hash monomino))) as Hthere.
  { intros cell ->%elem_of_singleton. vm_compute. reflexivity. }
  split; [exact example_hash_not_marker|]. split; [exact board_2x1_one_reachable|].
  split; [exact monomino_inside_2x1|]. split; [exact Hthere|].
  exact (proj1 (remove_shape_outcome example_hash board_2x1_one monomino (0, 0)
                  example_hash_not_marker board_2x1_one_reachable monomino_inside_2x1)
           Hthere).
Defined.

(** ** Subscripts below zero *)

Lemma py_norm_index_shift (len : nat) (i : Z) :
  0 ≤ i < Z.of_nat len →
  py_norm_index len (i - Z.of_nat len) = py_norm_index len i.
Proof.
  intros Hi. unfold py_norm_index.
  rewrite (decide_False (P := 0 ≤ i - Z.of_nat len < Z.of_nat len)) by lia.
  rewrite (decide_True (P := - Z.of_nat len ≤ i - Z.of_nat len < 0)) by lia.
  rewrite (decide_True (P := 0 ≤ i < Z.of_nat len)) by lia.
  f_equal. lia.
Qed.

Lemma grid_get_same_index g h w (row col row' col' : Z) :
  grid_dims g h w →
  py_norm_index h row = py_norm_index h row' →
  py_norm_index w col = py_norm_index w col' →
  grid_get g row col = grid_get g row' col'.
Proof.
  intros Hd Hr Hc. rewrite !(grid_get_dims _ _ _ _ _ Hd). unfold norm_pos.
  by rewrite Hr, Hc.
Qed.

Lemma grid_set_same_index g h w (row col row' col' : Z) (v : Slot) :
  grid_dims g h w →
  py_norm_index h row = py_norm_index h row' →
  py_norm_index w col = py_norm_index w col' →
  grid_set g row col v = grid_set g row' col' v.
Proof.
  intros Hd Hr Hc. unfold grid_set. pose proof Hd as [Hlen _]. rewrite Hlen, Hr.
  destruct (py_norm_index h row') as [i|]; [|done].
  destruct (g !! i) as [r|] eqn:E; [|done].
  rewrite (grid_dims_row _ _ _ _ _ Hd E), Hc. done.
Qed.

Lemma write_cells_same_index g h w (p p' : Cell) (v : Slot) (todo : list Cell) :
  grid_dims g h w →
  (∀ cell : Cell, cell ∈ todo →
     py_norm_index h (p.1 + cell.1) = py_norm_index h (p'.1 + cell.1) ∧
     py_norm_index w (p.2 + cell.2) = py_norm_index w (p'.2 + cell.2)) →
  write_cells g p v todo = write_cells g p' v todo.
Proof.
  revert g. induction todo as [|[ro co] todo IH]; intros g Hd Hin; simpl; [done|].
  destruct (Hin (ro, co)) as [Hr Hc]; [by left|]. simpl in Hr, Hc.
  rewrite (grid_set_same_index g h w _ _ _ _ v Hd Hr Hc).
  pose proof (grid_set_dims g h w (p'.1 + ro) (p'.2 + co) v Hd) as Hset.
  destruct (norm_pos h w (p'.1 + ro) (p'.2 + co)) as [[i j]|].
  - destruct Hset as (g1 & -> & Hd1 & _). cbn [rbind]. apply IH; [done|].
    intros cell Hcell. apply Hin. by right.
  - by rewrite Hset.
Qed.

(** [remove_shape] does not check bounds, and Python counts a subscript
    below zero from the end: called at the position moved up by the height
    and left by the width of the board, it finds the very same cells.  The
    two calls succeed in the same cases and then give the same board; when
    they fail, both raise [ValueError], each one naming the position it was
    called with. *)
Theorem remove_shape_wraps_around (hash : Shape → Z) (b : GameBoard)
    (shape : Shape) (position : Cell) :
  (∀ s, hash s ≠ -1) →
  reachable hash b →
  (∀ cell : Cell, cell ∈ shape →
     0 ≤ position.1 + cell.1 < height b ∧ 0 ≤ position.2 + cell.2 < width b) →
  (∃ b', remove_shape hash b shape (position.1 - height b, position.2 - width b) = Ok b' ∧
         remove_shape hash b shape position = Ok b') ∨
  (remove_shape hash b shape (position.1 - height b, position.2 - width b)
   = Raise (ValueError (ShapeNotFound (position.1 - height b, position.2 - width b))) ∧
   remove_shape hash b shape position = Raise (ValueError (ShapeNotFound position))).
Proof.
  intros Hhash Hreach Hin0. pose proof (reachable_wf hash Hhash b Hreach) as Hwf.
  set (p' := (position.1 - height b, position.2 - width b)).
  assert (∀ cell : Cell, cell ∈ elements shape →
            py_norm_index (Z.to_nat (height b)) (p'.1 + cell.1)
            = py_norm_index (Z.to_nat (height b)) (position.1 + cell.1) ∧
            py_norm_index (Z.to_nat (width b)) (p'.2 + cell.2)
            = py_norm_index (Z.to_nat (width b)) (position.2 + cell.2)) as Hidx.
  { intros cell Hc%elem_of_elements. destruct (Hin0 cell Hc) as [? ?].
    pose proof (wf_width b Hwf). pose proof (wf_height b Hwf). simpl. split.
    - rewrite <- (py_norm_index_shift _ (position.1 + cell.1)) by lia.
      f_equal. lia.
    - rewrite <- (py_norm_index_shift _ (position.2 + cell.2)) by lia.
      f_equal. lia. }
  assert (∀ cell : Cell, cell ∈ elements shape →
            is_Some (norm_pos (Z.to_nat (height b)) (Z.to_nat (width b))
                              (position.1 + cell.1) (position.2 + cell.2))) as Hsome.
  { intros cell Hc%elem_of_elements. destruct (Hin0 cell Hc) as [? ?].
    by rewrite norm_pos_board. }
  assert (∀ cell : Cell, cell ∈ elements shape →
            is_Some (norm_pos (Z.to_nat (height b)) (Z.to_nat (width b))
                              (p'.1 + cell.1) (p'.2 + cell.2))) as Hsome'.
  { intros cell Hc. destruct (Hidx cell Hc) as [E1 E2]. specialize (Hsome cell Hc).
    unfold norm_pos in *. by rewrite E1, E2. }
  assert (check_cells (cells b) p' (hash shape) (elements shape) = Ok tt ↔
          check_cells (cells b) position (hash shape) (elements shape) = Ok tt) as Hchk.
  { rewrite !(check_cells_spec _ _ _ _ _ _ (wf_dims b Hwf)).
    split; intros Hall cell Hc; destruct (Hall cell Hc) as (i & j & Hn & Hs);
      exists i, j; (split; [|done]); destruct (Hidx cell Hc) as [E1 E2];
      unfold norm_pos in *; [by rewrite <- E1, <- E2 | by rewrite E1, E2]. }
  unfold remove_shape.
  rewrite (write_cells_same_index _ _ _ p' position None _ (wf_dims b Hwf) Hidx).
  destruct (check_cells_in_range (cells b) _ _ p' (hash shape) (elements shape)
              (wf_dims b Hwf) Hsome') as [E1|E1];
    destruct (check_cells_in_range (cells b) _ _ position (hash shape) (elements shape)
                (wf_dims b Hwf) Hsome) as [E2|E2]; rewrite E1, E2; cbn [rbind].
  - left. destruct (write_cells_ok (cells b) _ _ position None (elements shape)
                      (wf_dims b Hwf) Hsome) as (g' & -> & _).
    cbn [rbind]. by eexists.
  - apply Hchk in E1. congruence.
  - apply Hchk in E2. congruence.
  - by right.
Qed.

Lemma remove_shape_wraps_around_witness :
  (∀ s, example_hash s ≠ -1) ∧
  reachable example_hash board_2x1_one ∧
  (∀ cell : Cell, cell ∈ monomino →
     0 ≤ (0, 0).1 + cell.1 < height board_2x1_one ∧
     0 ≤ (0, 0).2 + cell.2 < width board_2x1_one) ∧
  remove_shape example_hash board_2x1_one monomino (-1, -2) = Ok board_2x1 ∧
  remove_shape example_hash board_2x1_one monomino (0, 0) = Ok board_2x1.
Proof.
  split; [exact example_hash_not_marker|]. split; [exact board_2x1_one_reachable|].
  split; [exact monomino_inside_2x1|].
  destruct (remove_shape_wraps_around example_hash board_2x1_one monomino (0, 0)
              example_hash_not_marker board_2x1_one_reachable monomino_inside_2x1)
    as [(b' & H1 & H2)|[_ H2]].
  - rewrite board_2x1_one_removed in H2. injection H2 as <-. split; [exact H1|].
    exact board_2x1_one_removed.
  - rewrite board_2x1_one_removed in H2. discriminate H2.
Defined.

(** [remove_shape] followed by [place_shape] of the same shape at the same
    position (inside the board) gives back the board from before. *)
Theorem remove_place_round_trip (hash : Shape → Z) (b b' : GameBoard)
    (shape : Shape) (position : Cell) :
  (∀ s, hash s ≠ -1) →
  reachable hash b →
  (∀ cell : Cell, cell ∈ shape →
     0 ≤ position.1 + cell.1 < height b ∧ 0 ≤ position.2 + cell.2 < width b) →
  remove_shape hash b shape position = Ok b' →
  can_place_shape b' shape position = Ok true ∧
  place_shape hash b' shape position = Ok b.
Proof.
  intros Hhash Hreach Hin0 Hrm. pose proof (reachable_wf hash Hhash b Hreach) as Hwf.
  assert (∀ cell : Cell, cell ∈ elements shape →
            0 ≤ position.1 + cell.1 < height b ∧ 0 ≤ position.2 + cell.2 < width b)
    as Hin by (intros cell Hc%elem_of_elements; by apply Hin0).
  pose proof (remove_shape_wf hash Hhash _ _ _ _ Hwf Hrm) as Hwf'.
  destruct (remove_shape_spec hash b shape position b' Hwf Hrm)
    as (g' & -> & Hd' & Hhit & Hmiss).
  assert (can_place_shape (set_cells b g') shape position = Ok true) as Hcan.
  { destruct (can_place_cells_spec (set_cells b g') position (elements shape)
                (wf_dims _ Hwf')) as (r & Hr & Hiff).
    unfold can_place_shape. rewrite Hr. f_equal. apply Hiff. intros cell Hc.
    destruct (Hin cell Hc) as [? ?].
    assert (hits (Z.to_nat (height b)) (Z.to_nat (width b)) position (elements shape)
              (Z.to_nat (position.1 + cell.1)) (Z.to_nat (position.2 + cell.2))) as Hh.
    { apply hits_iff. exists cell. split; [done|]. by apply norm_pos_board. }
    destruct (Hhit _ _ Hh) as [Hold Hnew]. split_and!; simpl; try lia.
    - intros Hbl. apply (wf_marker_Z b _ _ Hwf) in Hbl; [|done..].
      unfold content in Hbl. rewrite Hold in Hbl. simplify_eq.
      by destruct (Hhash shape).
    - left. done. }
  split; [done|].
  destruct (place_shape_spec hash _ shape position Hwf' Hcan)
    as (g'' & -> & Hd'' & Hhit' & Hmiss').
  simpl in *. f_equal. assert (g'' = cells b) as ->; [|by destruct b].
  eapply grid_ext; [done | by apply wf_dims |]. intros i j Hi Hj.
  destruct (decide (hits (Z.to_nat (height b)) (Z.to_nat (width b)) position
                      (elements shape) i j)) as [Hh|Hh].
  - rewrite (Hhit' _ _ Hh). by destruct (Hhit _ _ Hh) as [-> _].
  - rewrite (Hmiss' _ _ Hh). by apply Hmiss.
Qed.

Lemma remove_place_round_trip_witness :
  (∀ s, example_hash s ≠ -1) ∧
  reachable example_hash board_2x1_one ∧
  (∀ cell : Cell, cell ∈ monomino →
     0 ≤ (0, 0).1 + cell.1 < height board_2x1_one ∧
     0 ≤ (0, 0).2 + cell.2 < width board_2x1_one) ∧
  remove_shape example_hash board_2x1_one monomino (0, 0) = Ok board_2x1 ∧
  can_place_shape board_2x1 monomino (0, 0) = Ok true ∧
  place_shape example_hash board_2x1 monomino (0, 0) = Ok board_2x1_one.
Proof.
  split; [exact example_hash_not_marker|]. split; [exact board_2x1_one_reachable|].
  split; [exact monomino_inside_2x1|]. split; [exact board_2x1_one_removed|].
  exact (remove_place_round_trip example_hash board_2x1_one board_2x1 monomino (0, 0)
           example_hash_not_marker board_2x1_one_reachable monomino_inside_2x1
           board_2x1_one_removed).
Defined.

(** ** The constructor, [clear], [copy] and [__eq__] *)

Lemma GameBoard_init_inv (w h : Z) (blocked : option (gset Cell)) (b : GameBoard) :
  GameBoard_init w h blocked = Ok b →
  width b = w ∧ height b = h ∧ blocked_cells b = supplied_blocked blocked ∧
  ∀ i j, slot_at (cells b) i j
         = if decide ((Z.of_nat i, Z.of_nat j) ∈ supplied_blocked blocked)
           then Some (-1) else None.
Proof.
  unfold GameBoard_init. case_bool_decide as Hw; [|done].
  case_bool_decide as Hh; [|done]. cbn [negb].
  set (todo := match blocked with None => [] | Some s => elements s end).
  assert (∀ cell, cell ∈ todo ↔ cell ∈ supplied_blocked blocked) as Htodo.
  { intros cell. subst todo. destruct blocked as [s|]; simpl.
    - apply elem_of_elements.
    - split; [by intros ?%elem_of_nil | by intros ?%not_elem_of_empty]. }
  pose proof (grid_dims_replicate (Z.to_nat h) (Z.to_nat w) None) as Hd0.
  destruct (decide (Forall (cell_in_range w h) todo)) as [Hall|Hall].
  - destruct (init_blocked_ok w h todo _ ∅ Hd0 Hall) as (g' & -> & Hd' & Hs').
    cbn [rbind]. intros [= <-]. simpl. split_and!; [done | done | |].
    + apply set_eq. intros cell. rewrite <- Htodo. set_solver.
    + intros i j. rewrite Hs', slot_at_replicate.
      destruct (decide ((Z.of_nat i, Z.of_nat j) ∈ todo)) as [Hin|Hin].
      * rewrite decide_True; [done | by apply Htodo].
      * rewrite decide_False; [done | by rewrite <- Htodo].
  - destruct (init_blocked_fail w h todo _ ∅ Hd0 Hall) as (cell & _ & _ & ->). done.
Qed.

Lemma board_ext (b1 b2 : GameBoard) :
  board_wf b1 → board_wf b2 →
  width b1 = width b2 → height b1 = height b2 →
  blocked_cells b1 = blocked_cells b2 →
  (∀ i j, (i < Z.to_nat (height b1))%nat → (j < Z.to_nat (width b1))%nat →
          slot_at (cells b1) i j = slot_at (cells b2) i j) →
  b1 = b2.
Proof.
  intros Hwf1 Hwf2 Hw Hh Hbl Hs. destruct b1 as [w1 h1 g1 bl1], b2 as [w2 h2 g2 bl2].
  simpl in *. subst. f_equal.
  eapply grid_ext; [exact (wf_dims _ Hwf1) | exact (wf_dims _ Hwf2) | done].
Qed.

Lemma clear_cells_exact g h w (todo : list Cell) :
  grid_dims g h w →
  (∀ cell : Cell, cell ∈ todo → 0 ≤ cell.1 < Z.of_nat h ∧ 0 ≤ cell.2 < Z.of_nat w) →
  ∃ g', clear_cells g todo = Ok g' ∧ grid_dims g' h w ∧
        ∀ i j, slot_at g' i j
               = if decide ((Z.of_nat i, Z.of_nat j) ∈ todo)
                 then (if decide (slot_at g i j = Some (-1)) then Some (-1) else None)
                 else slot_at g i j.
Proof.
  revert g. induction todo as [|[row col] todo IH]; intros g Hd Hin; cbn [clear_cells].
  - exists g. split_and!; [done..|]. intros i j.
    rewrite decide_False; [done | apply not_elem_of_nil].
  - destruct (Hin (row, col)) as [Hr Hc]; [by left|]. simpl in Hr, Hc.
    assert (∀ cell : Cell, cell ∈ todo →
              0 ≤ cell.1 < Z.of_nat h ∧ 0 ≤ cell.2 < Z.of_nat w) as Hin'
      by (intros cell Hcell; apply Hin; by right).
    rewrite (grid_get_dims _ _ _ _ _ Hd), norm_pos_in by done. cbn [rbind].
    assert (∀ i j, (Z.of_nat i, Z.of_nat j) = (row, col)
                   ↔ Z.to_nat row = i ∧ Z.to_nat col = j) as Hij.
    { intros i j. split; [intros [= <- <-]; lia | intros [<- <-]; f_equal; lia]. }
    case_bool_decide as Hv.
    + pose proof (grid_set_dims g h w row col None Hd) as Hset.
      rewrite norm_pos_in in Hset by done. destruct Hset as (g1 & -> & Hd1 & Hs1).
      cbn [rbind]. destruct (IH g1 Hd1 Hin') as (g' & -> & Hd' & Hs').
      exists g'. split_and!; [done..|]. intros i j. rewrite Hs', !Hs1.
      destruct (decide (Z.to_nat row = i ∧ Z.to_nat col = j)) as [[<- <-]|Hne].
      * rewrite (decide_True (P := _ ∈ (row, col) :: todo))
          by (apply elem_of_cons; left; f_equal; lia).
        rewrite (decide_False (P := slot_at g _ _ = Some (-1))) by done.
        by repeat case_decide.
      * destruct (decide ((Z.of_nat i, Z.of_nat j) ∈ todo)) as [Hin2|Hin2].
        -- rewrite (decide_True (P := _ ∈ (row, col) :: todo)); [done | by right].
        -- rewrite (decide_False (P := _ ∈ (row, col) :: todo)); [done|].
           intros [Heq|?]%elem_of_cons; [|done]. by apply Hij in Heq.
    + destruct (IH g Hd Hin') as (g' & -> & Hd' & Hs').
      exists g'. split_and!; [done..|]. intros i j. rewrite Hs'.
      assert (slot_at g (Z.to_nat row) (Z.to_nat col) = Some (-1)) as Hm.
      { destruct (decide (slot_at g (Z.to_nat row) (Z.to_nat col) = Some (-1)));
          [done | by destruct Hv]. }
      destruct (decide ((Z.of_nat i, Z.of_nat j) ∈ todo)) as [Hin2|Hin2].
      * rewrite (decide_True (P := _ ∈ (row, col) :: todo)); [done | by right].
      * destruct (decide (Z.to_nat row = i ∧ Z.to_nat col = j)) as [[<- <-]|Hne].
        -- rewrite (decide_True (P := _ ∈ (row, col) :: todo))
             by (apply elem_of_cons; left; f_equal; lia).
           by rewrite decide_True.
        -- rewrite (decide_False (P := _ ∈ (row, col) :: todo)); [done|].
           intros [Heq|?]%elem_of_cons; [|done]. by apply Hij in Heq.
Qed.

Lemma GameBoard_init_own_blocked (b : GameBoard) :
  board_wf b →
  ∃ b0, GameBoard_init (width b) (height b) (Some (blocked_cells b)) = Ok b0.
Proof.
  intros Hwf. unfold GameBoard_init.
  rewrite !bool_decide_true by (apply wf_width || apply wf_height; done). cbn [negb].
  destruct (init_blocked_ok (width b) (height b) (elements (blocked_cells b))
              (replicate (Z.to_nat (height b)) (replicate (Z.to_nat (width b)) None)) ∅)
    as (g' & -> & _); [apply grid_dims_replicate| |by eexists].
  apply Forall_forall. intros [row col] Hc%elem_of_elements.
  by apply (wf_blocked_in b Hwf).
Qed.

(** [clear] takes a board back to what the constructor gives for the same
    dimensions and blocked cells. *)
Theorem clear_gives_fresh_board (hash : Shape → Z) (b : GameBoard) :
  (∀ s, hash s ≠ -1) →
  reachable hash b →
  ∃ b', clear b = Ok b' ∧
        GameBoard_init (width b) (height b) (Some (blocked_cells b)) = Ok b'.
Proof.
  intros Hhash Hreach. pose proof (reachable_wf hash Hhash b Hreach) as Hwf.
  destruct (GameBoard_init_own_blocked b Hwf) as [b0 Hinit].
  destruct (GameBoard_init_inv _ _ _ _ Hinit) as (Hw0 & Hh0 & Hbl0 & Hs0).
  simpl in Hbl0, Hs0.
  destruct (clear_cells_exact (cells b) _ _ (grid_positions b) (wf_dims b Hwf))
    as (g' & Hclear & Hd' & Hs').
  { intros [row col] [? ?]%elem_of_grid_positions. simpl.
    pose proof (wf_width b Hwf). pose proof (wf_height b Hwf). lia. }
  exists b0. split; [|done]. unfold clear. rewrite Hclear. cbn [rbind]. f_equal.
  pose proof (clear_wf b (set_cells b g') Hwf) as Hwf'.
  unfold clear in Hwf'. rewrite Hclear in Hwf'. specialize (Hwf' eq_refl).
  apply board_ext; [done | by eapply GameBoard_init_wf | done..|].
  simpl. intros i j Hi Hj. rewrite Hs', Hs0.
  rewrite decide_True by (apply elem_of_grid_positions; simpl; lia).
  destruct (decide (slot_at (cells b) i j = Some (-1))) as [Hm|Hm].
  - rewrite decide_True; [done|]. by apply (wf_marker b Hwf).
  - rewrite decide_False; [done|]. by rewrite <- (wf_marker b Hwf).
Qed.

Lemma clear_gives_fresh_board_witness :
  (∀ s, example_hash s ≠ -1) ∧
  reachable example_hash board_2x1_one ∧
  ∃ b', clear board_2x1_one = Ok b' ∧
        GameBoard_init (width board_2x1_one) (height board_2x1_one)
          (Some (blocked_cells board_2x1_one)) = Ok b'.
Proof.
  split; [exact example_hash_not_marker|]. split; [exact board_2x1_one_reachable|].
  exact (clear_gives_fresh_board example_hash board_2x1_one
           example_hash_not_marker board_2x1_one_reachable).
Defined.

(** [copy] never fails on a board that a program can hold, and the copy
    equals the original. *)
Theorem copy_is_equal (hash : Shape → Z) (b : GameBoard) :
  (∀ s, hash s ≠ -1) →
  reachable hash b →
  copy b = Ok b.
Proof.
  intros Hhash Hreach. pose proof (reachable_wf hash Hhash b Hreach) as Hwf.
  destruct (GameBoard_init_own_blocked b Hwf) as [b0 Hinit].
  destruct (GameBoard_init_inv _ _ _ _ Hinit) as (Hw0 & Hh0 & Hbl0 & _).
  unfold copy. rewrite Hinit. cbn [rbind]. f_equal.
  destruct b, b0. simpl in *. unfold set_cells. simpl. by subst.
Qed.

Lemma copy_is_equal_witness :
  (∀ s, example_hash s ≠ -1) ∧
  reachable example_hash board_2x1_one ∧
  copy board_2x1_one = Ok board_2x1_one.
Proof.
  split; [exact example_hash_not_marker|]. split; [exact board_2x1_one_reachable|].
  exact (copy_is_equal example_hash board_2x1_one
           example_hash_not_marker board_2x1_one_reachable).
Defined.

Lemma same_cells_spec (g1 g2 : Grid) (h w : nat) (todo : list Cell) :
  grid_dims g1 h w → grid_dims g2 h w →
  (∀ cell : Cell, cell ∈ todo → 0 ≤ cell.1 < Z.of_nat h ∧ 0 ≤ cell.2 < Z.of_nat w) →
  ∃ r, same_cells g1 g2 todo = Ok r ∧
       (r = true ↔ ∀ cell : Cell, cell ∈ todo →
                     slot_at g1 (Z.to_nat cell.1) (Z.to_nat cell.2)
                     = slot_at g2 (Z.to_nat cell.1) (Z.to_nat cell.2)).
Proof.
  intros Hd1 Hd2. induction todo as [|[row col] todo IH]; intros Hin; cbn [same_cells].
  - exists true. split; [done|]. split; [|done]. by intros _ cell ?%elem_of_nil.
  - destruct (Hin (row, col)) as [Hr Hc]; [by left|]. simpl in Hr, Hc.
    rewrite (grid_get_dims _ _ _ _ _ Hd1), (grid_get_dims _ _ _ _ _ Hd2).
    rewrite norm_pos_in by done. cbn [rbind].
    destruct IH as (r & -> & Hiff); [intros cell Hcell; apply Hin; by right|].
    case_bool_decide as Heq.
    + exists r. split; [done|]. rewrite Hiff. split.
      * intros Hall cell [->|Hcell]%elem_of_cons; [done | by apply Hall].
      * intros Hall cell Hcell. apply Hall. by right.
    + exists false. split; [done|]. split; [done|]. intros Hall.
      destruct Heq. apply (Hall (row, col)). by left.
Qed.

Global Instance GameBoard_eq_dec : EqDecision GameBoard.
Proof. solve_decision. Defined.

(** On boards that a program can hold, [__eq__] answers whether the two
    boards are the same in width, height, every cell and blocked cells; it
    never raises. *)
Theorem board_eq_decides_equality (hash : Shape → Z) (b1 b2 : GameBoard) :
  (∀ s, hash s ≠ -1) →
  reachable hash b1 → reachable hash b2 →
  board_eq b1 b2 = Ok (bool_decide (b1 = b2)).
Proof.
  intros Hhash Hr1 Hr2.
  pose proof (reachable_wf hash Hhash b1 Hr1) as Hwf1.
  pose proof (reachable_wf hash Hhash b2 Hr2) as Hwf2.
  unfold board_eq. case_bool_decide as Hw; cbn [negb]; cycle 1.
  { rewrite bool_decide_false; [done | congruence]. }
  case_bool_decide as Hh; cbn [negb]; cycle 1.
  { rewrite bool_decide_false; [done | congruence]. }
  pose proof (wf_dims b2 Hwf2) as Hd2. rewrite <- Hw, <- Hh in Hd2.
  destruct (same_cells_spec (cells b1) (cells b2) _ _ (grid_positions b1)
              (wf_dims b1 Hwf1) Hd2) as (r & -> & Hiff).
  { intros [row col] [? ?]%elem_of_grid_positions. simpl.
    pose proof (wf_width b1 Hwf1). pose proof (wf_height b1 Hwf1). lia. }
  cbn [rbind]. destruct r; cbn [negb].
  - destruct Hiff as [Hall _]. specialize (Hall eq_refl). f_equal.
    apply bool_decide_ext. split; [|by intros ->]. intros Hbl.
    apply board_ext; [done..|]. intros i j Hi Hj.
    specialize (Hall (Z.of_nat i, Z.of_nat j)). simpl in Hall.
    rewrite !Nat2Z.id in Hall. apply Hall. apply elem_of_grid_positions. simpl. lia.
  - f_equal. symmetry. apply bool_decide_eq_false. intros ->.
    destruct Hiff as [_ Hall]. by specialize (Hall (λ _ _, eq_refl)).
Qed.

Lemma board_eq_decides_equality_witness :
  (∀ s, example_hash s ≠ -1) ∧
  reachable example_hash board_2x1 ∧ reachable example_hash board_2x1_one ∧
  board_eq board_2x1 board_2x1_one = Ok (bool_decide (board_2x1 = board_2x1_one)).
Proof.
  split; [exact example_hash_not_marker|]. split; [exact board_2x1_reachable|].
  split; [exact board_2x1_one_reachable|].
  exact (board_eq_decides_equality example_hash board_2x1 board_2x1_one
           example_hash_not_marker board_2x1_reachable board_2x1_one_reachable).
Defined.

(** A new board has the dimensions and the blocked cells it was given;
    the blocked cells are its occupied cells, all others are empty. *)
Theorem GameBoard_init_result (w h : Z) (blocked : option (gset Cell)) (b : GameBoard) :
  GameBoard_init w h blocked = Ok b →
  width b = w ∧ height b = h ∧
  get_blocked_cells b = supplied_blocked blocked ∧
  get_occupied_cells b = Ok (supplied_blocked blocked) ∧
  is_empty b = true ∧
  ∀ row col, 0 ≤ row < h → 0 ≤ col < w →
    get_piece_at b (row, col)
    = Ok (if decide ((row, col) ∈ supplied_blocked blocked) then Some (-1) else None).
Proof.
  intros Hinit. pose proof (GameBoard_init_wf _ _ _ _ Hinit) as Hwf.
  destruct (GameBoard_init_inv _ _ _ _ Hinit) as (Hw & Hh & Hbl & Hs).
  assert (∀ row col, 0 ≤ row → 0 ≤ col →
            content b row col
            = if decide ((row, col) ∈ supplied_blocked blocked) then Some (-1) else None)
    as Hcontent.
  { intros row col ? ?. unfold content. rewrite Hs. by rewrite !Z2Nat.id by lia. }
  split_and!; [done | done | done | | |].
  - unfold get_occupied_cells. rewrite collect_cells_spec by done. f_equal.
    apply set_eq. intros [row col]. rewrite elem_of_list_to_set, list_elem_of_filter.
    rewrite elem_of_grid_positions. simpl. split.
    + intros [Hnn [? ?]]. rewrite Hcontent in Hnn by lia. by case_decide.
    + intros Hin. rewrite <- Hbl in Hin.
      destruct (wf_blocked_in b Hwf row col Hin) as [? ?]. split; [|done].
      rewrite Hcontent by lia. rewrite decide_True by (by rewrite <- Hbl). done.
  - unfold is_empty. apply Is_true_true, forallb_True.
    rewrite concat_cells_as_positions by done. apply Forall_fmap, Forall_forall.
    intros [row col] [? ?]%elem_of_grid_positions. simpl.
    rewrite Hcontent by lia. by case_decide.
  - intros row col ? ?. rewrite get_piece_at_content; [|done|lia|lia]. f_equal.
    apply Hcontent; lia.
Qed.

Lemma GameBoard_init_result_witness :
  GameBoard_init 1 1 (Some {[ (0, 0) ]}) = Ok board_1x1_blocked ∧
  width board_1x1_blocked = 1 ∧ height board_1x1_blocked = 1 ∧
  get_blocked_cells board_1x1_blocked = supplied_blocked (Some {[ (0, 0) ]}) ∧
  get_occupied_cells board_1x1_blocked = Ok (supplied_blocked (Some {[ (0, 0) ]})) ∧
  is_empty board_1x1_blocked = true ∧
  ∀ row col, 0 ≤ row < 1 → 0 ≤ col < 1 →
    get_piece_at board_1x1_blocked (row, col)
    = Ok (if decide ((row, col) ∈ supplied_blocked (Some {[ (0, 0) ]}))
          then Some (-1) else None).
Proof.
  split; [exact board_1x1_blocked_init|].
  exact (GameBoard_init_result 1 1 (Some {[ (0, 0) ]}) board_1x1_blocked
           board_1x1_blocked_init).
Defined.

(** ** Areas *)

Lemma length_filter_fmap {A B} (f : A → B) (P : B → Prop) `{∀ x, Decision (P x)}
    (l : list A) :
  length (filter P (f <$> l)) = length (filter (λ x, P (f x)) l).
Proof.
  induction l as [|x l IH]; [done|]. csimpl. rewrite !filter_cons.
  destruct (decide (P (f x))); simpl; by rewrite IH.
Qed.

Lemma size_translate (d : Cell) (s : Shape) : size (translate d s) = size s.
Proof.
  induction s as [|[r k] s Hnotin IH] using set_ind_L.
  - assert (translate d ∅ = ∅) as ->; [|done].
    apply set_eq. intros c. rewrite elem_of_translate. set_solver.
  - assert (translate d ({[(r, k)]} ∪ s) = {[(r + d.1, k + d.2)]} ∪ translate d s) as ->.
    { apply set_eq. intros [r' k']. rewrite elem_of_union, !elem_of_translate.
      rewrite elem_of_union, !elem_of_singleton. simpl.
      split; (intros [[= ? ?]|?]; [left; f_equal; lia | by right]). }
    rewrite !size_union, !size_singleton, IH; [done | set_solver |].
    apply disjoint_singleton_l. rewrite elem_of_translate. simpl.
    by replace (r + d.1 - d.1) with r by lia; replace (k + d.2 - d.2) with k by lia.
Qed.

(** The sets that the two queries build on a well-formed board. *)
Definition occupied_set (b : GameBoard) : gset Cell :=
  list_to_set (filter (λ c : Cell, is_not_None (content b c.1 c.2) = true)
                      (grid_positions b)).
Definition empty_set (b : GameBoard) : gset Cell :=
  list_to_set (filter (λ c : Cell, is_None (content b c.1 c.2) = true)
                      (grid_positions b)).

Lemma get_occupied_cells_set b : board_wf b → get_occupied_cells b = Ok (occupied_set b).
Proof. intros. by apply collect_cells_spec. Qed.

Lemma get_empty_cells_set b : board_wf b → get_empty_cells b = Ok (empty_set b).
Proof. intros. by apply collect_cells_spec. Qed.

Lemma elem_of_empty_set (b : GameBoard) (row col : Z) :
  (row, col) ∈ empty_set b ↔
  (0 ≤ row < height b ∧ 0 ≤ col < width b) ∧ content b row col = None.
Proof.
  unfold empty_set. rewrite elem_of_list_to_set, list_elem_of_filter.
  rewrite elem_of_grid_positions. unfold is_None. simpl.
  rewrite bool_decide_eq_true. tauto.
Qed.

Lemma empty_area_size b : board_wf b → empty_area b = Z.of_nat (size (empty_set b)).
Proof.
  intros Hwf. unfold empty_area, empty_set.
  rewrite concat_cells_as_positions, length_filter_fmap by done.
  by rewrite size_list_to_set by apply NoDup_filter, NoDup_grid_positions.
Qed.

Lemma filled_area_size b : board_wf b → filled_area b = Z.of_nat (size (occupied_set b)).
Proof.
  intros Hwf. unfold filled_area, occupied_set.
  rewrite concat_cells_as_positions, length_filter_fmap by done.
  by rewrite size_list_to_set by apply NoDup_filter, NoDup_grid_positions.
Qed.

Lemma area_sum (b : GameBoard) :
  board_wf b →
  filled_area b + empty_area b = total_area b ∧ empty_area b ≤ available_area b.
Proof.
  intros Hwf. destruct (board_queries b Hwf) as (occ & emp & Ho & He & Hocc & _ & Hsum).
  rewrite get_occupied_cells_set in Ho by done. rewrite get_empty_cells_set in He by done.
  simplify_eq. rewrite filled_area_size, empty_area_size by done.
  split; [done|]. unfold available_area, total_area in *.
  assert (blocked_cells b ⊆ occupied_set b) as Hsub.
  { intros [row col] Hbl. apply Hocc. simpl.
    destruct (wf_blocked_in b Hwf row col Hbl) as [? ?]. split.
    - by apply elem_of_grid_positions.
    - apply (wf_marker_Z b row col Hwf) in Hbl; [|done..]. by rewrite Hbl. }
  apply subseteq_size in Hsub. lia.
Qed.

Lemma place_shape_empty_set (hash : Shape → Z) (b b' : GameBoard) (shape : Shape)
    (position : Cell) :
  board_wf b → board_wf b' →
  place_shape hash b shape position = Ok b' →
  translate position shape ⊆ empty_set b ∧
  empty_set b' = empty_set b ∖ translate position shape.
Proof.
  intros Hwf Hwf' Hp.
  pose proof (place_shape_inv hash b shape position b' Hwf Hp) as Hcan.
  destruct (place_shape_frame hash b shape position Hwf Hcan)
    as (b'' & Hp'' & Hw & Hh & _ & Hcells).
  rewrite Hp in Hp''. simplify_eq. split.
  - intros [row col] Hc%elem_of_translate. simpl in Hc. apply elem_of_elements in Hc.
    destruct (can_place_shape_true b shape position Hwf Hcan _ Hc) as ([? ?] & _ & Hnone).
    simpl in *. apply elem_of_empty_set.
    replace (position.1 + (row - position.1)) with row in * by lia.
    replace (position.2 + (col - position.2)) with col in * by lia. done.
  - apply set_eq. intros [row col].
    rewrite elem_of_difference, !elem_of_empty_set, elem_of_translate, Hw, Hh. simpl.
    split.
    + intros [[? ?] Hnone]. specialize (Hcells row col ltac:(done) ltac:(done)).
      rewrite !get_piece_at_content in Hcells by (done || lia).
      case_decide; [congruence|]. split; [|done]. split; [done|congruence].
    + intros [[[? ?] Hnone] Hnot]. split; [done|].
      specialize (Hcells row col ltac:(done) ltac:(done)).
      rewrite !get_piece_at_content in Hcells by (done || lia).
      rewrite decide_False in Hcells by done. congruence.
Qed.

Lemma place_shape_empty_area (hash : Shape → Z) (b b' : GameBoard) (shape : Shape)
    (position : Cell) :
  board_wf b → board_wf b' →
  place_shape hash b shape position = Ok b' →
  empty_area b' = empty_area b - Z.of_nat (size shape).
Proof.
  intros Hwf Hwf' Hp.
  destruct (place_shape_empty_set hash b b' shape position Hwf Hwf' Hp) as [Hsub Hset].
  rewrite (empty_area_size b'), (empty_area_size b), Hset by done.
  rewrite size_difference, size_translate by done.
  apply subseteq_size in Hsub. rewrite size_translate in Hsub. lia.
Qed.

(** The two area counters agree with the two cell queries, add up to the
    total area, and the empty area never exceeds the available area. *)
Theorem area_accounts (hash : Shape → Z) (b : GameBoard) :
  (∀ s, hash s ≠ -1) →
  reachable hash b →
  ∃ occupied empty,
    get_occupied_cells b = Ok occupied ∧ get_empty_cells b = Ok empty ∧
    filled_area b = Z.of_nat (size occupied) ∧
    empty_area b = Z.of_nat (size empty) ∧
    filled_area b + empty_area b = total_area b ∧
    empty_area b ≤ available_area b.
Proof.
  intros Hhash Hreach. pose proof (reachable_wf hash Hhash b Hreach) as Hwf.
  exists (occupied_set b), (empty_set b). destruct (area_sum b Hwf) as [Hsum Hle].
  split_and!; [by apply get_occupied_cells_set | by apply get_empty_cells_set
              | by apply filled_area_size | by apply empty_area_size | done | done].
Qed.

Lemma area_accounts_witness :
  (∀ s, example_hash s ≠ -1) ∧
  reachable example_hash board_2x1_one ∧
  ∃ occupied empty,
    get_occupied_cells board_2x1_one = Ok occupied ∧
    get_empty_cells board_2x1_one = Ok empty ∧
    filled_area board_2x1_one = Z.of_nat (size occupied) ∧
    empty_area board_2x1_one = Z.of_nat (size empty) ∧
    filled_area board_2x1_one + empty_area board_2x1_one = total_area board_2x1_one ∧
    empty_area board_2x1_one ≤ available_area board_2x1_one.
Proof.
  split; [exact example_hash_not_marker|]. split; [exact board_2x1_one_reachable|].
  exact (area_accounts example_hash board_2x1_one
           example_hash_not_marker board_2x1_one_reachable).
Defined.

(** A successful [place_shape] takes as many cells from the empty area as
    the shape has, and adds them to the filled area. *)
Theorem place_shape_area (hash : Shape → Z) (b b' : GameBoard) (shape : Shape)
    (position : Cell) :
  (∀ s, hash s ≠ -1) →
  reachable hash b →
  place_shape hash b shape position = Ok b' →
  empty_area b' = empty_area b - Z.of_nat (size shape) ∧
  filled_area b' = filled_area b + Z.of_nat (size shape).
Proof.
  intros Hhash Hreach Hp. pose proof (reachable_wf hash Hhash b Hreach) as Hwf.
  pose proof (place_shape_wf hash Hhash _ _ _ _ Hwf Hp) as Hwf'.
  pose proof (place_shape_empty_area hash b b' shape position Hwf Hwf' Hp) as Hempty.
  split; [done|].
  destruct (area_sum b Hwf) as [Hsum _]. destruct (area_sum b' Hwf') as [Hsum' _].
  pose proof (place_shape_inv hash b shape position b' Hwf Hp) as Hcan.
  destruct (place_shape_frame hash b shape position Hwf Hcan)
    as (b'' & Hp'' & Hw & Hh & _).
  rewrite Hp in Hp''. simplify_eq. unfold total_area in *. rewrite Hw, Hh in Hsum'. lia.
Qed.

Lemma place_shape_area_witness :
  (∀ s, example_hash s ≠ -1) ∧
  reachable example_hash board_2x1 ∧
  place_shape example_hash board_2x1 monomino (0, 0) = Ok board_2x1_one ∧
  empty_area board_2x1_one = empty_area board_2x1 - Z.of_nat (size monomino) ∧
  filled_area board_2x1_one = filled_area board_2x1 + Z.of_nat (size monomino).
Proof.
  split; [exact example_hash_not_marker|]. split; [exact board_2x1_reachable|].
  split; [exact board_2x1_one_placed|].
  exact (place_shape_area example_hash board_2x1 board_2x1_one monomino (0, 0)
           example_hash_not_marker board_2x1_reachable board_2x1_one_placed).
Defined.

(** ** [is_full] and the first empty cell *)

Lemma all_cells_spec (g : Grid) (h w : nat) (test : Slot → bool) (todo : list Cell) :
  grid_dims g h w →
  (∀ cell : Cell, cell ∈ todo → 0 ≤ cell.1 < Z.of_nat h ∧ 0 ≤ cell.2 < Z.of_nat w) →
  ∃ r, all_cells g test todo = Ok r ∧
       (r = true ↔ ∀ cell : Cell, cell ∈ todo →
                     test (slot_at g (Z.to_nat cell.1) (Z.to_nat cell.2)) = true).
Proof.
  intros Hd. induction todo as [|[row col] todo IH]; intros Hin; cbn [all_cells].
  - exists true. split; [done|]. split; [|done]. by intros _ cell ?%elem_of_nil.
  - destruct (Hin (row, col)) as [Hr Hc]; [by left|]. simpl in Hr, Hc.
    rewrite (grid_get_dims _ _ _ _ _ Hd), norm_pos_in by done. cbn [rbind].
    destruct IH as (r & -> & Hiff); [intros cell Hcell; apply Hin; by right|].
    destruct (test _) eqn:E.
    + exists r. split; [done|]. rewrite Hiff. split.
      * intros Hall cell [->|Hcell]%elem_of_cons; [done | by apply Hall].
      * intros Hall cell Hcell. apply Hall. by right.
    + exists false. split; [done|]. split; [done|]. intros Hall.
      specialize (Hall (row, col) ltac:(by left)). simpl in Hall. congruence.
Qed.

Definition cell_lt (a b : Cell) : Prop := a.1 < b.1 ∨ (a.1 = b.1 ∧ a.2 < b.2).

Lemma seqZ_sorted (m n : Z) : StronglySorted Z.lt (seqZ m n).
Proof.
  destruct (decide (0 ≤ n)) as [Hn|Hn].
  - rewrite <- (Z2Nat.id n) by done. generalize (Z.to_nat n). clear. intros k.
    induction k as [|k IH]; [constructor|]. rewrite seqZ_S.
    apply StronglySorted_app. split_and!; [|done|repeat constructor].
    intros x y Hx%elem_of_seqZ ->%list_elem_of_singleton. lia.
  - assert (seqZ m n = []) as ->; [|constructor].
    unfold seqZ. by replace (Z.to_nat n) with 0%nat by lia.
Qed.

Lemma grid_positions_sorted b : StronglySorted cell_lt (grid_positions b).
Proof.
  unfold grid_positions, range.
  pose proof (seqZ_sorted 0 (height b)) as Hrows. revert Hrows.
  generalize (seqZ 0 (height b)). intros rows.
  induction 1 as [|row rows Hs IH Hall]; csimpl; [constructor|].
  apply StronglySorted_app. split_and!; [| |done].
  - intros [r1 c1] [r2 c2] Hx Hy. rewrite row_positions in Hx.
    apply list_elem_of_fmap in Hx as (? & [= -> ->] & _).
    apply list_elem_of_bind in Hy as (row' & Hy & Hrow').
    rewrite row_positions in Hy. apply list_elem_of_fmap in Hy as (? & [= -> ->] & _).
    rewrite Forall_forall in Hall. left. simpl. by apply Hall.
  - rewrite row_positions.
    eapply StronglySorted_fmap; [|apply seqZ_sorted].
    intros c1 c2 Hlt. right. simpl. done.
Qed.

Lemma find_empty_in_spec b (todo : list Cell) :
  board_wf b → (∀ cell, cell ∈ todo → cell ∈ grid_positions b) →
  ∃ r, find_empty_in b todo = Ok r ∧
       match r with
       | None => ∀ cell : Cell, cell ∈ todo → content b cell.1 cell.2 ≠ None
       | Some cell =>
           ∃ before after, todo = before ++ cell :: after ∧
             content b cell.1 cell.2 = None ∧
             ∀ c : Cell, c ∈ before → content b c.1 c.2 ≠ None
       end.
Proof.
  intros Hwf. induction todo as [|[row col] todo IH]; intros Hin; simpl.
  - exists None. split; [done|]. by intros cell ?%elem_of_nil.
  - assert ((row, col) ∈ grid_positions b) as [? ?]%elem_of_grid_positions
      by (apply Hin; by left).
    rewrite grid_get_board; [|by apply wf_dims|done..]. cbn [rbind].
    unfold is_None. case_bool_decide as Hnone.
    + exists (Some (row, col)). split; [done|]. exists [], todo.
      split_and!; [done..|]. by intros c ?%elem_of_nil.
    + destruct IH as (r & -> & Hr); [intros cell Hc; apply Hin; by right|].
      exists r. split; [done|]. destruct r as [cell|].
      * destruct Hr as (before & after & -> & Hcell & Hbefore).
        exists ((row, col) :: before), after. split_and!; [done..|].
        intros c [->|Hc]%elem_of_cons; [done | by apply Hbefore].
      * intros cell [->|Hc]%elem_of_cons; [done | by apply Hr].
Qed.

(** [find_next_empty] (solver.py) returns the first empty cell in row-major
    order, and [None] exactly when the board has no empty cell. *)
Theorem find_next_empty_first (hash : Shape → Z) (b : GameBoard) :
  (∀ s, hash s ≠ -1) →
  reachable hash b →
  ∃ r, find_next_empty b = Ok r ∧
       match r with
       | Some (row, col) =>
           (0 ≤ row < height b ∧ 0 ≤ col < width b) ∧
           get_piece_at b (row, col) = Ok None ∧
           ∀ row' col', 0 ≤ row' < height b → 0 ≤ col' < width b →
             row' < row ∨ (row' = row ∧ col' < col) →
             get_piece_at b (row', col') ≠ Ok None
       | None =>
           ∀ row' col', 0 ≤ row' < height b → 0 ≤ col' < width b →
             get_piece_at b (row', col') ≠ Ok None
       end.
Proof.
  intros Hhash Hreach. pose proof (reachable_wf hash Hhash b Hreach) as Hwf.
  destruct (find_empty_in_spec b (grid_positions b) Hwf) as (r & Hr & Hspec); [done|].
  exists r. split; [done|]. destruct r as [[row col]|].
  - destruct Hspec as (before & after & Hsplit & Hnone & Hbefore). simpl in Hnone.
    assert ((row, col) ∈ grid_positions b) as [? ?]%elem_of_grid_positions.
    { rewrite Hsplit. apply elem_of_app. right. by left. }
    split_and!; try lia; [by rewrite get_piece_at_content, Hnone|].
    intros row' col' Hr' Hc' Hlt. rewrite get_piece_at_content by done.
    intros [= Hcont]. pose proof (grid_positions_sorted b) as Hsorted.
    rewrite Hsplit in Hsorted.
    apply StronglySorted_app in Hsorted as (_ & _ & Hsorted).
    apply StronglySorted_inv in Hsorted as [_ Hafter].
    assert ((row', col') ∈ before ++ (row, col) :: after) as Hin.
    { rewrite <- Hsplit. by apply elem_of_grid_positions. }
    apply elem_of_app in Hin as [Hin|[Heq|Hin]%elem_of_cons].
    + by apply (Hbefore _ Hin).
    + simplify_eq. lia.
    + rewrite Forall_forall in Hafter. specialize (Hafter _ Hin).
      unfold cell_lt in Hafter. simpl in Hafter. lia.
  - intros row' col' Hr' Hc'. rewrite get_piece_at_content by done.
    intros [= Hcont]. apply (Hspec (row', col')); [|done].
    by apply elem_of_grid_positions.
Qed.

Lemma find_next_empty_first_witness :
  (∀ s, example_hash s ≠ -1) ∧
  reachable example_hash board_2x1_one ∧
  ∃ r, find_next_empty board_2x1_one = Ok r ∧
       match r with
       | Some (row, col) =>
           (0 ≤ row < height board_2x1_one ∧ 0 ≤ col < width board_2x1_one) ∧
           get_piece_at board_2x1_one (row, col) = Ok None ∧
           ∀ row' col', 0 ≤ row' < height board_2x1_one → 0 ≤ col' < width board_2x1_one →
             row' < row ∨ (row' = row ∧ col' < col) →
             get_piece_at board_2x1_one (row', col') ≠ Ok None
       | None =>
           ∀ row' col', 0 ≤ row' < height board_2x1_one → 0 ≤ col' < width board_2x1_one →
             get_piece_at board_2x1_one (row', col') ≠ Ok None
       end.
Proof.
  split; [exact example_hash_not_marker|]. split; [exact board_2x1_one_reachable|].
  exact (find_next_empty_first example_hash board_2x1_one
           example_hash_not_marker board_2x1_one_reachable).
Defined.

Lemma is_full_spec (b : GameBoard) :
  board_wf b →
  ∃ r, is_full b = Ok r ∧
       (r = true ↔ get_empty_cells b = Ok ∅) ∧
       (r = true ↔ empty_area b = 0) ∧
       (r = true ↔ find_next_empty b = Ok None).
Proof.
  intros Hwf.
  destruct (all_cells_spec (cells b) _ _ is_not_None (grid_positions b) (wf_dims b Hwf))
    as (r & Hr & Hiff).
  { intros [row col] [? ?]%elem_of_grid_positions. simpl.
    pose proof (wf_width b Hwf). pose proof (wf_height b Hwf). lia. }
  assert (r = true ↔ empty_set b = ∅) as Hset.
  { rewrite Hiff. split.
    - intros Hall. apply set_eq. intros [row col]. rewrite elem_of_empty_set.
      split; [|by intros ?%not_elem_of_empty]. intros [[? ?] Hnone].
      specialize (Hall (row, col)). simpl in Hall. unfold content in Hnone.
      rewrite Hnone in Hall. by specialize (Hall ltac:(by apply elem_of_grid_positions)).
    - intros Hempty [row col] [? ?]%elem_of_grid_positions. simpl.
      unfold is_not_None. apply bool_decide_eq_true. intros Hnone.
      assert ((row, col) ∈ empty_set b) as Hin by (by apply elem_of_empty_set).
      rewrite Hempty in Hin. by apply not_elem_of_empty in Hin. }
  exists r. split; [done|]. split_and!.
  - rewrite Hset, get_empty_cells_set by done. split; [by intros -> | by intros [= ->]].
  - rewrite Hset, empty_area_size by done. split.
    + intros ->. by rewrite size_empty.
    + intros Hz. apply leibniz_equiv, size_empty_iff. lia.
  - rewrite Hset. destruct (find_empty_in_spec b (grid_positions b) Hwf)
      as (r' & Hr' & Hspec); [done|].
    unfold find_next_empty. rewrite Hr'. split.
    + intros Hempty. f_equal. destruct r' as [[row col]|]; [|done].
      destruct Hspec as (before & after & Hsplit & Hnone & _). simpl in Hnone.
      assert ((row, col) ∈ empty_set b) as Hin.
      { apply elem_of_empty_set. split; [|done]. apply elem_of_grid_positions.
        rewrite Hsplit. apply elem_of_app. right. by left. }
      rewrite Hempty in Hin. by apply not_elem_of_empty in Hin.
    + intros [= ->]. apply set_eq. intros [row col]. rewrite elem_of_empty_set.
      split; [|by intros ?%not_elem_of_empty]. intros [Hin Hnone].
      destruct (Hspec (row, col)); [by apply elem_of_grid_positions | done].
Qed.

(** [is_full] answers [True] exactly when no cell is empty (a blocked cell
    counts as filled): the empty-cell query is empty, the empty area is 0
    and there is no next empty cell. *)
Theorem is_full_iff (hash : Shape → Z) (b : GameBoard) :
  (∀ s, hash s ≠ -1) →
  reachable hash b →
  ∃ r, is_full b = Ok r ∧
       (r = true ↔ get_empty_cells b = Ok ∅) ∧
       (r = true ↔ empty_area b = 0) ∧
       (r = true ↔ find_next_empty b = Ok None).
Proof.
  intros Hhash Hreach. apply is_full_spec. by apply (reachable_wf hash).
Qed.

Lemma is_full_iff_witness :
  (∀ s, example_hash s ≠ -1) ∧
  reachable example_hash board_2x1_one ∧
  ∃ r, is_full board_2x1_one = Ok r ∧
       (r = true ↔ get_empty_cells board_2x1_one = Ok ∅) ∧
       (r = true ↔ empty_area board_2x1_one = 0) ∧
       (r = true ↔ find_next_empty board_2x1_one = Ok None).
Proof.
  split; [exact example_hash_not_marker|]. split; [exact board_2x1_one_reachable|].
  exact (is_full_iff example_hash board_2x1_one
           example_hash_not_marker board_2x1_one_reachable).
Defined.

(** [is_empty] answers [True] exactly when no shape is on the board: the
    occupied cells are the blocked cells. *)
Theorem is_empty_iff (hash : Shape → Z) (b : GameBoard) :
  (∀ s, hash s ≠ -1) →
  reachable hash b →
  is_empty b = true ↔ get_occupied_cells b = Ok (get_blocked_cells b).
Proof.
  intros Hhash Hreach. pose proof (reachable_wf hash Hhash b Hreach) as Hwf.
  rewrite get_occupied_cells_set by done. unfold is_empty, get_blocked_cells.
  rewrite <- Is_true_true, forallb_True, concat_cells_as_positions by done.
  rewrite Forall_fmap, Forall_forall. split.
  - intros Hall. f_equal. apply set_eq. intros [row col]. unfold occupied_set.
    rewrite elem_of_list_to_set, list_elem_of_filter. simpl. split.
    + intros [Hnn Hin]. specialize (Hall _ Hin). simpl in Hall.
      apply elem_of_grid_positions in Hin as [? ?].
      apply (wf_marker_Z b row col Hwf); [done..|].
      destruct (content b row col) as [t|]; [|done]. simpl in Hall.
      apply bool_decide_unpack in Hall. done.
    + intros Hbl. destruct (wf_blocked_in b Hwf row col Hbl) as [? ?].
      split; [|by apply elem_of_grid_positions].
      apply (wf_marker_Z b row col Hwf) in Hbl; [|done..]. by rewrite Hbl.
  - intros [= Hset] [row col] Hin. simpl.
    destruct (content b row col) as [t|] eqn:E; [|done]. simpl.
    apply bool_decide_pack. f_equal.
    assert ((row, col) ∈ occupied_set b) as Hocc.
    { unfold occupied_set. rewrite elem_of_list_to_set, list_elem_of_filter. simpl.
      by rewrite E. }
    rewrite Hset in Hocc. apply elem_of_grid_positions in Hin as [? ?].
    apply (wf_marker_Z b row col Hwf) in Hocc; [|done..]. congruence.
Qed.

Lemma is_empty_iff_witness :
  (∀ s, example_hash s ≠ -1) ∧
  reachable example_hash board_2x1_one ∧
  (is_empty board_2x1_one = true
   ↔ get_occupied_cells board_2x1_one = Ok (get_blocked_cells board_2x1_one)).
Proof.
  split; [exact example_hash_not_marker|]. split; [exact board_2x1_one_reachable|].
  exact (is_empty_iff example_hash board_2x1_one
           example_hash_not_marker board_2x1_one_reachable).
Defined.

(** * More about the search *)

Lemma min_cell_elem (o : Shape) (c : Cell) : min_cell o = Ok c → c ∈ o.
Proof.
  unfold min_cell. destruct (elements o) as [|c0 l] eqn:E; [done|]. intros [= <-].
  apply elem_of_elements. rewrite E. clear E.
  induction l as [|x l IH]; simpl; [by left|].
  destruct (cell_leb x _); [right; by left|].
  apply elem_of_cons in IH as [->|?]; [by left | right; by right].
Qed.

Section Replay.

Variable hash : Shape → Z.
Variable piece_types : list PuzzlePiece.

(** [replay b p d evs b' p' d']: starting from board [b], stack [p] and
    remaining counts [d], every event of [evs] is one step of the search,
    and the last one leaves board [b'], stack [p'] and counts [d'].  A
    [place] event is the placement of an orientation of a candidate piece,
    of which a copy remained, so that it covers the first empty cell; the
    placement is pushed on the stack and the count of the piece drops by
    one.  A [remove] event takes the top placement off the board and off
    the stack and gives the copy back.  A terminal event changes nothing. *)
Inductive replay :
    GameBoard → list Placement → Dict → list Event →
    GameBoard → list Placement → Dict → Prop :=
  | replay_nil b p d : replay b p d [] b p d
  | replay_place b p d e (o : Shape) (origin target : Cell) piece evs b' p' d' :
      type e = place →
      piece ∈ piece_types → o ∈ orientations piece →
      find_next_empty b = Ok (Some target) →
      (target.1 - origin.1, target.2 - origin.2) ∈ o →
      place_shape hash b o origin = Ok (board_snapshot e) →
      placed_pieces e = p ++ [(o, origin, piece)] →
      0 < dict_get d piece 0 →
      (∀ q, dict_get (remaining_pieces e) q 0
            = dict_get d q 0 - (if piece_eqb piece q then 1 else 0)) →
      replay (board_snapshot e) (placed_pieces e) (remaining_pieces e) evs b' p' d' →
      replay b p d (e :: evs) b' p' d'
  | replay_remove b p d e (o : Shape) (origin : Cell) piece evs b' p' d' :
      type e = remove →
      p = placed_pieces e ++ [(o, origin, piece)] →
      remove_shape hash b o origin = Ok (board_snapshot e) →
      place_shape hash (board_snapshot e) o origin = Ok b →
      (∀ q, dict_get (remaining_pieces e) q 0
            = dict_get d q 0 + (if piece_eqb piece q then 1 else 0)) →
      replay (board_snapshot e) (placed_pieces e) (remaining_pieces e) evs b' p' d' →
      replay b p d (e :: evs) b' p' d'
  | replay_terminal b p d e evs b' p' d' :
      type e = solved ∨ type e = no_solution →
      board_snapshot e = b → placed_pieces e = p → remaining_pieces e = d →
      replay b p d evs b' p' d' →
      replay b p d (e :: evs) b' p' d'.

Lemma replay_app b p d evs1 b1 p1 d1 evs2 b2 p2 d2 :
  replay b p d evs1 b1 p1 d1 → replay b1 p1 d1 evs2 b2 p2 d2 →
  replay b p d (evs1 ++ evs2) b2 p2 d2.
Proof.
  induction 1; simpl; intros; [done | | |].
  - eapply replay_place; eauto.
  - eapply replay_remove; eauto.
  - eapply replay_terminal; eauto.
Qed.

End Replay.

Section ReplayProof.

Variable hash : Shape → Z.
Hypothesis hash_not_marker : ∀ s, hash s ≠ -1.

(** The pieces that may be placed. *)
Variable candidates : list PuzzlePiece.

(** What a run that returned [True] ends with. *)
Definition solved_at (evs : list Event) (st' : SolverState) : Prop :=
  find_next_empty (board st') = Ok None ∧ remaining st' = [] ∧
  ∃ body, evs = body ++ [yield solved st'].

Definition run_replay (st : SolverState) (evs : list Event) (found : bool)
    (st' : SolverState) : Prop :=
  replay hash candidates (board st) (placed st) (remaining st) evs
         (board st') (placed st') (remaining st') ∧
  (found = true → solved_at evs st').

Definition rec_replay (rec : SolverState → result Run) (n : nat) : Prop :=
  ∀ st, state_ok st → (pieces_left (remaining st) < n)%nat →
        ∃ evs found st', rec st = Ok (evs, found, st') ∧
                         run_spec st evs found st' ∧ run_replay st evs found st'.

Lemma rec_replay_ok rec n : rec_replay rec n → rec_ok rec n.
Proof.
  intros Hrec st Hok Hfuel. destruct (Hrec st Hok Hfuel) as (evs & found & st' & ? & ? & _).
  by exists evs, found, st'.
Qed.

Lemma try_orientations_replay rec n cell piece count todo st :
  rec_replay rec n →
  Forall (λ o : Shape, o ≠ ∅) todo →
  (∀ o, o ∈ todo → o ∈ orientations piece) →
  piece ∈ candidates →
  find_next_empty (board st) = Ok (Some cell) →
  state_ok st →
  (pieces_left (remaining st) < S n)%nat →
  dict_lookup (remaining st) piece = Some count → 0 < count →
  ∃ evs found st',
    try_orientations hash rec cell piece count todo st = Ok (evs, found, st') ∧
    run_replay st evs found st'.
Proof.
  intros Hrec Htodo. revert st.
  induction Htodo as [|o todo Ho Htodo IH]; intros st Hsub Hpiece Hcell Hok Hfuel Hl Hc.
  { exists [], false, st. split; [done|]. split; [constructor | done]. }
  assert (∀ o', o' ∈ todo → o' ∈ orientations piece) as Hsub'
    by (intros o' Ho'; apply Hsub; by right).
  destruct Hok as [Hwf Hdwf]. cbn [try_orientations].
  destruct (min_cell_ok o Ho) as [tl Htl]. rewrite Htl. cbn [rbind].
  set (origin := (cell.1 - tl.1, cell.2 - tl.2)).
  destruct (can_place_shape_total (board st) o origin Hwf) as [can Hcan].
  rewrite Hcan. cbn [rbind]. destruct can; [|by apply IH].
  destruct (place_then_remove hash hash_not_marker (board st) o origin Hwf Hcan)
    as (b1 & Hp & Hwf1 & Hrm).
  rewrite Hp. cbn [rbind]. rewrite dict_getitem_setitem. cbn [rbind].
  destruct (take_piece_spec (remaining st) piece count Hdwf Hl Hc)
    as (rem2 & -> & Hdwf2 & Hw2 & Hne2 & Hl2 & Hpos2).
  cbn [rbind].
  set (st1 := mkState b1 (placed st ++ [(o, origin, piece)]) rem2 (step_counter st + 1)).
  destruct (Hrec st1) as (evs & found & st2 & -> & Hspec & Hrep & Hsolved).
  { by split. }
  { pose proof (Hw2 _ unit_step_copies) as Hw. rewrite !pieces_left_weight in *.
    simpl. pose proof (dict_weight_copies_nonneg rem2). lia. }
  assert (replay hash candidates (board st) (placed st) (remaining st)
            (yield place st1 :: evs) (board st2) (placed st2) (remaining st2)) as Hrep1.
  { eapply (replay_place hash candidates _ _ _ _ o origin cell piece); try done.
    - by apply Hsub; left.
    - apply min_cell_elem in Htl. unfold origin. simpl. destruct tl as [r k].
      simpl in *. by replace (cell.1 - (cell.1 - r)) with r by lia;
        replace (cell.2 - (cell.2 - k)) with k by lia.
    - unfold dict_get. by rewrite Hl.
    - intros q. simpl. unfold dict_get. destruct (piece_eqb piece q) eqn:E.
      + rewrite <- !(dict_lookup_proper _ _ _ E), Hl2, Hl.
        destruct (count - 1 =? 0) eqn:E'; simpl; [|lia].
        apply Z.eqb_eq in E'. lia.
      + rewrite (Hne2 q E). lia. }
  cbn [rbind]. destruct found.
  { eexists _, _, _. split; [done|]. split; [done|]. intros _.
    destruct (Hsolved eq_refl) as (? & ? & body & ->).
    split_and!; [done..|]. by exists (yield place st1 :: body). }
  destruct (rs_restore _ _ _ _ Hspec eq_refl) as (Eb & Ep & El). simpl in Eb, Ep, El.
  rewrite Ep, list_pop_snoc. cbn [rbind]. rewrite Eb, Hrm. cbn [rbind].
  destruct (rs_state _ _ _ _ Hspec) as [Hwf2' Hdwf2'].
  destruct (give_back_spec (remaining st2) piece Hdwf2') as (Hdwf3 & Hw3 & Hne3 & Hl3 & Hpos3).
  { intros c. rewrite El, Hl2. destruct (count - 1 =? 0) eqn:E; [done|].
    intros [= <-]. lia. }
  set (st3 := mkState (board st) (placed st)
                (dict_setitem (remaining st2) piece (dict_get (remaining st2) piece 0 + 1))
                (step_counter st2 + 1)).
  assert (∀ q, dict_lookup (remaining st3) q = dict_lookup (remaining st) q) as Hl3'.
  { intros q. simpl. destruct (piece_eqb piece q) eqn:E.
    - rewrite <- !(dict_lookup_proper _ _ _ E), Hl3, Hl. f_equal.
      unfold dict_get. rewrite El, Hl2.
      destruct (count - 1 =? 0) eqn:E'; simpl; [|lia].
      apply Z.eqb_eq in E'. lia.
    - rewrite (Hne3 q E), El. by apply Hne2. }
  assert (dict_weight copies (remaining st3) = dict_weight copies (remaining st)) as Hw3'.
  { simpl. rewrite (Hw3 _ unit_step_copies).
    destruct (rs_balance _ _ _ _ Hspec _ unit_step_copies) as [Hb2 _].
    unfold balance in Hb2. simpl in Hb2. rewrite Ep in Hb2.
    rewrite (Hw2 _ unit_step_copies) in Hb2. lia. }
  destruct (IH st3 Hsub' Hpiece) as (evs' & found' & st4 & -> & Hrep' & Hsolved').
  { exact Hcell. }
  { by split. }
  { rewrite !pieces_left_weight in *. lia. }
  { by rewrite Hl3'. }
  { done. }
  cbn [rbind]. eexists _, _, _. split; [done|]. split.
  - replace (yield place st1 :: evs ++ yield remove st3 :: evs')
      with ((yield place st1 :: evs) ++ (yield remove st3 :: evs')) by done.
    eapply replay_app; [exact Hrep1|].
    eapply (replay_remove hash candidates _ _ _ _ o origin piece); try done.
    + simpl. by rewrite Eb.
    + simpl. by rewrite Eb.
    + intros q. change (remaining_pieces (yield remove st3)) with (remaining st3).
      destruct (piece_eqb piece q) eqn:E.
      * unfold dict_get at 1 2. rewrite <- !(dict_lookup_proper _ _ _ E).
        unfold st3. cbn [remaining]. rewrite Hl3. simpl. unfold dict_get. lia.
      * unfold dict_get. unfold st3. cbn [remaining]. rewrite (Hne3 q E). lia.
  - intros ->. destruct (Hsolved' eq_refl) as (? & ? & body & ->).
    split_and!; [done..|]. exists (yield place st1 :: evs ++ yield remove st3 :: body).
    by rewrite <- !app_comm_cons, <- (assoc_L (++)).
Qed.

Lemma try_pieces_replay rec n cell todo st :
  rec_replay rec n →
  Forall piece_ok todo →
  (∀ p, p ∈ todo → p ∈ candidates) →
  find_next_empty (board st) = Ok (Some cell) →
  state_ok st →
  (pieces_left (remaining st) < S n)%nat →
  ∃ evs found st',
    try_pieces hash rec cell todo st = Ok (evs, found, st') ∧
    run_replay st evs found st'.
Proof.
  intros Hrec Htodo. revert st.
  induction Htodo as [|piece todo Hp Htodo IH]; intros st Hsub Hcell Hok Hfuel.
  { exists [], false, st. split; [done|]. split; [constructor | done]. }
  assert (∀ p, p ∈ todo → p ∈ candidates) as Hsub' by (intros p ?; apply Hsub; by right).
  cbn [try_pieces]. destruct (dict_get (remaining st) piece 0 <=? 0) eqn:E.
  { by apply IH. }
  apply Z.leb_gt in E.
  destruct (try_orientations_spec hash hash_not_marker rec n cell piece _
              (orientations piece) st (rec_replay_ok _ _ Hrec) Hp Hok Hfuel
              (dict_get_pos _ _ E) E) as (evs0 & found0 & st0 & Heq0 & Hspec).
  destruct (try_orientations_replay rec n cell piece (dict_get (remaining st) piece 0)
              (orientations piece) st Hrec Hp)
    as (evs & found & st1 & Heq & Hrep & Hsolved); try done.
  { by apply Hsub; left. }
  { by apply dict_get_pos. }
  rewrite Heq in Heq0. simplify_eq. rewrite Heq. cbn [rbind]. destruct found0.
  { by eexists _, _, _. }
  destruct (rs_restore _ _ _ _ Hspec eq_refl) as (Eb & Ep & _).
  destruct (IH st0) as (evs' & found' & st2 & -> & Hrep' & Hsolved'); try done.
  { by rewrite Eb. }
  { by apply (rs_state _ _ _ _ Hspec). }
  { destruct (rs_balance _ _ _ _ Hspec _ unit_step_copies) as [Hb _].
    unfold balance in Hb. rewrite Ep in Hb. rewrite !pieces_left_weight in *. lia. }
  cbn [rbind]. eexists _, _, _. split; [done|]. split.
  - by eapply replay_app.
  - intros ->. destruct (Hsolved' eq_refl) as (? & ? & body & ->).
    split_and!; [done..|]. exists (evs0 ++ body). by rewrite <- (assoc_L (++)).
Qed.

Lemma backtrack_replay piece_types fuel :
  Forall piece_ok piece_types →
  (∀ p, p ∈ piece_types → p ∈ candidates) →
  rec_replay (backtrack hash piece_types fuel) fuel.
Proof.
  intros Hpieces Hsub. induction fuel as [|fuel IH]; intros st Hok Hfuel; [lia|].
  destruct (backtrack_spec hash hash_not_marker piece_types (S fuel) Hpieces st Hok Hfuel)
    as (evs0 & found0 & st0 & Heq0 & Hspec).
  assert (∃ evs found st',
            backtrack hash piece_types (S fuel) st = Ok (evs, found, st') ∧
            run_replay st evs found st') as (evs & found & st' & Heq & Hrep).
  { cbn [backtrack]. destruct (find_next_empty (board st)) as [[cell|]|e] eqn:Hcell.
    - cbn [rbind]. by apply (try_pieces_replay _ fuel).
    - cbn [rbind]. case_bool_decide as Hempty.
      + eexists _, _, _. split; [done|]. split.
        * eapply replay_terminal; [by left | done | done | done | constructor].
        * intros _. split_and!; [done | done |]. by exists [].
      + exists [], false, st. split; [done|]. split; [constructor | done].
    - destruct (find_next_empty_total (board st)) as [r Hr]; [by destruct Hok|].
      congruence. }
  rewrite Heq in Heq0. simplify_eq. by exists evs0, found0, st0.
Qed.

End ReplayProof.

Section SearchTrace.

Variable hash : Shape → Z.
Hypothesis hash_not_marker : ∀ s, hash s ≠ -1.

(** The run of [backtrack] that [solve_backtracking] starts on a multiset
    that is not empty. *)
Lemma solve_backtracking_trace (pieces : Dict) (b : GameBoard) :
  board_wf b → dict_wf pieces → Forall piece_ok (dict_keys pieces) → pieces ≠ [] →
  ∃ (evs : list Event) (found : bool) (st : SolverState),
    solve_backtracking hash pieces b
    = Ok (if found then evs else evs ++ [yield no_solution st]) ∧
    run_spec (mkState b [] pieces 0) evs found st ∧
    run_replay hash (dict_keys pieces) (mkState b [] pieces 0) evs found st.
Proof.
  intros Hwf Hdwf Hok Hne. unfold solve_backtracking, solve_backtracking_within. cbn [remaining].
  rewrite bool_decide_false by done.
  assert (Forall piece_ok (sorted_desc area (dict_keys pieces))) as Hok'
    by (by rewrite sorted_desc_perm).
  assert (∀ p, p ∈ sorted_desc area (dict_keys pieces) → p ∈ dict_keys pieces) as Hsub
    by (intros p; by rewrite sorted_desc_perm).
  destruct (backtrack_replay hash hash_not_marker (dict_keys pieces)
              (sorted_desc area (dict_keys pieces)) (S (pieces_left pieces)) Hok' Hsub
              (mkState b [] pieces 0)) as (evs & found & st & -> & Hspec & Hrep).
  - by split.
  - simpl. lia.
  - exists evs, found, st. split; [|done]. cbn [rbind]. by destruct found.
Qed.

(** The events of a search, as a replay from the input board and the empty
    stack. *)
Lemma solve_backtracking_replay (pieces : Dict) (b : GameBoard) :
  board_wf b → dict_wf pieces → Forall piece_ok (dict_keys pieces) →
  ∃ evs b' p' d', solve_backtracking hash pieces b = Ok evs ∧
                  replay hash (dict_keys pieces) b [] pieces evs b' p' d'.
Proof.
  intros Hwf Hdwf Hok. destruct (decide (pieces = [])) as [->|Hne].
  - exists [yield solved (mkState b [] [] 0)], b, [], []. split; [done|].
    eapply replay_terminal; [by left | done | done | done | constructor].
  - destruct (solve_backtracking_trace pieces b Hwf Hdwf Hok Hne)
      as (evs & found & st & -> & Hspec & Hrep & _). simpl in Hrep.
    destruct found; [by eexists _, _, _, _|].
    exists (evs ++ [yield no_solution st]), (board st), (placed st), (remaining st).
    split; [done|]. eapply replay_app; [done|].
    eapply replay_terminal; [by right | done | done | done | constructor].
Qed.

(** A [solved] event of a search for a multiset that is not empty. *)
Lemma solved_event_spec (pieces : Dict) (b : GameBoard) (evs : list Event) (e : Event) :
  board_wf b → dict_wf pieces → Forall piece_ok (dict_keys pieces) → pieces ≠ [] →
  solve_backtracking hash pieces b = Ok evs → e ∈ evs → type e = solved →
  find_next_empty (board_snapshot e) = Ok None ∧ remaining_pieces e = [] ∧
  board_wf (board_snapshot e).
Proof.
  intros Hwf Hdwf Hok Hne Hrun He Hty.
  destruct (solve_backtracking_trace pieces b Hwf Hdwf Hok Hne)
    as (evs0 & found & st & Heq & Hspec & Hrep & Hsolved).
  rewrite Hrun in Heq. simplify_eq. pose proof (rs_events _ _ _ _ Hspec) as Hev.
  destruct found.
  - destruct (Hsolved eq_refl) as (Hfull & Hrem & body & ->).
    destruct Hev as (body' & last & Heq & Hbody & _).
    apply app_inj_tail in Heq as [<- <-].
    apply elem_of_app in He as [He|He%list_elem_of_singleton].
    + rewrite Forall_forall in Hbody. destruct (Hbody _ He); congruence.
    + subst e. split_and!; [done..|]. apply (rs_state _ _ _ _ Hspec).
  - apply elem_of_app in He as [He|He%list_elem_of_singleton]; [|by subst e].
    rewrite Forall_forall in Hev. destruct (Hev _ He); congruence.
Qed.

(** A [no_solution] event of a search. *)
Lemma no_solution_event_spec (pieces : Dict) (b : GameBoard) (evs : list Event)
    (e : Event) :
  board_wf b → dict_wf pieces → Forall piece_ok (dict_keys pieces) →
  solve_backtracking hash pieces b = Ok evs → e ∈ evs → type e = no_solution →
  board_snapshot e = b ∧ placed_pieces e = [] ∧
  ∀ q, dict_lookup (remaining_pieces e) q = dict_lookup pieces q.
Proof.
  intros Hwf Hdwf Hok Hrun He Hty. destruct (decide (pieces = [])) as [->|Hne].
  { cbv in Hrun. simplify_eq. apply list_elem_of_singleton in He. by subst e. }
  destruct (solve_backtracking_trace pieces b Hwf Hdwf Hok Hne)
    as (evs0 & found & st & Heq & Hspec & _).
  rewrite Hrun in Heq. simplify_eq. pose proof (rs_events _ _ _ _ Hspec) as Hev.
  destruct found.
  - destruct Hev as (body & last & -> & Hbody & Hlast).
    apply elem_of_app in He as [He|He%list_elem_of_singleton]; [|congruence].
    rewrite Forall_forall in Hbody. destruct (Hbody _ He); congruence.
  - apply elem_of_app in He as [He|He%list_elem_of_singleton].
    + rewrite Forall_forall in Hev. destruct (Hev _ He); congruence.
    + subst e. by apply (rs_restore _ _ _ _ Hspec).
Qed.

End SearchTrace.

(** The number of cells of the shapes on the stack. *)
Definition cells_on (p : list Placement) : Z :=
  foldr Z.add 0 ((λ x : Placement, Z.of_nat (size x.1.1)) <$> p).

Lemma cells_on_snoc (p : list Placement) (x : Placement) :
  cells_on (p ++ [x]) = cells_on p + Z.of_nat (size x.1.1).
Proof.
  unfold cells_on. induction p as [|y p IH]; csimpl; [lia|]. rewrite IH. lia.
Qed.

Lemma replay_cells (hash : Shape → Z) (cands : list PuzzlePiece) b p d evs b' p' d' :
  (∀ s, hash s ≠ -1) → board_wf b →
  replay hash cands b p d evs b' p' d' →
  board_wf b' ∧
  empty_area b' + cells_on p' = empty_area b + cells_on p ∧
  Forall (λ e, empty_area (board_snapshot e) + cells_on (placed_pieces e)
               = empty_area b + cells_on p) evs.
Proof.
  intros Hhash Hwf Hrep. revert Hwf.
  induction Hrep as [b p d
                    |b p d e o origin target piece evs b' p' d'
                       Hty Hpiece Ho Hcell Hin Hp Hst Hpos Hd _ IH
                    |b p d e o origin piece evs b' p' d' Hty Hst Hrm Hp Hd _ IH
                    |b p d e evs b' p' d' Hty Hb Hst Hd _ IH]; intros Hwf.
  - split_and!; [done..|constructor].
  - pose proof (place_shape_wf hash Hhash _ _ _ _ Hwf Hp) as Hwf1.
    pose proof (place_shape_empty_area hash _ _ _ _ Hwf Hwf1 Hp) as Harea.
    assert (empty_area (board_snapshot e) + cells_on (placed_pieces e)
            = empty_area b + cells_on p) as Heq.
    { rewrite Hst, cells_on_snoc, Harea. simpl. lia. }
    destruct (IH Hwf1) as (? & ? & Hall). split_and!; [done|lia|].
    constructor; [done|]. eapply Forall_impl; [exact Hall|]. simpl. intros; lia.
  - pose proof (remove_shape_wf hash Hhash _ _ _ _ Hwf Hrm) as Hwf1.
    pose proof (place_shape_empty_area hash _ _ _ _ Hwf1 Hwf Hp) as Harea.
    assert (empty_area (board_snapshot e) + cells_on (placed_pieces e)
            = empty_area b + cells_on p) as Heq.
    { rewrite Hst, cells_on_snoc, Harea. simpl. lia. }
    destruct (IH Hwf1) as (? & ? & Hall). split_and!; [done|lia|].
    constructor; [done|]. eapply Forall_impl; [exact Hall|]. simpl. intros; lia.
  - destruct (IH Hwf) as (? & ? & Hall). split_and!; [done..|].
    constructor; [by rewrite Hb, Hst | done].
Qed.

(** The events of the search with one monomino: on the 2 × 1 board
    ([place], [remove], [no_solution]) and on the 1 × 1 board ([place],
    [solved]). *)
Definition monomino_at_origin : Placement := (monomino, (0, 0), build_piece monomino).

Definition monomino_2x1_place : Event :=
  mkEvent place board_2x1_one [monomino_at_origin] [] 1.
Definition monomino_2x1_remove : Event :=
  mkEvent remove board_2x1 [] one_monomino 2.
Definition monomino_2x1_no_solution : Event :=
  mkEvent no_solution board_2x1 [] one_monomino 2.
Definition monomino_1x1_place : Event :=
  mkEvent place board_1x1_one [monomino_at_origin] [] 1.
Definition monomino_1x1_solved : Event :=
  mkEvent solved board_1x1_one [monomino_at_origin] [] 2.

Lemma monomino_2x1_run :
  solve_backtracking example_hash one_monomino board_2x1
  = Ok [monomino_2x1_place; monomino_2x1_remove; monomino_2x1_no_solution].
Proof. vm_compute. reflexivity. Qed.

Lemma monomino_1x1_run :
  solve_backtracking example_hash one_monomino board_1x1
  = Ok [monomino_1x1_place; monomino_1x1_solved].
Proof. vm_compute. reflexivity. Qed.

(** Every event of a search is a legal move: a [place] event puts an
    orientation of one of the given pieces, of which a copy remained, on
    the previous board so that it covers the first empty cell of that
    board, pushes the placement on the stack and takes one copy of the
    piece from the remaining counts; a [remove] event takes the top
    placement of the stack off the board again and gives the copy back; a
    terminal event leaves board, stack and counts as they were. *)
Theorem events_are_legal_moves (hash : Shape → Z) (pieces : Dict) (b : GameBoard) :
  (∀ s, hash s ≠ -1) →
  reachable hash b → dict_wf pieces → Forall piece_ok (dict_keys pieces) →
  ∃ evs b' p' d', solve_backtracking hash pieces b = Ok evs ∧
                  replay hash (dict_keys pieces) b [] pieces evs b' p' d'.
Proof.
  intros Hhash Hreach. apply solve_backtracking_replay; [done|].
  by apply (reachable_wf hash).
Qed.

Lemma events_are_legal_moves_witness :
  (∀ s, example_hash s ≠ -1) ∧
  reachable example_hash board_2x1 ∧
  dict_wf one_monomino ∧
  Forall piece_ok (dict_keys one_monomino) ∧
  ∃ evs b' p' d',
    solve_backtracking example_hash one_monomino board_2x1 = Ok evs ∧
    replay example_hash (dict_keys one_monomino) board_2x1 [] one_monomino evs b' p' d'.
Proof.
  split; [exact example_hash_not_marker|]. split; [exact board_2x1_reachable|].
  split; [exact one_monomino_wf|]. split; [exact one_monomino_ok|].
  exact (events_are_legal_moves example_hash one_monomino board_2x1
           example_hash_not_marker board_2x1_reachable one_monomino_wf one_monomino_ok).
Defined.

(** When the search for a multiset that is not empty yields [solved], the
    snapshot is full, no piece remains, and the placed shapes cover exactly
    as many cells as the input board had empty. *)
Theorem solved_means_full (hash : Shape → Z) (pieces : Dict) (b : GameBoard)
    (evs : list Event) (e : Event) :
  (∀ s, hash s ≠ -1) →
  reachable hash b → dict_wf pieces → Forall piece_ok (dict_keys pieces) →
  pieces ≠ [] →
  solve_backtracking hash pieces b = Ok evs → e ∈ evs → type e = solved →
  is_full (board_snapshot e) = Ok true ∧ remaining_pieces e = [] ∧
  cells_on (placed_pieces e) = empty_area b.
Proof.
  intros Hhash Hreach Hdwf Hok Hne Hrun He Hty.
  pose proof (reachable_wf hash Hhash b Hreach) as Hwf.
  destruct (solved_event_spec hash Hhash pieces b evs e Hwf Hdwf Hok Hne Hrun He Hty)
    as (Hnone & Hrem & Hwfe).
  destruct (is_full_spec _ Hwfe) as (r & Hr & _ & Harea & Hfull).
  apply Hfull in Hnone as ->. split_and!; [done..|].
  destruct (solve_backtracking_replay hash Hhash pieces b Hwf Hdwf Hok)
    as (evs' & b' & p' & d' & Heq & Hrep).
  rewrite Hrun in Heq. simplify_eq.
  destruct (replay_cells hash _ _ _ _ _ _ _ _ Hhash Hwf Hrep) as (_ & _ & Hall).
  rewrite Forall_forall in Hall. specialize (Hall _ He).
  rewrite (proj1 Harea eq_refl) in Hall. unfold cells_on in Hall at 2. simpl in Hall. lia.
Qed.

Lemma solved_means_full_witness :
  (∀ s, example_hash s ≠ -1) ∧
  reachable example_hash board_1x1 ∧
  dict_wf one_monomino ∧
  Forall piece_ok (dict_keys one_monomino) ∧
  one_monomino ≠ [] ∧
  solve_backtracking example_hash one_monomino board_1x1
  = Ok [monomino_1x1_place; monomino_1x1_solved] ∧
  monomino_1x1_solved ∈ [monomino_1x1_place; monomino_1x1_solved] ∧
  type monomino_1x1_solved = solved ∧
  is_full (board_snapshot monomino_1x1_solved) = Ok true ∧
  remaining_pieces monomino_1x1_solved = [] ∧
  cells_on (placed_pieces monomino_1x1_solved) = empty_area board_1x1.
Proof.
  assert (monomino_1x1_solved ∈ [monomino_1x1_place; monomino_1x1_solved]) as Hin
    by (right; by left).
  split; [exact example_hash_not_marker|]. split; [exact board_1x1_reachable|].
  split; [exact one_monomino_wf|]. split; [exact one_monomino_ok|].
  split; [exact one_monomino_not_empty|]. split; [exact monomino_1x1_run|].
  split; [exact Hin|]. split; [reflexivity|].
  exact (solved_means_full example_hash one_monomino board_1x1 _ _
           example_hash_not_marker board_1x1_reachable one_monomino_wf one_monomino_ok
           one_monomino_not_empty monomino_1x1_run Hin eq_refl).
Defined.

(** When the search gives up, everything is back where it started: the
    [no_solution] event shows the input board, an empty stack and the input
    counts. *)
Theorem no_solution_restores (hash : Shape → Z) (pieces : Dict) (b : GameBoard)
    (evs : list Event) (e : Event) :
  (∀ s, hash s ≠ -1) →
  reachable hash b → dict_wf pieces → Forall piece_ok (dict_keys pieces) →
  solve_backtracking hash pieces b = Ok evs → e ∈ evs → type e = no_solution →
  board_snapshot e = b ∧ placed_pieces e = [] ∧
  ∀ q, dict_get (remaining_pieces e) q 0 = dict_get pieces q 0.
Proof.
  intros Hhash Hreach Hdwf Hok Hrun He Hty.
  pose proof (reachable_wf hash Hhash b Hreach) as Hwf.
  destruct (no_solution_event_spec hash Hhash pieces b evs e Hwf Hdwf Hok Hrun He Hty)
    as (? & ? & Hl).
  split_and!; [done..|]. intros q. unfold dict_get. by rewrite Hl.
Qed.

Lemma no_solution_restores_witness :
  (∀ s, example_hash s ≠ -1) ∧
  reachable example_hash board_2x1 ∧
  dict_wf one_monomino ∧
  Forall piece_ok (dict_keys one_monomino) ∧
  solve_backtracking example_hash one_monomino board_2x1
  = Ok [monomino_2x1_place; monomino_2x1_remove; monomino_2x1_no_solution] ∧
  monomino_2x1_no_solution
  ∈ [monomino_2x1_place; monomino_2x1_remove; monomino_2x1_no_solution] ∧
  type monomino_2x1_no_solution = no_solution ∧
  board_snapshot monomino_2x1_no_solution = board_2x1 ∧
  placed_pieces monomino_2x1_no_solution = [] ∧
  ∀ q, dict_get (remaining_pieces monomino_2x1_no_solution) q 0 = dict_get one_monomino q 0.
Proof.
  assert (monomino_2x1_no_solution
          ∈ [monomino_2x1_place; monomino_2x1_remove; monomino_2x1_no_solution]) as Hin
    by (right; right; by left).
  split; [exact example_hash_not_marker|]. split; [exact board_2x1_reachable|].
  split; [exact one_monomino_wf|]. split; [exact one_monomino_ok|].
  split; [exact monomino_2x1_run|]. split; [exact Hin|]. split; [reflexivity|].
  exact (no_solution_restores example_hash one_monomino board_2x1 _ _
           example_hash_not_marker board_2x1_reachable one_monomino_wf one_monomino_ok
           monomino_2x1_run Hin eq_refl).
Defined.

(** * The search decides whether the pieces tile the board *)

(** The board cells a placement covers. *)
Definition footprint (x : Placement) : gset Cell := translate x.1.2 x.1.1.

(** [tiles L E]: the placements of [L] cover the cells [E], each cell
    exactly once. *)
Fixpoint tiles (L : list Placement) (E : gset Cell) : Prop :=
  match L with
  | [] => E = ∅
  | x :: L => footprint x ⊆ E ∧ tiles L (E ∖ footprint x)
  end.

(** How many placements of [L] use the piece [q]. *)
Definition uses (L : list Placement) (q : PuzzlePiece) : Z :=
  Z.of_nat (length (filter (λ x : Placement, piece_eqb x.2 q = true) L)).

(** [solution candidates E d L]: the placements [L] are a solution of the
    puzzle with empty cells [E] and piece counts [d]: each placement puts
    an orientation of a candidate piece, the placements tile [E], and each
    piece is used as often as [d] says. *)
Definition solution (candidates : list PuzzlePiece) (E : gset Cell) (d : Dict)
    (L : list Placement) : Prop :=
  tiles L E ∧
  (∀ x : Placement, x ∈ L → x.2 ∈ candidates ∧ x.1.1 ∈ orientations x.2) ∧
  (∀ q, uses L q = dict_get d q 0).

Lemma tiles_ext (L : list Placement) (E E' : gset Cell) : E = E' → tiles L E → tiles L E'.
Proof. by intros ->. Qed.

Lemma tiles_perm (L L' : list Placement) :
  L ≡ₚ L' → ∀ E, tiles L E → tiles L' E.
Proof.
  induction 1 as [|x L L' _ IH|x y L|L1 L2 L3 _ IH1 _ IH2]; intros E; simpl.
  - done.
  - intros [? ?]. split; [done|]. by apply IH.
  - generalize (footprint x) (footprint y). intros X Y (Hy & Hx & Ht).
    split_and!; [set_solver | set_solver |].
    eapply tiles_ext; [|done]. set_solver.
  - intros ?. by apply IH2, IH1.
Qed.

Lemma tiles_elem (L : list Placement) (E : gset Cell) (c : Cell) :
  tiles L E → c ∈ E → ∃ x, x ∈ L ∧ c ∈ footprint x.
Proof.
  revert E. induction L as [|x L IH]; intros E; simpl.
  - intros ->. set_solver.
  - intros [Hsub Ht] Hc. destruct (decide (c ∈ footprint x)) as [Hin|Hnot].
    + exists x. split; [by left | done].
    + destruct (IH _ Ht) as (y & ? & ?); [by apply elem_of_difference|].
      exists y. split; [by right | done].
Qed.

Lemma tiles_snoc (L : list Placement) (x : Placement) (E : gset Cell) :
  tiles (L ++ [x]) E ↔ footprint x ⊆ E ∧ tiles L (E ∖ footprint x).
Proof.
  change (tiles (L ++ [x]) E ↔ tiles (x :: L) E). split; apply tiles_perm.
  - by rewrite Permutation_app_comm.
  - by rewrite Permutation_app_comm.
Qed.

Lemma uses_cons (x : Placement) (L : list Placement) (q : PuzzlePiece) :
  uses (x :: L) q = (if piece_eqb x.2 q then 1 else 0) + uses L q.
Proof.
  unfold uses. rewrite filter_cons. destruct (decide _) as [H|H]; simpl in H.
  - rewrite H. simpl length. lia.
  - destruct (piece_eqb x.2 q); [done | lia].
Qed.

Lemma uses_perm (L L' : list Placement) (q : PuzzlePiece) :
  L ≡ₚ L' → uses L q = uses L' q.
Proof. intros Hp. unfold uses. by rewrite Hp. Qed.

Lemma uses_snoc (x : Placement) (L : list Placement) (q : PuzzlePiece) :
  uses (L ++ [x]) q = uses L q + (if piece_eqb x.2 q then 1 else 0).
Proof.
  rewrite (uses_perm (L ++ [x]) (x :: L)) by (by rewrite Permutation_app_comm).
  rewrite uses_cons. lia.
Qed.

Section Sound.

Variable hash : Shape → Z.
Hypothesis hash_not_marker : ∀ s, hash s ≠ -1.
Variable candidates : list PuzzlePiece.

(** The puzzle that was given: its empty cells and its counts. *)
Variable E0 : gset Cell.
Variable pieces : Dict.

(** What holds of board, stack and counts all along the search: the stack
    tiles the cells that were empty and are no longer, and the copies on
    the stack and the remaining ones are the copies that were given. *)
Definition partial (b : GameBoard) (p : list Placement) (d : Dict) : Prop :=
  empty_set b ⊆ E0 ∧
  tiles p (E0 ∖ empty_set b) ∧
  (∀ x : Placement, x ∈ p → x.2 ∈ candidates ∧ x.1.1 ∈ orientations x.2) ∧
  (∀ q, uses p q + dict_get d q 0 = dict_get pieces q 0).

Lemma replay_partial b p d evs b' p' d' :
  board_wf b →
  replay hash candidates b p d evs b' p' d' →
  partial b p d →
  board_wf b' ∧ partial b' p' d' ∧
  Forall (λ e, partial (board_snapshot e) (placed_pieces e) (remaining_pieces e)) evs.
Proof.
  intros Hwf Hrep. revert Hwf.
  induction Hrep as [b p d
                    |b p d e o origin target piece evs b' p' d'
                       Hty Hpiece Ho Hcell Hin Hp Hst Hpos Hd _ IH
                    |b p d e o origin piece evs b' p' d' Hty Hst Hrm Hp Hd _ IH
                    |b p d e evs b' p' d' Hty Hb Hst Hd _ IH]; intros Hwf Hpart.
  - split_and!; [done..|constructor].
  - pose proof (place_shape_wf hash hash_not_marker _ _ _ _ Hwf Hp) as Hwf1.
    destruct (place_shape_empty_set hash _ _ _ _ Hwf Hwf1 Hp) as [Hsub Hset].
    destruct Hpart as (HE & Ht & Hm & Hu).
    assert (partial (board_snapshot e) (placed_pieces e) (remaining_pieces e)) as Hpart1.
    { unfold partial. rewrite Hst, Hset. split_and!.
      - set_solver.
      - apply tiles_snoc. unfold footprint. simpl. split; [set_solver|].
        eapply tiles_ext; [|exact Ht]. apply set_eq. intros c.
        destruct (decide (c ∈ translate origin o)); set_solver.
      - intros x [Hx|Hx]%elem_of_app; [by apply Hm|].
        apply list_elem_of_singleton in Hx. by subst x.
      - intros q. rewrite uses_snoc, Hd. simpl. specialize (Hu q). lia. }
    destruct (IH Hwf1 Hpart1) as (? & ? & Hall). split_and!; [done..|].
    by constructor.
  - pose proof (remove_shape_wf hash hash_not_marker _ _ _ _ Hwf Hrm) as Hwf1.
    destruct (place_shape_empty_set hash _ _ _ _ Hwf1 Hwf Hp) as [Hsub Hset].
    destruct Hpart as (HE & Ht & Hm & Hu). rewrite Hst in Ht, Hm, Hu.
    apply tiles_snoc in Ht as [Hfp Ht]. unfold footprint in Hfp, Ht. simpl in Hfp, Ht.
    assert (partial (board_snapshot e) (placed_pieces e) (remaining_pieces e)) as Hpart1.
    { unfold partial. split_and!.
      - intros c Hc. destruct (decide (c ∈ translate origin o)); set_solver.
      - eapply tiles_ext; [|exact Ht]. apply set_eq. intros c.
        destruct (decide (c ∈ translate origin o)); set_solver.
      - intros x Hx. apply Hm. apply elem_of_app. by left.
      - intros q. specialize (Hu q). rewrite uses_snoc in Hu. simpl in Hu.
        rewrite Hd. lia. }
    destruct (IH Hwf1 Hpart1) as (? & ? & Hall). split_and!; [done..|].
    by constructor.
  - destruct (IH Hwf Hpart) as (? & ? & Hall). split_and!; [done..|].
    constructor; [by rewrite Hb, Hst, Hd | done].
Qed.

End Sound.

(** ** The stack covers the cells that were filled *)

Lemma replay_wf (hash : Shape → Z) (cands : list PuzzlePiece) b p d evs b' p' d' :
  (∀ s, hash s ≠ -1) → board_wf b →
  replay hash cands b p d evs b' p' d' →
  Forall (λ e, board_wf (board_snapshot e)) evs.
Proof.
  intros Hhash Hwf Hrep. revert Hwf.
  induction Hrep as [b p d
                    |b p d e o origin target piece evs b' p' d'
                       Hty Hpiece Ho Hcell Hin Hp Hst Hpos Hd _ IH
                    |b p d e o origin piece evs b' p' d' Hty Hst Hrm Hp Hd _ IH
                    |b p d e evs b' p' d' Hty Hb Hst Hd _ IH]; intros Hwf.
  - constructor.
  - pose proof (place_shape_wf hash Hhash _ _ _ _ Hwf Hp). constructor; [done | by apply IH].
  - pose proof (remove_shape_wf hash Hhash _ _ _ _ Hwf Hrm). constructor; [done | by apply IH].
  - constructor; [by rewrite Hb | by apply IH].
Qed.

(** At every event the placements on the stack cover, each cell exactly
    once, exactly those cells that were empty on the input board and are no
    longer empty in the snapshot (and no cell is empty in the snapshot that
    was not empty on the input board).  So the number of empty cells of the
    snapshot and the number of cells of the shapes on the stack add up to
    the number of empty cells of the input board. *)
Theorem event_cells_accounted (hash : Shape → Z) (pieces : Dict) (b : GameBoard)
    (evs : list Event) (e : Event) :
  (∀ s, hash s ≠ -1) →
  reachable hash b → dict_wf pieces → Forall piece_ok (dict_keys pieces) →
  solve_backtracking hash pieces b = Ok evs → e ∈ evs →
  ∃ E Ee,
    get_empty_cells b = Ok E ∧
    get_empty_cells (board_snapshot e) = Ok Ee ∧
    Ee ⊆ E ∧
    tiles (placed_pieces e) (E ∖ Ee) ∧
    empty_area (board_snapshot e) + cells_on (placed_pieces e) = empty_area b.
Proof.
  intros Hhash Hreach Hdwf Hok Hrun He.
  pose proof (reachable_wf hash Hhash b Hreach) as Hwf.
  destruct (solve_backtracking_replay hash Hhash pieces b Hwf Hdwf Hok)
    as (evs' & b' & p' & d' & Heq & Hrep).
  rewrite Hrun in Heq. simplify_eq.
  pose proof (replay_wf hash _ _ _ _ _ _ _ _ Hhash Hwf Hrep) as Hwfs.
  rewrite Forall_forall in Hwfs. specialize (Hwfs _ He).
  destruct (replay_partial hash Hhash (dict_keys pieces) (empty_set b) pieces
              _ _ _ _ _ _ _ Hwf Hrep) as (_ & _ & Hall).
  { split_and!; [done | simpl; set_solver | by intros x ?%elem_of_nil | done]. }
  rewrite Forall_forall in Hall. destruct (Hall _ He) as (Hsub & Ht & _ & _).
  destruct (replay_cells hash _ _ _ _ _ _ _ _ Hhash Hwf Hrep) as (_ & _ & Hcount).
  rewrite Forall_forall in Hcount. specialize (Hcount _ He).
  exists (empty_set b), (empty_set (board_snapshot e)).
  rewrite !get_empty_cells_set by done. split_and!; [done..|].
  rewrite Hcount. unfold cells_on. simpl. lia.
Qed.

Lemma event_cells_accounted_witness :
  (∀ s, example_hash s ≠ -1) ∧
  reachable example_hash board_2x1 ∧
  dict_wf one_monomino ∧
  Forall piece_ok (dict_keys one_monomino) ∧
  solve_backtracking example_hash one_monomino board_2x1
  = Ok [monomino_2x1_place; monomino_2x1_remove; monomino_2x1_no_solution] ∧
  monomino_2x1_place ∈ [monomino_2x1_place; monomino_2x1_remove; monomino_2x1_no_solution] ∧
  ∃ E Ee,
    get_empty_cells board_2x1 = Ok E ∧
    get_empty_cells (board_snapshot monomino_2x1_place) = Ok Ee ∧
    Ee ⊆ E ∧
    tiles (placed_pieces monomino_2x1_place) (E ∖ Ee) ∧
    empty_area (board_snapshot monomino_2x1_place)
    + cells_on (placed_pieces monomino_2x1_place) = empty_area board_2x1.
Proof.
  assert (monomino_2x1_place
          ∈ [monomino_2x1_place; monomino_2x1_remove; monomino_2x1_no_solution]) as Hin
    by (by left).
  split; [exact example_hash_not_marker|]. split; [exact board_2x1_reachable|].
  split; [exact one_monomino_wf|]. split; [exact one_monomino_ok|].
  split; [exact monomino_2x1_run|]. split; [exact Hin|].
  exact (event_cells_accounted example_hash one_monomino board_2x1 _ _
           example_hash_not_marker board_2x1_reachable one_monomino_wf one_monomino_ok
           monomino_2x1_run Hin).
Defined.

(** ** A [solved] event shows a solution *)

(** When the search for a multiset that is not empty yields [solved], the
    placements on the stack are a solution of the puzzle that was given:
    each one puts an orientation of one of the given pieces, together they
    cover every empty cell of the input board exactly once, and every piece
    is used as often as the multiset says. *)
Theorem solved_is_a_solution (hash : Shape → Z) (pieces : Dict) (b : GameBoard)
    (evs : list Event) (e : Event) :
  (∀ s, hash s ≠ -1) →
  reachable hash b → dict_wf pieces → Forall piece_ok (dict_keys pieces) →
  pieces ≠ [] →
  solve_backtracking hash pieces b = Ok evs → e ∈ evs → type e = solved →
  ∃ E, get_empty_cells b = Ok E ∧
       solution (dict_keys pieces) E pieces (placed_pieces e).
Proof.
  intros Hhash Hreach Hdwf Hok Hne Hrun He Hty.
  pose proof (reachable_wf hash Hhash b Hreach) as Hwf.
  exists (empty_set b). split; [by apply get_empty_cells_set|].
  destruct (solved_event_spec hash Hhash pieces b evs e Hwf Hdwf Hok Hne Hrun He Hty)
    as (Hnone & Hrem & Hwfe).
  destruct (is_full_spec _ Hwfe) as (r & _ & Hempty & _ & Hfull).
  apply Hfull, Hempty in Hnone. rewrite get_empty_cells_set in Hnone by done.
  injection Hnone as Hnone.
  destruct (solve_backtracking_replay hash Hhash pieces b Hwf Hdwf Hok)
    as (evs' & b' & p' & d' & Heq & Hrep).
  rewrite Hrun in Heq. simplify_eq.
  destruct (replay_partial hash Hhash (dict_keys pieces) (empty_set b) pieces
              _ _ _ _ _ _ _ Hwf Hrep) as (_ & _ & Hall).
  { split_and!; [done | simpl; set_solver | by intros x ?%elem_of_nil | done]. }
  rewrite Forall_forall in Hall. destruct (Hall _ He) as (_ & Ht & Hm & Hu).
  split_and!; [|done|].
  - eapply tiles_ext; [|exact Ht]. rewrite Hnone. set_solver.
  - intros q. specialize (Hu q). rewrite Hrem in Hu. by rewrite <- Hu, Z.add_0_r.
Qed.

Lemma solved_is_a_solution_witness :
  (∀ s, example_hash s ≠ -1) ∧
  reachable example_hash board_1x1 ∧
  dict_wf one_monomino ∧
  Forall piece_ok (dict_keys one_monomino) ∧
  one_monomino ≠ [] ∧
  solve_backtracking example_hash one_monomino board_1x1
  = Ok [monomino_1x1_place; monomino_1x1_solved] ∧
  monomino_1x1_solved ∈ [monomino_1x1_place; monomino_1x1_solved] ∧
  type monomino_1x1_solved = solved ∧
  ∃ E, get_empty_cells board_1x1 = Ok E ∧
       solution (dict_keys one_monomino) E one_monomino
                (placed_pieces monomino_1x1_solved).
Proof.
  assert (monomino_1x1_solved ∈ [monomino_1x1_place; monomino_1x1_solved]) as Hin
    by (right; by left).
  split; [exact example_hash_not_marker|]. split; [exact board_1x1_reachable|].
  split; [exact one_monomino_wf|]. split; [exact one_monomino_ok|].
  split; [exact one_monomino_not_empty|]. split; [exact monomino_1x1_run|].
  split; [exact Hin|]. split; [reflexivity|].
  exact (solved_is_a_solution example_hash one_monomino board_1x1 _ _
           example_hash_not_marker board_1x1_reachable one_monomino_wf one_monomino_ok
           one_monomino_not_empty monomino_1x1_run Hin eq_refl).
Defined.

(** ** The search finds a solution when there is one *)

Lemma min_cell_least (o : Shape) (tl : Cell) :
  min_cell o = Ok tl → ∀ c, c ∈ o → cell_leb tl c = true.
Proof.
  unfold min_cell. destruct (elements o) as [|c0 l] eqn:E; [done|]. intros [= <-] c Hc.
  apply elem_of_elements in Hc. rewrite E in Hc. clear E. revert c Hc.
  induction l as [|a l IH]; intros c Hc; simpl.
  - apply list_elem_of_singleton in Hc as ->. apply cell_leb_iff. lia.
  - set (m := foldr (λ a b : Cell, if cell_leb a b then a else b) c0 l) in *.
    assert (c = a ∨ c ∈ c0 :: l) as [->|Hc'].
    { apply elem_of_cons in Hc as [->|Hc]; [right; by left|].
      apply elem_of_cons in Hc as [->|Hc]; [by left | right; by right]. }
    + destruct (cell_leb a m) eqn:Ea; [apply cell_leb_iff; lia|].
      apply cell_leb_iff. apply not_true_iff_false in Ea. rewrite cell_leb_iff in Ea. lia.
    + specialize (IH c Hc'). apply cell_leb_iff in IH.
      destruct (cell_leb a m) eqn:Ea; [|by apply cell_leb_iff].
      apply cell_leb_iff in Ea. apply cell_leb_iff. lia.
Qed.

Lemma find_next_empty_least (b : GameBoard) (r : option Cell) :
  board_wf b → find_next_empty b = Ok r →
  match r with
  | None => empty_set b = ∅
  | Some cell => cell ∈ empty_set b ∧ ∀ c, c ∈ empty_set b → cell_leb cell c = true
  end.
Proof.
  intros Hwf Hr.
  destruct (find_empty_in_spec b (grid_positions b) Hwf) as (r' & Hr' & Hspec); [done|].
  unfold find_next_empty in Hr. rewrite Hr' in Hr. simplify_eq.
  destruct r as [[row col]|].
  - destruct Hspec as (before & after & Hsplit & Hnone & Hbefore). simpl in Hnone.
    assert ((row, col) ∈ grid_positions b) as Hpos.
    { rewrite Hsplit. apply elem_of_app. right. by left. }
    split; [apply elem_of_empty_set; split; [by apply elem_of_grid_positions | done]|].
    intros [row' col'] [Hin' Hnone']%elem_of_empty_set.
    apply elem_of_grid_positions in Hin'. rewrite Hsplit in Hin'.
    pose proof (grid_positions_sorted b) as Hsorted. rewrite Hsplit in Hsorted.
    apply StronglySorted_app in Hsorted as (_ & _ & Hsorted).
    apply StronglySorted_inv in Hsorted as [_ Hafter].
    apply elem_of_app in Hin' as [Hin'|Hin'].
    + by destruct (Hbefore _ Hin').
    + apply elem_of_cons in Hin' as [Heq|Hin'].
      * simplify_eq. apply cell_leb_iff. simpl. lia.
      * rewrite Forall_forall in Hafter. specialize (Hafter _ Hin').
        unfold cell_lt in Hafter. apply cell_leb_iff. simpl in *. lia.
  - apply set_eq. intros [row col]. rewrite elem_of_empty_set.
    split; [|by intros ?%not_elem_of_empty]. intros [Hin Hnone].
    destruct (Hspec (row, col)); [by apply elem_of_grid_positions | done].
Qed.

Lemma can_place_shape_empty (b : GameBoard) (o : Shape) (origin : Cell) :
  board_wf b → translate origin o ⊆ empty_set b →
  can_place_shape b o origin = Ok true.
Proof.
  intros Hwf Hsub. unfold can_place_shape.
  destruct (can_place_cells_spec b origin (elements o) (wf_dims b Hwf)) as (r & -> & Hiff).
  f_equal. apply Hiff. intros [r0 k0] Hc%elem_of_elements. simpl.
  assert ((origin.1 + r0, origin.2 + k0) ∈ empty_set b) as [[? ?] Hnone]%elem_of_empty_set.
  { apply Hsub, elem_of_translate. simpl.
    by replace (origin.1 + r0 - origin.1) with r0 by lia;
      replace (origin.2 + k0 - origin.2) with k0 by lia. }
  unfold placeable. split_and!; try lia; [|by left].
  intros Hbl. apply (wf_marker_Z b _ _ Hwf) in Hbl; [congruence | done..].
Qed.

Lemma anchor_origin (E : gset Cell) (cell tl origin : Cell) (o : Shape) :
  (∀ c, c ∈ E → cell_leb cell c = true) →
  translate origin o ⊆ E → cell ∈ translate origin o → min_cell o = Ok tl →
  origin = (cell.1 - tl.1, cell.2 - tl.2).
Proof.
  intros Hleast Hsub Hcell Htl. pose proof (min_cell_elem _ _ Htl) as Hin.
  apply elem_of_translate in Hcell.
  pose proof (min_cell_least _ _ Htl _ Hcell) as H1. apply cell_leb_iff in H1.
  assert ((tl.1 + origin.1, tl.2 + origin.2) ∈ translate origin o) as Htl'.
  { apply elem_of_translate. simpl. destruct tl as [r k]. simpl.
    by replace (r + origin.1 - origin.1) with r by lia;
      replace (k + origin.2 - origin.2) with k by lia. }
  pose proof (Hleast _ (Hsub _ Htl')) as H2. apply cell_leb_iff in H2.
  simpl in *. destruct origin as [r0 k0]. simpl in *. f_equal; lia.
Qed.

Lemma solution_perm (candidates : list PuzzlePiece) (E : gset Cell) (d : Dict) (L L' : list Placement) :
  L ≡ₚ L' → solution candidates E d L → solution candidates E d L'.
Proof.
  intros Hp (Ht & Hm & Hu). split_and!.
  - by apply (tiles_perm L).
  - intros x Hx. apply Hm. by rewrite Hp.
  - intros q. by rewrite <- (uses_perm L L').
Qed.

Lemma solution_lookup_ext (candidates : list PuzzlePiece) (E : gset Cell) (d d' : Dict) (L : list Placement) :
  (∀ q, dict_lookup d' q = dict_lookup d q) →
  solution candidates E d L → solution candidates E d' L.
Proof.
  intros Hl (Ht & Hm & Hu). split_and!; [done..|].
  intros q. rewrite (Hu q). unfold dict_get. by rewrite Hl.
Qed.

Section Complete.

Variable hash : Shape → Z.
Hypothesis hash_not_marker : ∀ s, hash s ≠ -1.

(** The pieces a solution may use. *)
Variable candidates : list PuzzlePiece.

(** There is a way to finish the puzzle from this state. *)
Definition solvable (st : SolverState) : Prop :=
  ∃ L, solution candidates (empty_set (board st)) (remaining st) L.

(** There is a way to finish that covers [cell] with the orientation [o]
    of [piece], put as the search puts it. *)
Definition good (st : SolverState) (cell : Cell) (piece : PuzzlePiece) (o : Shape) : Prop :=
  ∃ tl L, min_cell o = Ok tl ∧
          solution candidates (empty_set (board st)) (remaining st)
                   ((o, (cell.1 - tl.1, cell.2 - tl.2), piece) :: L).

Definition rec_complete (rec : SolverState → result Run) (n : nat) : Prop :=
  ∀ st, state_ok st → positive (remaining st) →
        (pieces_left (remaining st) < n)%nat → solvable st →
        ∃ evs st', rec st = Ok (evs, true, st').

Lemma good_ext (st st' : SolverState) cell piece o :
  board st' = board st →
  (∀ q, dict_lookup (remaining st') q = dict_lookup (remaining st) q) →
  good st cell piece o → good st' cell piece o.
Proof.
  intros Hb Hl (tl & L & Htl & Hsol). exists tl, L. split; [done|].
  rewrite Hb. by apply (solution_lookup_ext _ _ (remaining st)).
Qed.

Lemma try_orientations_complete rec n cell piece count todo st o :
  rec_ok rec n → rec_complete rec n →
  Forall (λ o : Shape, o ≠ ∅) todo →
  state_ok st → positive (remaining st) →
  (pieces_left (remaining st) < S n)%nat →
  dict_lookup (remaining st) piece = Some count → 0 < count →
  o ∈ todo → good st cell piece o →
  ∃ evs st', try_orientations hash rec cell piece count todo st = Ok (evs, true, st').
Proof.
  intros Hrec Hcomp Htodo. revert st.
  induction Htodo as [|o0 todo Ho Htodo IH]; intros st Hok Hpos Hfuel Hl Hc Hin Hgood.
  { by apply elem_of_nil in Hin. }
  destruct Hok as [Hwf Hdwf]. cbn [try_orientations].
  destruct (min_cell_ok o0 Ho) as [tl0 Htl]. rewrite Htl. cbn [rbind].
  set (origin := (cell.1 - tl0.1, cell.2 - tl0.2)).
  assert (o = o0 → ∃ L, solution candidates (empty_set (board st)) (remaining st)
                                 ((o0, origin, piece) :: L)) as Hhead.
  { intros ->. destruct Hgood as (tl & L & Htl' & Hsol). rewrite Htl in Htl'.
    simplify_eq. by exists L. }
  destruct (can_place_shape_total (board st) o0 origin Hwf) as [can Hcan].
  rewrite Hcan. cbn [rbind]. destruct can.
  2:{ apply elem_of_cons in Hin as [Heq|Hin]; [|by apply IH].
      destruct (Hhead Heq) as (L & (Hfp & _) & _).
      rewrite (can_place_shape_empty (board st) o0 origin Hwf Hfp) in Hcan. done. }
  destruct (place_then_remove hash hash_not_marker (board st) o0 origin Hwf Hcan)
    as (b1 & Hp & Hwf1 & Hrm).
  rewrite Hp. cbn [rbind]. rewrite dict_getitem_setitem. cbn [rbind].
  destruct (take_piece_spec (remaining st) piece count Hdwf Hl Hc)
    as (rem2 & -> & Hdwf2 & Hw2 & Hne2 & Hl2 & Hpos2).
  cbn [rbind].
  set (st1 := mkState b1 (placed st ++ [(o0, origin, piece)]) rem2 (step_counter st + 1)).
  assert ((pieces_left (remaining st1) < n)%nat) as Hfuel1.
  { pose proof (Hw2 _ unit_step_copies) as Hw. rewrite !pieces_left_weight in *.
    simpl. pose proof (dict_weight_copies_nonneg rem2). lia. }
  assert (state_ok st1) as Hok1 by (by split).
  destruct (Hrec st1 Hok1 Hfuel1) as (evs & found & st2 & Hrun & Hspec).
  rewrite Hrun. cbn [rbind]. destruct found; [by eexists _, _|].
  destruct (rs_restore _ _ _ _ Hspec eq_refl) as (Eb & Ep & El). simpl in Eb, Ep, El.
  rewrite Ep, list_pop_snoc. cbn [rbind]. rewrite Eb, Hrm. cbn [rbind].
  destruct (rs_state _ _ _ _ Hspec) as [Hwf2' Hdwf2'].
  destruct (give_back_spec (remaining st2) piece Hdwf2') as (Hdwf3 & Hw3 & Hne3 & Hl3 & Hpos3).
  { intros c. rewrite El, Hl2. destruct (count - 1 =? 0) eqn:E; [done|].
    intros [= <-]. lia. }
  set (st3 := mkState (board st) (placed st)
                (dict_setitem (remaining st2) piece (dict_get (remaining st2) piece 0 + 1))
                (step_counter st2 + 1)).
  assert (∀ q, dict_lookup (remaining st3) q = dict_lookup (remaining st) q) as Hl3'.
  { intros q. simpl. destruct (piece_eqb piece q) eqn:E.
    - rewrite <- !(dict_lookup_proper _ _ _ E), Hl3, Hl. f_equal.
      unfold dict_get. rewrite El, Hl2.
      destruct (count - 1 =? 0) eqn:E'; simpl; [|lia].
      apply Z.eqb_eq in E'. lia.
    - rewrite (Hne3 q E), El. by apply Hne2. }
  assert (dict_weight copies (remaining st3) = dict_weight copies (remaining st)) as Hw3'.
  { simpl. rewrite (Hw3 _ unit_step_copies).
    destruct (rs_balance _ _ _ _ Hspec _ unit_step_copies) as [Hb2 _].
    unfold balance in Hb2. simpl in Hb2. rewrite Ep in Hb2.
    rewrite (Hw2 _ unit_step_copies) in Hb2. lia. }
  apply elem_of_cons in Hin as [Heq|Hin].
  - (* the recursive call would have found the rest of the solution *)
    destruct (Hhead Heq) as (L & (Hfp & Ht) & Hm & Hu).
    destruct (Hcomp st1 Hok1 (Hpos2 Hpos) Hfuel1) as (evs1 & st1' & Hrun1);
      [|rewrite Hrun in Hrun1; done].
    exists L. simpl.
    destruct (place_shape_empty_set hash _ _ _ _ Hwf Hwf1 Hp) as [_ ->].
    split_and!; [done | |].
    + intros x Hx. apply Hm. by right.
    + intros q. specialize (Hu q). rewrite uses_cons in Hu. simpl in Hu.
      unfold dict_get in *. destruct (piece_eqb piece q) eqn:E.
      * rewrite <- !(dict_lookup_proper _ _ _ E) in *. rewrite Hl2. rewrite Hl in Hu.
        simpl in Hu. destruct (count - 1 =? 0) eqn:E'; simpl; [|lia].
        apply Z.eqb_eq in E'. lia.
      * rewrite (Hne2 q E). lia.
  - assert (state_ok st3) as Hok3 by (by split).
    assert (positive (remaining st3)) as Hpos3'.
    { apply Hpos3. by apply (rs_positive _ _ _ _ Hspec), Hpos2. }
    assert ((pieces_left (remaining st3) < S n)%nat) as Hfuel3.
    { rewrite !pieces_left_weight in *. lia. }
    assert (dict_lookup (remaining st3) piece = Some count) as Hlook3
      by (by rewrite Hl3').
    assert (good st3 cell piece o) as Hgood3 by (by apply (good_ext st)).
    destruct (IH st3 Hok3 Hpos3' Hfuel3 Hlook3 Hc Hin Hgood3) as (evs' & st4 & ->).
    cbn [rbind]. by eexists _, _.
Qed.

Lemma try_pieces_complete rec n cell todo st piece o :
  rec_ok rec n → rec_complete rec n →
  Forall piece_ok todo →
  state_ok st → positive (remaining st) →
  (pieces_left (remaining st) < S n)%nat →
  piece ∈ todo → o ∈ orientations piece → good st cell piece o →
  ∃ evs st', try_pieces hash rec cell todo st = Ok (evs, true, st').
Proof.
  intros Hrec Hcomp Htodo. revert st.
  induction Htodo as [|p0 todo Hp Htodo IH]; intros st Hok Hpos Hfuel Hin Ho Hgood.
  { by apply elem_of_nil in Hin. }
  cbn [try_pieces]. destruct (dict_get (remaining st) p0 0 <=? 0) eqn:E.
  { apply elem_of_cons in Hin as [->|Hin]; [|by apply IH].
    apply Z.leb_le in E. destruct Hgood as (tl & L & _ & _ & _ & Hu).
    specialize (Hu p0). rewrite uses_cons in Hu. simpl in Hu.
    rewrite piece_eqb_refl in Hu. unfold uses in Hu. lia. }
  apply Z.leb_gt in E.
  destruct (try_orientations_spec hash hash_not_marker rec n cell p0 _
              (orientations p0) st Hrec Hp Hok Hfuel (dict_get_pos _ _ E) E)
    as (evs0 & found0 & st0 & Heq0 & Hspec).
  rewrite Heq0. cbn [rbind]. destruct found0; [by eexists _, _|].
  apply elem_of_cons in Hin as [->|Hin].
  - destruct (try_orientations_complete rec n cell p0 (dict_get (remaining st) p0 0)
                (orientations p0) st o Hrec Hcomp Hp Hok Hpos Hfuel
                (dict_get_pos _ _ E) E Ho Hgood) as (evs1 & st1 & Heq1).
    rewrite Heq0 in Heq1. done.
  - destruct (rs_restore _ _ _ _ Hspec eq_refl) as (Eb & Ep & El).
    assert ((pieces_left (remaining st0) < S n)%nat) as Hfuel0.
    { destruct (rs_balance _ _ _ _ Hspec _ unit_step_copies) as [Hb _].
      unfold balance in Hb. rewrite Ep in Hb. rewrite !pieces_left_weight in *. lia. }
    destruct (IH st0 (rs_state _ _ _ _ Hspec) (proj1 (rs_positive _ _ _ _ Hspec Hpos))
                Hfuel0 Hin Ho) as (evs' & st' & ->).
    { by apply (good_ext st). }
    cbn [rbind]. by eexists _, _.
Qed.

Lemma backtrack_complete piece_types fuel :
  Forall piece_ok piece_types →
  (∀ p, p ∈ candidates → p ∈ piece_types) →
  rec_complete (backtrack hash piece_types fuel) fuel.
Proof.
  intros Hpieces Hsub. induction fuel as [|fuel IH]; intros st Hok Hpos Hfuel [L Hsol];
    [lia|].
  assert (∀ x : Placement, x ∈ L → footprint x ≠ ∅) as Hfp.
  { intros x Hx. destruct Hsol as (_ & Hm & _). destruct (Hm x Hx) as [Hp Ho].
    apply translate_nonempty. rewrite Forall_forall in Hpieces.
    specialize (Hpieces _ (Hsub _ Hp)). unfold piece_ok in Hpieces.
    rewrite Forall_forall in Hpieces. by apply Hpieces. }
  cbn [backtrack]. destruct (find_next_empty_total (board st)) as [r Hr].
  { by destruct Hok. }
  rewrite Hr. cbn [rbind].
  pose proof (find_next_empty_least (board st) r (proj1 Hok) Hr) as Hleast.
  destruct r as [cell|].
  - destruct Hleast as [Hcell Hleast].
    destruct (tiles_elem L _ cell (proj1 Hsol) Hcell) as ([[o origin] piece] & Hx & Hcx).
    apply elem_of_Permutation in Hx as [L' HL].
    apply (solution_perm _ _ _ _ _ HL) in Hsol.
    destruct Hsol as ((Hsubx & Ht) & Hm & Hu).
    destruct (Hm (o, origin, piece)) as [Hp Ho]; [by left|]. simpl in Hp, Ho.
    assert (o ≠ ∅) as Hone.
    { rewrite Forall_forall in Hpieces. specialize (Hpieces _ (Hsub _ Hp)).
      unfold piece_ok in Hpieces. rewrite Forall_forall in Hpieces. by apply Hpieces. }
    destruct (min_cell_ok o Hone) as [tl Htl].
    pose proof (anchor_origin _ cell tl origin o Hleast Hsubx Hcx Htl) as ->.
    apply (try_pieces_complete _ fuel _ _ _ piece o); try done.
    + by apply backtrack_spec.
    + by apply Hsub.
    + by exists tl, L'.
  - assert (L = []) as ->.
    { destruct L as [|x L]; [done|]. destruct Hsol as ((Hsubx & _) & _ & _).
      destruct (Hfp x); [by left|]. rewrite Hleast in Hsubx. set_solver. }
    destruct Hsol as (_ & _ & Hu).
    assert (remaining st = []) as Hrem.
    { destruct (remaining st) as [|[k v] d] eqn:Ed; [done|].
      specialize (Hu k). unfold dict_get in Hu.
      rewrite dict_lookup_cons, piece_eqb_refl in Hu.
      unfold positive in Hpos. simpl in Hpos. apply Forall_cons in Hpos as [Hv _].
      cbv in Hu. simpl in Hu. lia. }
    rewrite bool_decide_true by done. by eexists _, _.
Qed.

End Complete.

(** Whenever the puzzle has a solution and the recursion limit leaves room
    for one nested frame of [backtrack] per piece and one more, the search
    finds a solution: if some placements of orientations of the given
    pieces cover every empty cell of the board exactly once and use every
    piece as often as the multiset says (all counts being positive), then
    the last event is [solved]; within that room the search never answers
    [no_solution] for a puzzle that can be solved. *)
Theorem search_finds_solution (hash : Shape → Z) (depth : nat) (pieces : Dict)
    (b : GameBoard) (E : gset Cell) (L : list Placement) :
  (∀ s, hash s ≠ -1) →
  reachable hash b → dict_wf pieces → Forall piece_ok (dict_keys pieces) →
  positive pieces →
  (pieces_left pieces < depth)%nat →
  get_empty_cells b = Ok E →
  solution (dict_keys pieces) E pieces L →
  ∃ body e,
    solve_backtracking_within hash depth pieces b = Ok (body ++ [e]) ∧ type e = solved.
Proof.
  intros Hhash Hreach Hdwf Hok Hpos Hdepth HE Hsol.
  pose proof (reachable_wf hash Hhash b Hreach) as Hwf.
  rewrite get_empty_cells_set in HE by done. injection HE as <-.
  destruct (decide (pieces = [])) as [->|Hne].
  { by exists [], (yield solved (mkState b [] [] 0)). }
  assert (Forall piece_ok (sorted_desc area (dict_keys pieces))) as Hok'
    by (by rewrite sorted_desc_perm).
  destruct (backtrack_spec hash Hhash _ depth Hok'
              (mkState b [] pieces 0)) as (evs & found & st & Hrun & Hspec).
  { by split. }
  { done. }
  destruct (backtrack_complete hash Hhash (dict_keys pieces)
              (sorted_desc area (dict_keys pieces)) depth Hok')
    with (st := mkState b [] pieces 0) as (evs1 & st1 & Hrun1).
  - intros p. by rewrite sorted_desc_perm.
  - by split.
  - done.
  - done.
  - by exists L.
  - rewrite Hrun in Hrun1. simplify_eq.
    destruct (rs_events _ _ _ _ Hspec) as (body & e & -> & _ & Hty).
    exists body, e. split; [|done].
    unfold solve_backtracking_within. cbn [remaining].
    rewrite bool_decide_false by done. by rewrite Hrun.
Qed.

Lemma monomino_solves_1x1 :
  solution (dict_keys one_monomino) {[ (0, 0) ]} one_monomino [monomino_at_origin].
Proof.
  assert (footprint monomino_at_origin = {[ (0, 0) ]}) as Hfp
    by (vm_compute; reflexivity).
  split_and!.
  - simpl. rewrite Hfp. split; [done | set_solver].
  - intros x ->%list_elem_of_singleton. split; [by left|].
    change (monomino ∈ orientations (build_piece monomino)).
    assert (orientations (build_piece monomino) = [monomino]) as ->
      by (vm_compute; reflexivity).
    by left.
  - intros q. rewrite uses_cons. unfold dict_get, one_monomino.
    rewrite dict_lookup_cons.
    change (monomino_at_origin.2) with (build_piece monomino).
    destruct (piece_eqb (build_piece monomino) q); reflexivity.
Qed.

Lemma search_finds_solution_witness :
  (∀ s, example_hash s ≠ -1) ∧
  reachable example_hash board_1x1 ∧
  dict_wf one_monomino ∧
  Forall piece_ok (dict_keys one_monomino) ∧
  positive one_monomino ∧
  (pieces_left one_monomino < 2)%nat ∧
  get_empty_cells board_1x1 = Ok {[ (0, 0) ]} ∧
  solution (dict_keys one_monomino) {[ (0, 0) ]} one_monomino [monomino_at_origin] ∧
  ∃ body e,
    solve_backtracking_within example_hash 2 one_monomino board_1x1 = Ok (body ++ [e]) ∧
    type e = solved.
Proof.
  assert (get_empty_cells board_1x1 = Ok {[ (0, 0) ]}) as HE by (vm_compute; reflexivity).
  split; [exact example_hash_not_marker|]. split; [exact board_1x1_reachable|].
  split; [exact one_monomino_wf|]. split; [exact one_monomino_ok|].
  split; [exact one_monomino_positive|]. split; [exact one_monomino_fits_depth_2|].
  split; [exact HE|]. split; [exact monomino_solves_1x1|].
  exact (search_finds_solution example_hash 2 one_monomino board_1x1 _ _
           example_hash_not_marker board_1x1_reachable one_monomino_wf one_monomino_ok
           one_monomino_positive one_monomino_fits_depth_2 HE monomino_solves_1x1).
Defined.

(** ** A search deeper than the recursion limit *)





Section TooDeep.

Variable hash : Shape → Z.
Hypothesis hash_not_marker : ∀ s, hash s ≠ -1.


End TooDeep.




(** * [PuzzleBoard] (polyomino_jigsaw_solver/models/puzzle_board.py) *)

Module PuzzleBoard.

(** A transformation is a list of [(x, y)] coordinates; a record of
    [placed_pieces] is [(transformation, row, col)]. *)
Abbreviation Transformation := (list (Z * Z)).
Abbreviation PlacedPiece := (Transformation * Z * Z)%type.

Record PuzzleBoard := mk {
  width : Z;
  height : Z;
  filled_cells : gset (Z * Z);
  placed_pieces : list PlacedPiece;
}.

Inductive message :=
  | TransformationEmpty            (* "Transformation cannot be empty" *)
  | DoesNotFit                     (* "Piece does not fit at the specified position" *)
  | CellsNotFilled (missing_cells : list (Z * Z))
                                   (* "Cannot remove piece - cells not filled: ..." *)
  | PositionOutOfBounds            (* "Position out of bounds" *)
  | MinOfEmpty                     (* [min()] of an empty sequence *)
  | NotInList.                     (* [list.remove(x)]: x not in list *)

Inductive error :=
  | PiecePlacementError (m : message)
  | PieceRemovalError (m : message)
  | ValueError (m : message).

(** What a method that changes [self] leaves behind: the board after the
    call, and the exception if it raised. *)
Inductive outcome :=
  | Return (self : PuzzleBoard)
  | Raise (self : PuzzleBoard) (e : error).

(** [min(...)] of a sequence of integers *)
Definition py_min (l : list Z) : error + Z :=
  match l with
  | [] => inl (ValueError MinOfEmpty)
  | x :: l => inr (foldl Z.min x l)
  end.

(** [min_y = min(y for _, y in transformation)],
    [min_x = min(x for x, y in transformation if y == min_y)],
    [x_offset = col - min_x], [y_offset = row - min_y] *)
Definition offsets (transformation : Transformation) (row col : Z) : error + (Z * Z) :=
  match py_min (snd <$> transformation) with
  | inl e => inl e
  | inr min_y =>
      match py_min (fst <$> filter (λ c : Z * Z, c.2 = min_y) transformation) with
      | inl e => inl e
      | inr min_x => inr (col - min_x, row - min_y)
      end
  end.

(** The loop of [check_piece] over the cells of the piece. *)
Fixpoint check_piece_loop (self : PuzzleBoard) (x_offset y_offset : Z)
    (todo : Transformation) : bool :=
  match todo with
  | [] => true
  | (x, y) :: todo =>
      let board_x := x + x_offset in
      let board_y := y + y_offset in
      if negb (bool_decide (0 ≤ board_x < width self ∧ 0 ≤ board_y < height self))
      then false
      else if bool_decide ((board_x, board_y) ∈ filled_cells self) then false
      else check_piece_loop self x_offset y_offset todo
  end.

Definition check_piece (self : PuzzleBoard) (transformation : Transformation)
    (row col : Z) : error + bool :=
  if bool_decide (transformation = []) then inr false
  else
    match offsets transformation row col with
    | inl e => inl e
    | inr (x_offset, y_offset) => inr (check_piece_loop self x_offset y_offset transformation)
    end.

Definition insert_piece (self : PuzzleBoard) (transformation : Transformation)
    (row col : Z) : outcome :=
  if bool_decide (transformation = [])
  then Raise self (PiecePlacementError TransformationEmpty)
  else
    match check_piece self transformation row col with
    | inl e => Raise self e
    | inr false => Raise self (PiecePlacementError DoesNotFit)
    | inr true =>
        match offsets transformation row col with
        | inl e => Raise self e
        | inr (x_offset, y_offset) =>
            let filled :=
              foldl (λ (acc : gset (Z * Z)) '(x, y), acc ∪ {[ (x + x_offset, y + y_offset) ]})
                    (filled_cells self) transformation in
            Return (mk (width self) (height self) filled
                       (placed_pieces self ++ [(transformation, row, col)]))
        end
    end.

(** [list.remove(x)]: takes out the first item equal to [x] *)
Fixpoint list_remove (x : PlacedPiece) (l : list PlacedPiece) : option (list PlacedPiece) :=
  match l with
  | [] => None
  | y :: l => if decide (y = x) then Some l else cons y <$> list_remove x l
  end.

Definition remove_piece (self : PuzzleBoard) (transformation : Transformation)
    (row col : Z) : outcome :=
  if bool_decide (transformation = [])
  then Raise self (PieceRemovalError TransformationEmpty)
  else
    match offsets transformation row col with
    | inl e => Raise self e
    | inr (x_offset, y_offset) =>
        let piece_cells :=
          (λ '(x, y), (x + x_offset, y + y_offset)) <$> transformation in
        let missing_cells :=
          filter (λ cell, cell ∉ filled_cells self) piece_cells in
        if bool_decide (missing_cells ≠ [])
        then Raise self (PieceRemovalError (CellsNotFilled missing_cells))
        else
          let filled :=
            foldl (λ (acc : gset (Z * Z)) cell, acc ∖ {[ cell ]})
                  (filled_cells self) piece_cells in
          match list_remove (transformation, row, col) (placed_pieces self) with
          | None =>
              Raise (mk (width self) (height self) filled (placed_pieces self))
                    (ValueError NotInList)
          | Some placed => Return (mk (width self) (height self) filled placed)
          end
    end.

Definition is_cell_empty (self : PuzzleBoard) (row col : Z) : error + bool :=
  if negb (bool_decide (0 ≤ row < height self ∧ 0 ≤ col < width self))
  then inl (ValueError PositionOutOfBounds)
  else inr (bool_decide ((col, row) ∉ filled_cells self)).


(** ** Properties *)

(** The board cells of [transformation] put at [(row, col)], as the three
    methods compute them. *)
Definition piece_cells (transformation : Transformation) (row col : Z) : gset (Z * Z) :=
  match offsets transformation row col with
  | inl _ => ∅
  | inr (x_offset, y_offset) =>
      list_to_set ((λ '(x, y), (x + x_offset, y + y_offset)) <$> transformation)
  end.

Lemma foldl_min_spec (l : list Z) (x : Z) :
  foldl Z.min x l ∈ x :: l ∧ ∀ y, y ∈ x :: l → foldl Z.min x l ≤ y.
Proof.
  revert x. induction l as [|z l IH]; intros x; simpl.
  - split; [by left|]. intros y ->%list_elem_of_singleton. lia.
  - destruct (IH (Z.min x z)) as [Hin Hle]. split.
    + apply elem_of_cons in Hin as [Heq|Hin]; [|right; by right].
      rewrite Heq. destruct (Z.min_spec x z) as [[_ ->]|[_ ->]]; [by left|].
      right; by left.
    + intros y Hy. assert (foldl Z.min (Z.min x z) l ≤ Z.min x z) as Hm
        by (apply Hle; by left).
      apply elem_of_cons in Hy as [->|Hy]; [lia|].
      apply elem_of_cons in Hy as [->|Hy]; [lia|].
      apply Hle. by right.
Qed.

Lemma py_min_spec (l : list Z) :
  l ≠ [] → ∃ m, py_min l = inr m ∧ m ∈ l ∧ ∀ y, y ∈ l → m ≤ y.
Proof.
  destruct l as [|x l]; [done|]. intros _. exists (foldl Z.min x l).
  split; [done|]. apply foldl_min_spec.
Qed.

Lemma offsets_spec (transformation : Transformation) (row col : Z) :
  transformation ≠ [] →
  ∃ min_x min_y,
    offsets transformation row col = inr (col - min_x, row - min_y) ∧
    (min_x, min_y) ∈ transformation ∧
    ∀ x y, (x, y) ∈ transformation → min_y ≤ y ∧ (y = min_y → min_x ≤ x).
Proof.
  intros Hne. unfold offsets.
  destruct (py_min_spec (snd <$> transformation)) as (min_y & -> & Hy & Hley).
  { by destruct transformation. }
  apply list_elem_of_fmap in Hy as ([x0 y0] & Heq & Hin0). simpl in Heq. subst y0.
  destruct (py_min_spec (fst <$> filter (λ c : Z * Z, c.2 = min_y) transformation))
    as (min_x & -> & Hx & Hlex).
  { intros Hnil. apply fmap_nil_inv in Hnil.
    assert ((x0, min_y) ∈ filter (λ c : Z * Z, c.2 = min_y) transformation) as Hin
      by (by apply list_elem_of_filter).
    rewrite Hnil in Hin. by apply elem_of_nil in Hin. }
  apply list_elem_of_fmap in Hx as ([x1 y1] & Heq & Hx).
  apply list_elem_of_filter in Hx as [Hy1 Hin1].
  simpl in Heq, Hy1. subst. exists x1, min_y. split_and!; [done..|].
  intros x y Hin. split.
  - apply Hley. apply list_elem_of_fmap. by exists (x, y).
  - intros ->. apply Hlex. apply list_elem_of_fmap. exists (x, min_y).
    split; [done|]. by apply list_elem_of_filter.
Qed.

Lemma elem_of_piece_cells (transformation : Transformation) (row col x_offset y_offset : Z)
    (cell : Z * Z) :
  offsets transformation row col = inr (x_offset, y_offset) →
  cell ∈ piece_cells transformation row col ↔
  ∃ x y, (x, y) ∈ transformation ∧ cell = (x + x_offset, y + y_offset).
Proof.
  intros Hoff. unfold piece_cells. rewrite Hoff, elem_of_list_to_set, list_elem_of_fmap.
  split.
  - intros ([x y] & -> & Hin). by exists x, y.
  - intros (x & y & Hin & ->). by exists (x, y).
Qed.

Lemma check_piece_loop_spec (self : PuzzleBoard) (x_offset y_offset : Z) (todo : Transformation) :
  check_piece_loop self x_offset y_offset todo = true ↔
  ∀ x y, (x, y) ∈ todo →
    (0 ≤ x + x_offset < width self ∧ 0 ≤ y + y_offset < height self) ∧
    (x + x_offset, y + y_offset) ∉ filled_cells self.
Proof.
  induction todo as [|[x y] todo IH]; simpl.
  - split; [|done]. by intros _ x y ?%elem_of_nil.
  - case_bool_decide as Hb; simpl.
    + case_bool_decide as Hf.
      * split; [done|]. intros Hall. destruct (Hall x y) as [_ []]; [by left | done].
      * rewrite IH. split.
        -- intros Hall x' y' Hin. apply elem_of_cons in Hin as [[= -> ->]|Hin];
             [done | by apply Hall].
        -- intros Hall x' y' Hin. apply Hall. by right.
    + split; [done|]. intros Hall. destruct (Hall x y) as [? _]; [by left | done].
Qed.

Lemma foldl_add_cells (x_offset y_offset : Z) (l : Transformation) (s : gset (Z * Z)) :
  foldl (λ (acc : gset (Z * Z)) '(x, y), acc ∪ {[ (x + x_offset, y + y_offset) ]}) s l
  = s ∪ list_to_set ((λ '(x, y), (x + x_offset, y + y_offset)) <$> l).
Proof.
  revert s. induction l as [|[x y] l IH]; intros s; csimpl; [set_solver|].
  rewrite IH. set_solver.
Qed.

Lemma foldl_discard_cells (l : list (Z * Z)) (s : gset (Z * Z)) :
  foldl (λ (acc : gset (Z * Z)) cell, acc ∖ {[ cell ]}) s l = s ∖ list_to_set l.
Proof.
  revert s. induction l as [|c l IH]; intros s; csimpl; [set_solver|].
  rewrite IH. set_solver.
Qed.

Lemma list_remove_spec (x : PlacedPiece) (l : list PlacedPiece) :
  match list_remove x l with
  | None => x ∉ l
  | Some l' => ∃ l1 l2, l = l1 ++ x :: l2 ∧ l' = l1 ++ l2 ∧ x ∉ l1
  end.
Proof.
  induction l as [|y l IH]; simpl; [by apply not_elem_of_nil|].
  destruct (decide (y = x)) as [->|Hne].
  - exists [], l. split_and!; [done..|]. by apply not_elem_of_nil.
  - destruct (list_remove x l) as [l'|]; simpl.
    + destruct IH as (l1 & l2 & -> & -> & Hnot). exists (y :: l1), l2.
      split_and!; [done..|]. intros Hin. by apply elem_of_cons in Hin as [->|?].
    + intros Hin. by apply elem_of_cons in Hin as [->|?].
Qed.

(** What [check_piece] answers. *)
Lemma check_piece_spec (self : PuzzleBoard) (transformation : Transformation)
    (row col : Z) :
  ∃ r, check_piece self transformation row col = inr r ∧
       (r = true ↔
        transformation ≠ [] ∧
        ∀ cell : Z * Z, cell ∈ piece_cells transformation row col →
          (0 ≤ cell.1 < width self ∧ 0 ≤ cell.2 < height self) ∧
          cell ∉ filled_cells self).
Proof.
  unfold check_piece. case_bool_decide as Hne.
  { exists false. split; [done|]. split; [done|]. by intros [? _]. }
  destruct (offsets_spec transformation row col Hne) as (min_x & min_y & Hoff & _).
  rewrite Hoff. eexists. split; [done|]. rewrite check_piece_loop_spec. split.
  - intros Hall. split; [done|]. intros cell Hcell.
    apply (elem_of_piece_cells _ _ _ _ _ _ Hoff) in Hcell as (x & y & Hin & ->).
    by apply Hall.
  - intros [_ Hall] x y Hin.
    apply (Hall (x + (col - min_x), y + (row - min_y))).
    apply (elem_of_piece_cells _ _ _ _ _ _ Hoff). by exists x, y.
Qed.

Lemma insert_piece_spec (self : PuzzleBoard) (transformation : Transformation)
    (row col : Z) :
  check_piece self transformation row col = inr true →
  insert_piece self transformation row col
  = Return (mk (width self) (height self)
               (filled_cells self ∪ piece_cells transformation row col)
               (placed_pieces self ++ [(transformation, row, col)])).
Proof.
  intros Hchk. unfold insert_piece. rewrite Hchk. unfold check_piece in Hchk.
  case_bool_decide as Hne; [done|].
  destruct (offsets_spec transformation row col Hne) as (min_x & min_y & Hoff & _).
  unfold piece_cells. rewrite Hoff. by rewrite foldl_add_cells.
Qed.

Lemma remove_piece_spec (self : PuzzleBoard) (transformation : Transformation)
    (row col : Z) :
  transformation ≠ [] →
  piece_cells transformation row col ⊆ filled_cells self →
  remove_piece self transformation row col
  = match list_remove (transformation, row, col) (placed_pieces self) with
    | None =>
        Raise (mk (width self) (height self)
                  (filled_cells self ∖ piece_cells transformation row col)
                  (placed_pieces self))
              (ValueError NotInList)
    | Some placed =>
        Return (mk (width self) (height self)
                   (filled_cells self ∖ piece_cells transformation row col) placed)
    end.
Proof.
  intros Hne Hsub. unfold remove_piece. rewrite bool_decide_false by done.
  destruct (offsets_spec transformation row col Hne) as (min_x & min_y & Hoff & _).
  unfold piece_cells in *. rewrite Hoff in *. rewrite bool_decide_false.
  - by rewrite foldl_discard_cells.
  - intros Hmiss. apply Hmiss.
    destruct (filter _ _) as [|c l] eqn:E; [done|].
    assert (c ∈ c :: l) as Hc by (by left). rewrite <- E in Hc.
    apply list_elem_of_filter in Hc as [Hnot Hin]. destruct Hnot. apply Hsub.
    by apply elem_of_list_to_set.
Qed.

Lemma remove_piece_missing (self : PuzzleBoard) (transformation : Transformation)
    (row col : Z) :
  transformation ≠ [] →
  ¬ piece_cells transformation row col ⊆ filled_cells self →
  ∃ missing_cells,
    remove_piece self transformation row col
    = Raise self (PieceRemovalError (CellsNotFilled missing_cells)).
Proof.
  intros Hne Hsub. unfold remove_piece. rewrite bool_decide_false by done.
  destruct (offsets_spec transformation row col Hne) as (min_x & min_y & Hoff & _).
  unfold piece_cells in *. rewrite Hoff in *. rewrite bool_decide_true; [by eexists|].
  intros Hnil. apply Hsub. intros cell Hcell%elem_of_list_to_set.
  destruct (decide (cell ∈ filled_cells self)) as [|Hnot]; [done|].
  by destruct (filter_nil_not_elem_of _ _ cell Hnil Hnot).
Qed.


Lemma insert_piece_inv (self self' : PuzzleBoard) (transformation : Transformation)
    (row col : Z) :
  insert_piece self transformation row col = Return self' →
  check_piece self transformation row col = inr true.
Proof.
  unfold insert_piece. case_bool_decide; [done|].
  destruct (check_piece self transformation row col) as [e|[|]]; done.
Qed.

Lemma remove_piece_inv (self self' : PuzzleBoard) (transformation : Transformation)
    (row col : Z) :
  remove_piece self transformation row col = Return self' →
  transformation ≠ [] ∧
  piece_cells transformation row col ⊆ filled_cells self ∧
  ∃ l1 l2,
    placed_pieces self = l1 ++ (transformation, row, col) :: l2 ∧
    ((transformation, row, col) ∉ l1) ∧
    self' = mk (width self) (height self)
               (filled_cells self ∖ piece_cells transformation row col) (l1 ++ l2).
Proof.
  intros Hrm. assert (transformation ≠ []) as Hne.
  { intros ->. by unfold remove_piece in Hrm. }
  destruct (decide (piece_cells transformation row col ⊆ filled_cells self)) as [Hsub|Hsub].
  - split_and!; [done..|]. rewrite remove_piece_spec in Hrm by done.
    pose proof (list_remove_spec (transformation, row, col) (placed_pieces self)) as Hl.
    destruct (list_remove _ _) as [placed|]; [|done].
    destruct Hl as (l1 & l2 & ? & -> & ?). exists l1, l2. by simplify_eq.
  - destruct (remove_piece_missing self transformation row col Hne Hsub) as [? Heq].
    congruence.
Qed.

Lemma list_remove_snoc (x : PlacedPiece) (l : list PlacedPiece) :
  x ∉ l → list_remove x (l ++ [x]) = Some l.
Proof.
  induction l as [|y l IH]; intros Hnot; simpl.
  - by rewrite decide_True.
  - rewrite decide_False by (intros ->; apply Hnot; by left).
    rewrite IH; [done|]. intros ?. apply Hnot. by right.
Qed.

(** The cells of a record of [placed_pieces]. *)
Definition cells_of (r : PlacedPiece) : gset (Z * Z) := piece_cells r.1.1 r.1.2 r.2.

(** No two records of the list share a cell. *)
Fixpoint apart (l : list PlacedPiece) : Prop :=
  match l with
  | [] => True
  | r :: l => (∀ r', r' ∈ l → cells_of r ## cells_of r') ∧ apart l
  end.

Lemma apart_app (l1 l2 : list PlacedPiece) :
  apart (l1 ++ l2) ↔
  apart l1 ∧ apart l2 ∧ ∀ r1 r2, r1 ∈ l1 → r2 ∈ l2 → cells_of r1 ## cells_of r2.
Proof.
  induction l1 as [|r l1 IH]; simpl.
  - split; [|by intros (_ & ? & _)]. intros ?. split_and!; [done..|].
    by intros r1 r2 ?%elem_of_nil.
  - rewrite IH. split.
    + intros (Hr & H1 & H2 & H12). split_and!; [|done..|].
      * intros r' Hin. apply Hr, elem_of_app. by left.
      * intros r1 r2 Hin1 Hin2. apply elem_of_cons in Hin1 as [->|Hin1].
        -- apply Hr, elem_of_app. by right.
        -- by apply H12.
    + intros ((Hr & H1) & H2 & H12). split_and!; [|done..|].
      * intros r' Hin. apply elem_of_app in Hin as [Hin|Hin]; [by apply Hr|].
        apply H12; [by left | done].
      * intros r1 r2 Hin1 Hin2. apply H12; [by right | done].
Qed.

Lemma apart_lookup (l : list PlacedPiece) (i j : nat) (r1 r2 : PlacedPiece) :
  apart l → l !! i = Some r1 → l !! j = Some r2 → i ≠ j → cells_of r1 ## cells_of r2.
Proof.
  revert i j. induction l as [|r l IH]; intros i j Ha Hi Hj Hne; [done|].
  destruct Ha as [Hr Hl]. destruct i as [|i], j as [|j]; simpl in *; simplify_eq.
  - apply Hr. by eapply list_elem_of_lookup_2.
  - symmetry. apply Hr. by eapply list_elem_of_lookup_2.
  - eapply (IH i j); eauto.
Qed.

(** The boards a program gets from a new, empty board by calls of
    [insert_piece] and [remove_piece] that return. *)
Inductive reachable : PuzzleBoard → Prop :=
  | reach_new (w h : Z) : reachable (mk w h ∅ [])
  | reach_insert self transformation row col self' :
      reachable self → insert_piece self transformation row col = Return self' →
      reachable self'
  | reach_remove self transformation row col self' :
      reachable self → remove_piece self transformation row col = Return self' →
      reachable self'.

Record consistent (self : PuzzleBoard) : Prop := {
  filled_in_bounds :
    ∀ cell : Z * Z, cell ∈ filled_cells self →
      0 ≤ cell.1 < width self ∧ 0 ≤ cell.2 < height self;
  filled_covered :
    ∀ cell : Z * Z, cell ∈ filled_cells self ↔
      ∃ r, r ∈ placed_pieces self ∧ cell ∈ cells_of r;
  placed_apart : apart (placed_pieces self);
}.

Lemma reachable_consistent (self : PuzzleBoard) : reachable self → consistent self.
Proof.
  induction 1 as [w h
                 |self transformation row col self' _ IH Hins
                 |self transformation row col self' _ IH Hrm].
  - split; simpl; [set_solver | | done]. intros cell. split; [set_solver|].
    by intros (r & ?%elem_of_nil & _).
  - pose proof (insert_piece_inv _ _ _ _ _ Hins) as Hchk.
    rewrite (insert_piece_spec _ _ _ _ Hchk) in Hins. simplify_eq.
    destruct (check_piece_spec self transformation row col) as (r & Hr & Hiff).
    rewrite Hchk in Hr. simplify_eq. destruct (proj1 Hiff eq_refl) as [Hne Hfit].
    destruct IH as [Hb Hc Ha]. split; simpl.
    + intros cell [Hcell|Hcell]%elem_of_union; [by apply Hb | by apply Hfit].
    + intros cell. rewrite elem_of_union, Hc. split.
      * intros [(r & Hin & Hcell)|Hcell].
        -- exists r. split; [|done]. apply elem_of_app. by left.
        -- exists (transformation, row, col). split; [|done].
           apply elem_of_app. right. by left.
      * intros (r & Hin & Hcell). apply elem_of_app in Hin as [Hin|Hin].
        -- left. by exists r.
        -- apply list_elem_of_singleton in Hin as ->. by right.
    + apply apart_app. split_and!; [done | simpl; split; [|done] |].
      * by intros r' ?%elem_of_nil.
      * intros r1 r2 Hin1 Hin2. apply list_elem_of_singleton in Hin2 as ->.
        apply elem_of_disjoint. intros cell Hc1 Hc2.
        apply (Hfit _ Hc2). apply Hc. by exists r1.
  - destruct (remove_piece_inv _ _ _ _ _ Hrm) as (Hne & Hsub & l1 & l2 & Hpl & Hnot & ->).
    destruct IH as [Hb Hc Ha]. rewrite Hpl in Ha, Hc.
    apply apart_app in Ha as (Ha1 & [Hx Ha2] & H12). split; simpl.
    + intros cell [Hcell _]%elem_of_difference. by apply Hb.
    + intros cell. rewrite elem_of_difference, Hc. split.
      * intros [(r & Hin & Hcell) Hnotin]. exists r. split; [|done].
        apply elem_of_app in Hin as [Hin|Hin]; [apply elem_of_app; by left|].
        apply elem_of_cons in Hin as [->|Hin]; [done|]. apply elem_of_app. by right.
      * intros (r & Hin & Hcell). split.
        -- exists r. split; [|done].
           apply elem_of_app in Hin as [Hin|Hin]; apply elem_of_app;
             [by left | right; by right].
        -- intros Hcell'. apply elem_of_app in Hin as [Hin|Hin].
           ++ apply (H12 r (transformation, row, col) Hin ltac:(by left) cell); done.
           ++ apply (Hx r Hin cell); done.
    + apply apart_app. split_and!; [done..|].
      intros r1 r2 Hin1 Hin2. apply H12; [done | by right].
Qed.


Lemma anchor_in_piece_cells (transformation : Transformation) (row col : Z) :
  transformation ≠ [] →
  (col, row) ∈ piece_cells transformation row col ∧
  ∀ x y, (x, y) ∈ piece_cells transformation row col → row ≤ y ∧ (y = row → col ≤ x).
Proof.
  intros Hne.
  destruct (offsets_spec transformation row col Hne) as (min_x & min_y & Hoff & Hin & Hmin).
  split.
  - apply (elem_of_piece_cells _ _ _ _ _ _ Hoff). exists min_x, min_y.
    split; [done|]. f_equal; lia.
  - intros x y Hxy. apply (elem_of_piece_cells _ _ _ _ _ _ Hoff) in Hxy
      as (x' & y' & Hin' & [= -> ->]).
    destruct (Hmin _ _ Hin') as [Hy Hx]. split; [lia|]. intros Heq.
    assert (y' = min_y) as Hy' by lia. specialize (Hx Hy'). lia.
Qed.

(** A small board and the piece of the docstring of [check_piece]
    ([x] over [xxx]). *)
Definition empty_3x3 : PuzzleBoard := mk 3 3 ∅ [].
Definition T_piece : Transformation := [(1, 0); (0, 1); (1, 1); (2, 1)].

(** The 3 × 3 board with the piece of the docstring in its top rows. *)
Definition T_on_3x3 : PuzzleBoard :=
  mk 3 3 {[ (1, 0); (0, 1); (1, 1); (2, 1) ]} [(T_piece, 0, 1)].

(** [check_piece] never raises.  It answers [True] exactly when the piece
    is not empty and each of its board cells lies inside the board and is
    not filled. *)
Theorem check_piece_iff (self : PuzzleBoard) (transformation : Transformation)
    (row col : Z) :
  ∃ r, check_piece self transformation row col = inr r ∧
       (r = true ↔
        transformation ≠ [] ∧
        ∀ x y, (x, y) ∈ piece_cells transformation row col →
          (0 ≤ x < width self ∧ 0 ≤ y < height self) ∧
          (x, y) ∉ filled_cells self).
Proof.
  destruct (check_piece_spec self transformation row col) as (r & Hr & Hiff).
  exists r. split; [done|]. rewrite Hiff. split.
  - intros [Hne Hall]. split; [done|]. intros x y Hin. by apply (Hall (x, y)).
  - intros [Hne Hall]. split; [done|]. intros [x y] Hin. by apply Hall.
Qed.

(** The methods put a piece so that the leftmost cell of its top row lies
    at [(row, col)]: this cell [(x, y) = (col, row)] is one of the board
    cells of the piece, no cell of the piece lies in a row above [row], and
    none in row [row] lies left of [col]. *)
Theorem piece_anchored_at_position (transformation : Transformation) (row col : Z) :
  transformation ≠ [] →
  (col, row) ∈ piece_cells transformation row col ∧
  ∀ x y, (x, y) ∈ piece_cells transformation row col → row ≤ y ∧ (y = row → col ≤ x).
Proof. apply anchor_in_piece_cells. Qed.

Lemma piece_anchored_at_position_witness :
  T_piece ≠ [] ∧
  (1, 0) ∈ piece_cells T_piece 0 1 ∧
  ∀ x y, (x, y) ∈ piece_cells T_piece 0 1 → 0 ≤ y ∧ (y = 0 → 1 ≤ x).
Proof.
  split; [done|]. apply (piece_anchored_at_position T_piece 0 1). done.
Defined.

(** [insert_piece] returns exactly when [check_piece] answers [True]: the
    cells of the piece, none of which was filled, are then added to
    [filled_cells], the record is appended to [placed_pieces], and the cell
    at [(row, col)] is no longer empty.  Otherwise it raises
    [PiecePlacementError] and leaves the board as it was. *)
Theorem insert_piece_outcome (self : PuzzleBoard) (transformation : Transformation)
    (row col : Z) :
  ∃ r, check_piece self transformation row col = inr r ∧
       if r then
         ∃ self', insert_piece self transformation row col = Return self' ∧
                  width self' = width self ∧ height self' = height self ∧
                  piece_cells transformation row col ## filled_cells self ∧
                  filled_cells self'
                  = filled_cells self ∪ piece_cells transformation row col ∧
                  placed_pieces self' = placed_pieces self ++ [(transformation, row, col)] ∧
                  is_cell_empty self' row col = inr false
       else
         ∃ m, insert_piece self transformation row col
              = Raise self (PiecePlacementError m).
Proof.
  destruct (check_piece_spec self transformation row col) as (r & Hr & Hiff).
  exists r. split; [done|]. destruct r.
  - destruct (proj1 Hiff eq_refl) as [Hne Hfit].
    eexists. split; [by apply insert_piece_spec|]. simpl. split_and!; [done..| |done|done|].
    + apply elem_of_disjoint. intros cell Hcell. by apply (Hfit cell).
    + destruct (anchor_in_piece_cells transformation row col Hne) as [Hanchor _].
      destruct (Hfit _ Hanchor) as [[? ?] _]. simpl in *.
      unfold is_cell_empty. simpl. rewrite bool_decide_true by done. simpl.
      rewrite bool_decide_false; [done|]. intros Hnot. apply Hnot.
      apply elem_of_union. by right.
  - unfold insert_piece. rewrite Hr. case_bool_decide; by eexists.
Qed.

(** [remove_piece] of what [insert_piece] has just put there returns and
    gives back the filled cells from before; the records are the ones from
    before up to their order, and the whole board is the one from before
    when the record was not yet in [placed_pieces]. *)
Theorem insert_remove_round_trip (self self1 : PuzzleBoard)
    (transformation : Transformation) (row col : Z) :
  insert_piece self transformation row col = Return self1 →
  ∃ self2, remove_piece self1 transformation row col = Return self2 ∧
           width self2 = width self ∧ height self2 = height self ∧
           filled_cells self2 = filled_cells self ∧
           placed_pieces self2 ≡ₚ placed_pieces self ∧
           ((transformation, row, col) ∉ placed_pieces self → self2 = self).
Proof.
  intros Hins. pose proof (insert_piece_inv _ _ _ _ _ Hins) as Hchk.
  rewrite (insert_piece_spec _ _ _ _ Hchk) in Hins. simplify_eq.
  destruct (check_piece_spec self transformation row col) as (r & Hr & Hiff).
  rewrite Hchk in Hr. simplify_eq. destruct (proj1 Hiff eq_refl) as [Hne Hfit].
  assert (piece_cells transformation row col ## filled_cells self) as Hdisj.
  { apply elem_of_disjoint. intros cell Hcell. by apply (Hfit cell). }
  rewrite remove_piece_spec; simpl; [|done|set_solver].
  assert ((filled_cells self ∪ piece_cells transformation row col)
            ∖ piece_cells transformation row col = filled_cells self) as -> by set_solver.
  pose proof (list_remove_spec (transformation, row, col)
                (placed_pieces self ++ [(transformation, row, col)])) as Hl.
  destruct (list_remove _ _) as [placed'|] eqn:E.
  - destruct Hl as (l1 & l2 & Hsplit & -> & Hnot). eexists. split; [done|]. simpl.
    split_and!; [done..| |].
    + apply (Permutation_cons_inv (a := (transformation, row, col))).
      rewrite Permutation_middle, <- Hsplit. by rewrite Permutation_app_comm.
    + intros Hfresh. rewrite list_remove_snoc in E by done.
      injection E as E. rewrite <- E. by destruct self.
  - destruct Hl. apply elem_of_app. right. by left.
Qed.

Lemma insert_remove_round_trip_witness :
  insert_piece empty_3x3 T_piece 0 1 = Return T_on_3x3 ∧
  ∃ self2,
    remove_piece T_on_3x3 T_piece 0 1 = Return self2 ∧
    width self2 = width empty_3x3 ∧ height self2 = height empty_3x3 ∧
    filled_cells self2 = filled_cells empty_3x3 ∧
    placed_pieces self2 ≡ₚ placed_pieces empty_3x3 ∧
    ((T_piece, 0, 1) ∉ placed_pieces empty_3x3 → self2 = empty_3x3).
Proof.
  assert (insert_piece empty_3x3 T_piece 0 1 = Return T_on_3x3) as Hins
    by (vm_compute; reflexivity).
  split; [exact Hins|].
  exact (insert_remove_round_trip empty_3x3 _ T_piece 0 1 Hins).
Defined.

(** [remove_piece] of a piece that is not empty: when one of its cells is
    not filled it raises [PieceRemovalError] and changes nothing; when all
    are filled and the record is in [placed_pieces] it empties the cells and
    takes out the first such record; when all are filled but there is no
    such record, the [ValueError] of [list.remove] comes only after the
    cells have been emptied. *)
Theorem remove_piece_outcome (self : PuzzleBoard) (transformation : Transformation)
    (row col : Z) :
  transformation ≠ [] →
  (¬ piece_cells transformation row col ⊆ filled_cells self →
   ∃ missing_cells,
     remove_piece self transformation row col
     = Raise self (PieceRemovalError (CellsNotFilled missing_cells))) ∧
  (piece_cells transformation row col ⊆ filled_cells self →
   (transformation, row, col) ∈ placed_pieces self →
   ∃ l1 l2,
     placed_pieces self = l1 ++ (transformation, row, col) :: l2 ∧
     ((transformation, row, col) ∉ l1) ∧
     remove_piece self transformation row col
     = Return (mk (width self) (height self)
                  (filled_cells self ∖ piece_cells transformation row col) (l1 ++ l2))) ∧
  (piece_cells transformation row col ⊆ filled_cells self →
   (transformation, row, col) ∉ placed_pieces self →
   remove_piece self transformation row col
   = Raise (mk (width self) (height self)
               (filled_cells self ∖ piece_cells transformation row col)
               (placed_pieces self))
           (ValueError NotInList)).
Proof.
  intros Hne. split_and!.
  - by apply remove_piece_missing.
  - intros Hsub Hin. rewrite remove_piece_spec by done.
    pose proof (list_remove_spec (transformation, row, col) (placed_pieces self)) as Hl.
    destruct (list_remove _ _) as [placed'|]; [|done].
    destruct Hl as (l1 & l2 & ? & -> & ?). by exists l1, l2.
  - intros Hsub Hin. rewrite remove_piece_spec by done.
    pose proof (list_remove_spec (transformation, row, col) (placed_pieces self)) as Hl.
    destruct (list_remove _ _) as [placed'|]; [|done].
    destruct Hl as (l1 & l2 & Hsplit & _). destruct Hin. rewrite Hsplit.
    apply elem_of_app. right. by left.
Qed.

(** A board whose cell [(0, 0)] is filled although no piece is recorded. *)
Definition filled_unrecorded : PuzzleBoard := mk 3 3 {[ (0, 0) ]} [].

Lemma remove_piece_outcome_witness :
  [(0, 0)] ≠ ([] : Transformation) ∧
  piece_cells [(0, 0)] 0 0 ⊆ filled_cells filled_unrecorded ∧
  ((([(0, 0)], 0, 0) : PlacedPiece) ∉ placed_pieces filled_unrecorded) ∧
  remove_piece filled_unrecorded [(0, 0)] 0 0
  = Raise (mk 3 3 ({[ (0, 0) ]} ∖ piece_cells [(0, 0)] 0 0) []) (ValueError NotInList).
Proof.
  assert ([(0, 0)] ≠ ([] : Transformation)) as Hne by done.
  assert (piece_cells [(0, 0)] 0 0 ⊆ filled_cells filled_unrecorded) as Hsub
    by (vm_compute; set_solver).
  assert ((([(0, 0)], 0, 0) : PlacedPiece) ∉ placed_pieces filled_unrecorded) as Hnot
    by (apply not_elem_of_nil).
  split_and!; [done..|].
  exact (proj2 (proj2 (remove_piece_outcome filled_unrecorded [(0, 0)] 0 0 Hne)) Hsub Hnot).
Defined.

(** On every board that comes from a new one by calls of [insert_piece] and
    [remove_piece] that returned, the filled cells lie inside the board and
    are exactly the cells of the recorded pieces, and no two records share
    a cell. *)
Theorem placed_pieces_tile_filled_cells (self : PuzzleBoard) :
  reachable self →
  (∀ x y, (x, y) ∈ filled_cells self → 0 ≤ x < width self ∧ 0 ≤ y < height self) ∧
  (∀ cell : Z * Z, cell ∈ filled_cells self ↔
     ∃ transformation row col,
       (transformation, row, col) ∈ placed_pieces self ∧
       cell ∈ piece_cells transformation row col) ∧
  (∀ (i j : nat) t1 row1 col1 t2 row2 col2,
     i ≠ j →
     placed_pieces self !! i = Some (t1, row1, col1) →
     placed_pieces self !! j = Some (t2, row2, col2) →
     piece_cells t1 row1 col1 ## piece_cells t2 row2 col2).
Proof.
  intros Hreach. destruct (reachable_consistent self Hreach) as [Hb Hc Ha].
  split_and!.
  - intros x y Hin. by apply (Hb (x, y)).
  - intros cell. rewrite Hc. split.
    + intros ([[t row] col] & ? & ?). by exists t, row, col.
    + intros (t & row & col & ? & ?). by exists (t, row, col).
  - intros i j t1 row1 col1 t2 row2 col2 Hne Hi Hj.
    by apply (apart_lookup _ i j (t1, row1, col1) (t2, row2, col2) Ha).
Qed.

Lemma placed_pieces_tile_filled_cells_witness :
  reachable T_on_3x3 ∧
  (∀ x y, (x, y) ∈ filled_cells T_on_3x3 →
     0 ≤ x < width T_on_3x3 ∧ 0 ≤ y < height T_on_3x3) ∧
  (∀ cell : Z * Z, cell ∈ filled_cells T_on_3x3 ↔
     ∃ transformation row col,
       (transformation, row, col) ∈ placed_pieces T_on_3x3 ∧
       cell ∈ piece_cells transformation row col) ∧
  (∀ (i j : nat) t1 row1 col1 t2 row2 col2,
     i ≠ j →
     placed_pieces T_on_3x3 !! i = Some (t1, row1, col1) →
     placed_pieces T_on_3x3 !! j = Some (t2, row2, col2) →
     piece_cells t1 row1 col1 ## piece_cells t2 row2 col2).
Proof.
  assert (reachable T_on_3x3) as Hreach.
  { apply (reach_insert empty_3x3 T_piece 0 1); [apply reach_new|].
    vm_compute. reflexivity. }
  split; [exact Hreach|].
  exact (placed_pieces_tile_filled_cells T_on_3x3 Hreach).
Defined.
End PuzzleBoard.
